(** * LikeC4 MCP query tools: a shallow embedding and its properties

    The development follows the tool handlers of
    [packages/language-server/src/mcp/tools]:
    - [find-relationship-paths]  (bounded breadth-first path search),
    - [query-incomers-graph]     (bounded breadth-first closure),
    - [query-by-metadata] and [query-by-tags] (predicate matchers).

    JavaScript strings are modelled by [string], arrays by [list],
    [Set<string>] by [gset string], integral JavaScript numbers by [Z]
    (caller supplied) or [nat] (counters that start at 0 and are only
    incremented).  A plain object used as a dictionary is the [gmap string]
    of its own properties; where a handler reads or writes such an object
    under a caller-supplied key, the properties inherited from
    [Object.prototype] are modelled as well ([getProperty], [objectSet]).
    The case mapping of [String.prototype.toLowerCase] is a parameter of the
    metadata query.  An exception thrown by [invariant], by input validation
    or by a call on a value that is not a string is the [Err] branch of
    [Result]. *)

From Stdlib Require Import ZArith String Ascii List Lia Bool Permutation Sorted.
From stdpp Require Import gmap strings list fin_maps.

Open Scope nat_scope.

(** ** Failures *)

(** Every failing [invariant(...)] of the handlers, one constructor per call
    site, the rejection of an argument by the zod input schema, and the
    [TypeError] of calling [toLowerCase] on a value that has no such
    method. *)
Inductive ToolError : Type :=
| SourceNotFound (sourceId : string)
| TargetNotFound (targetId : string)
| SameElement
| ParentChild
| ElementNotFound (elementId : string)
| NoTagCondition
| SchemaRejected (field : string)
| NotAFunction (method : string).

Inductive Result (A : Type) : Type :=
| Ok (a : A)
| Err (e : ToolError).
Arguments Ok {A} a.
Arguments Err {A} e.

Definition bind {A B : Type} (r : Result A) (k : A -> Result B) : Result B :=
  match r with
  | Ok a => k a
  | Err e => Err e
  end.

Notation "'let!' x ':=' c 'in' k" := (bind c (fun x => k))
  (at level 10, x name, c at level 100, k at level 200).

(** [invariant(cond, message)] *)
Definition invariant (cond : bool) (e : ToolError) : Result unit :=
  if cond then Ok tt else Err e.

(** [invariant(value, message)] on a possibly missing value *)
Definition invariant_some {A : Type} (o : option A) (e : ToolError) : Result A :=
  match o with
  | Some a => Ok a
  | None => Err e
  end.

(** A handler whose steps are logged: a computation receives the log written
    so far and returns the log it leaves, whether it succeeds or fails.  A
    step that throws ends the computation with the log as it stands, and the
    steps after it never run. *)
Definition Traced (E A : Type) : Type := list E -> list E * Result A.

(** A step that logs nothing. *)
Definition quiet {E A : Type} (r : Result A) : Traced E A :=
  fun log => (log, r).

Definition andThen {E A B : Type} (c : Traced E A) (k : A -> Traced E B)
    : Traced E B :=
  fun log =>
    match c log with
    | (log', Ok a) => k a log'
    | (log', Err e) => (log', Err e)
    end.

Notation "'let*' x ':=' c 'in' k" := (andThen c (fun x => k))
  (at level 10, x name, c at level 100, k at level 200).

(** The error taxonomy of the design document, read off the message of the
    failing invariant; a [TypeError] belongs to neither class. *)
Inductive ErrorClass : Type := NotFound | InvalidArgument | Unclassified.

Definition errorClass (e : ToolError) : ErrorClass :=
  match e with
  | SourceNotFound _ | TargetNotFound _ | ElementNotFound _ => NotFound
  | SameElement | ParentChild | NoTagCondition | SchemaRejected _ => InvalidArgument
  | NotAFunction _ => Unclassified
  end.

(** ** The model consumed by the tools *)

Inductive MetadataValue : Type :=
| MetaString (s : string)
| MetaArray (l : list string).

Inductive ViewType : Type := ViewElement | ViewDeployment | ViewDynamic.

Record ViewModel : Type := {
  view_id : string;
  view_titleOrId : string;
  view_type : ViewType
}.

Record IncludedView : Type := {
  iv_id : string;
  iv_title : string;
  iv_type : ViewType
}.

Definition includedInViews (views : list ViewModel) : list IncludedView :=
  map (fun v => {| iv_id := view_id v; iv_title := view_titleOrId v;
                   iv_type := view_type v |}) views.

(** A relationship as the handlers read it: [rel.source.id], [rel.target.id]
    and the literal attributes. *)
Record Relationship : Type := {
  rel_source : string;
  rel_target : string;
  rel_kind : option string;
  rel_title : option string;
  rel_description : option string;
  rel_technology : option string;
  rel_tags : list string
}.

Inductive RelationFilter : Type := FilterAll | FilterDirect.

(** An element (or deployment node) with the accessors the handlers call.
    [outgoing()] and [incoming(filter)] are computed by the model library;
    here they are the data the element carries. *)
Record Element : Type := {
  el_id : string;
  el_name : string;
  el_kind : string;
  el_title : string;
  el_tags : list string;
  el_metadata : gmap string MetadataValue;
  el_views : list ViewModel;
  el_outgoing : list Relationship;
  el_incoming : RelationFilter -> list Relationship
}.

(** [isAncestorOf] belongs to the model library and is a parameter here. *)
Record LikeC4Model : Type := {
  elements : list Element;
  deployment_elements : list Element;
  isAncestorOf : Element -> Element -> bool
}.

Definition findElement (m : LikeC4Model) (id : string) : option Element :=
  find (fun e => String.eqb (el_id e) id) (elements m).

(** ** Input schemas (zod) *)

(** [z.number().int().min(lo).max(hi).optional().default(d)]: an omitted value
    becomes the default, an integer inside the bounds is kept, anything else
    fails validation. *)
Definition zIntRange (field : string) (lo hi d : Z) (v : option Z) : Result Z :=
  match v with
  | None => Ok d
  | Some n => if ((lo <=? n) && (n <=? hi))%Z then Ok n else Err (SchemaRejected field)
  end.

(** ** query-by-metadata *)

Inductive MatchMode : Type := Exact | Contains | Exists.

(** [s.includes(sub)] *)
Fixpoint includes (s sub : string) : bool :=
  String.prefix sub s ||
  match s with
  | EmptyString => false
  | String _ s' => includes s' sub
  end.

(** [Array.isArray(metadataValue) ? metadataValue : [metadataValue]] *)
Definition valuesOf (metadataValue : MetadataValue) : list string :=
  match metadataValue with
  | MetaString s => [s]
  | MetaArray l => l
  end.

(** JavaScript truthiness of a string: only the empty string is falsy. *)
Definition truthy (s : string) : bool :=
  match s with
  | EmptyString => false
  | String _ _ => true
  end.

(** [a || b] where [a] may be [undefined]. *)
Definition orElse (a : option string) (b : string) : string :=
  match a with
  | Some s => if truthy s then s else b
  | None => b
  end.

(** [values[0] || ''] *)
Definition firstOrEmpty (values : list string) : string :=
  orElse (head values) "".

(** The property names that every object created by a literal inherits from
    [Object.prototype]. *)
Definition objectPrototypeKeys : list string :=
  ["constructor"; "__defineGetter__"; "__defineSetter__"; "hasOwnProperty";
   "__lookupGetter__"; "__lookupSetter__"; "isPrototypeOf";
   "propertyIsEnumerable"; "toString"; "valueOf"; "__proto__";
   "toLocaleString"].

(** What [object[key]] yields when [key in object] holds: the value of an own
    property, or for an inherited name a method of [Object.prototype] (the
    prototype itself for [__proto__]), which is neither a string nor an
    array. *)
Inductive Property : Type :=
| Own (metadataValue : MetadataValue)
| Inherited.

(** [key in object ? object[key] : undefined] *)
Definition getProperty (object : gmap string MetadataValue) (key : string)
    : option Property :=
  match object !! key with
  | Some metadataValue => Some (Own metadataValue)
  | None => if bool_decide (key ∈ objectPrototypeKeys) then Some Inherited else None
  end.

Record MetadataArgs : Type := {
  ma_key : string;
  ma_value : option string;
  ma_matchMode : option MatchMode
}.

(** The reported [matchedValue]: a string, or the inherited method when the
    key names one. *)
Inductive MatchedValue : Type :=
| MatchedString (s : string)
| MatchedInherited.

Record MetadataMatch : Type := {
  mm_id : string;
  mm_name : string;
  mm_kind : string;
  mm_title : string;
  mm_tags : list string;
  mm_metadata : gmap string MetadataValue;
  mm_matchedValue : MatchedValue;
  mm_includedInViews : list IncludedView
}.

(** [matches] applied to an inherited method: [values] is the one-element
    array that holds it.  The method is not [===] to any string, and in
    [contains] mode [v.toLowerCase()] throws, since the method has no
    property [toLowerCase]. *)
Definition matches_inherited (searchValue : option string) (mode : MatchMode)
    : Result bool :=
  match mode, searchValue with
  | Exists, _ => Ok true
  | Exact, None | Contains, None => Ok false
  | Exact, Some _ => Ok false
  | Contains, Some _ => Err (NotAFunction "toLowerCase")
  end.

Section QueryByMetadata.

(** [String.prototype.toLowerCase]: the case mapping of the JavaScript
    engine, which covers every cased letter of Unicode, is a parameter. *)
Variable toLowerCase : string -> string.

(** [matches] on a value of its declared type, a string or an array of
    strings. *)
Definition matches (metadataValue : MetadataValue) (searchValue : option string)
    (mode : MatchMode) : bool :=
  let values := valuesOf metadataValue in
  match mode with
  | Exists => true
  | Exact =>
      match searchValue with
      | None => false
      | Some sv => existsb (fun v => String.eqb v sv) values
      end
  | Contains =>
      match searchValue with
      | None => false
      | Some sv =>
          let searchLower := toLowerCase sv in
          existsb (fun v => includes (toLowerCase v) searchLower) values
      end
  end.

(** [getMatchedValue] on a value of its declared type. *)
Definition getMatchedValue (metadataValue : MetadataValue)
    (searchValue : option string) (mode : MatchMode) : string :=
  let values := valuesOf metadataValue in
  match mode, searchValue with
  | Exists, _ | _, None => firstOrEmpty values
  | Exact, Some sv =>
      orElse (find (fun v => String.eqb v sv) values) (firstOrEmpty values)
  | Contains, Some sv =>
      let searchLower := toLowerCase sv in
      orElse (find (fun v => includes (toLowerCase v) searchLower) values)
             (firstOrEmpty values)
  end.

(** The record pushed for an entity whose own value matches. *)
Definition metadataMatch (e : Element) (metadataValue : MetadataValue)
    (value : option string) (mode : MatchMode) : MetadataMatch :=
  {| mm_id := el_id e; mm_name := el_name e; mm_kind := el_kind e;
     mm_title := el_title e; mm_tags := el_tags e;
     mm_metadata := el_metadata e;
     mm_matchedValue := MatchedString (getMatchedValue metadataValue value mode);
     mm_includedInViews := includedInViews (el_views e) |}.

(** The record pushed when the key names an inherited method and the mode is
    [exists]: [getMatchedValue] returns [values[0] || ''], the method
    itself. *)
Definition inheritedMatch (e : Element) : MetadataMatch :=
  {| mm_id := el_id e; mm_name := el_name e; mm_kind := el_kind e;
     mm_title := el_title e; mm_tags := el_tags e;
     mm_metadata := el_metadata e;
     mm_matchedValue := MatchedInherited;
     mm_includedInViews := includedInViews (el_views e) |}.

(** One [for ... of] loop of the handler: it stops pushing once [limit]
    results are held.  [args.key in metadata] holds for an own and for an
    inherited property, and what it yields is never [undefined]. *)
Fixpoint searchMetadata (limit : nat) (key : string) (value : option string)
    (mode : MatchMode) (universe : list Element) (results : list MetadataMatch)
    : Result (list MetadataMatch) :=
  match universe with
  | [] => Ok results
  | e :: rest =>
      if limit <=? length results then Ok results
      else
        match getProperty (el_metadata e) key with
        | Some (Own metadataValue) =>
            if matches metadataValue value mode
            then searchMetadata limit key value mode rest
                   (results ++ [metadataMatch e metadataValue value mode])
            else searchMetadata limit key value mode rest results
        | Some Inherited =>
            let! hit := matches_inherited value mode in
            if hit
            then searchMetadata limit key value mode rest
                   (results ++ [inheritedMatch e])
            else searchMetadata limit key value mode rest results
        | None => searchMetadata limit key value mode rest results
        end
  end.

Definition queryByMetadata (m : LikeC4Model) (args : MetadataArgs)
    : Result (list MetadataMatch) :=
  let matchMode := default Exact (ma_matchMode args) in
  let limit := 50 in
  let! results :=
    searchMetadata limit (ma_key args) (ma_value args) matchMode (elements m) [] in
  let! results :=
    if length results <? limit
    then searchMetadata limit (ma_key args) (ma_value args) matchMode
           (deployment_elements m) results
    else Ok results in
  Ok results.

End QueryByMetadata.

(** The case mapping restricted to the letters of ASCII, with which the
    queries on the sample models below are run. *)
Definition ascii_toLowerCase (c : ascii) : ascii :=
  let n := nat_of_ascii c in
  if (65 <=? n) && (n <=? 90) then ascii_of_nat (n + 32) else c.

Fixpoint toLowerCaseAscii (s : string) : string :=
  match s with
  | EmptyString => EmptyString
  | String c s' => String (ascii_toLowerCase c) (toLowerCaseAscii s')
  end.

(** ** query-by-tags *)

Record TagArgs : Type := {
  ta_allOf : option (list string);
  ta_anyOf : option (list string);
  ta_noneOf : option (list string)
}.

(** [args.x && args.x.length > 0] *)
Definition specified (o : option (list string)) : bool :=
  match o with
  | Some (_ :: _) => true
  | _ => false
  end.

Definition tagList (o : option (list string)) : list string := default [] o.

(** [tags.has(tag)] *)
Definition has (tags : gset string) (tag : string) : bool := bool_decide (tag ∈ tags).

Definition matchesTags (args : TagArgs) (tags : gset string) : bool :=
  if specified (ta_allOf args) && negb (forallb (has tags) (tagList (ta_allOf args)))
  then false
  else if specified (ta_anyOf args) && negb (existsb (has tags) (tagList (ta_anyOf args)))
  then false
  else if specified (ta_noneOf args) &&
          negb (negb (existsb (has tags) (tagList (ta_noneOf args))))
  then false
  else true.

Record TagMatch : Type := {
  tm_id : string;
  tm_name : string;
  tm_kind : string;
  tm_title : string;
  tm_tags : list string;
  tm_metadata : gmap string MetadataValue;
  tm_includedInViews : list IncludedView
}.

Definition tagMatch (e : Element) : TagMatch :=
  {| tm_id := el_id e; tm_name := el_name e; tm_kind := el_kind e;
     tm_title := el_title e; tm_tags := el_tags e; tm_metadata := el_metadata e;
     tm_includedInViews := includedInViews (el_views e) |}.

Fixpoint searchTags (limit : nat) (args : TagArgs) (universe : list Element)
    (results : list TagMatch) : list TagMatch :=
  match universe with
  | [] => results
  | e :: rest =>
      if limit <=? length results then results
      else if matchesTags args (list_to_set (el_tags e))
      then searchTags limit args rest (results ++ [tagMatch e])
      else searchTags limit args rest results
  end.

Definition queryByTags (m : LikeC4Model) (args : TagArgs) : Result (list TagMatch) :=
  let! _ := invariant (specified (ta_allOf args) || specified (ta_anyOf args)
                       || specified (ta_noneOf args)) NoTagCondition in
  let limit := 50 in
  let results := searchTags limit args (elements m) [] in
  let results :=
    if length results <? limit
    then searchTags limit args (deployment_elements m) results
    else results in
  Ok results.

(** ** Loops *)

(** [while (cond) body], cut off after [fuel] iterations; the handlers below
    run it with a fuel that the loop provably never exhausts. *)
Fixpoint while_loop {S : Type} (cond : S -> bool) (body : S -> S) (fuel : nat)
    (s : S) : S :=
  match fuel with
  | 0 => s
  | S fuel' => if cond s then while_loop cond body fuel' (body s) else s
  end.

(** [Array.prototype.sort(compareFn)], which is stable: an element is placed
    before the first later element that does not compare smaller. *)
Fixpoint sortInsert {A : Type} (compareFn : A -> A -> Z) (x : A) (l : list A)
    : list A :=
  match l with
  | [] => [x]
  | y :: l' =>
      if (compareFn x y <=? 0)%Z then x :: l
      else y :: sortInsert compareFn x l'
  end.

Definition sort {A : Type} (compareFn : A -> A -> Z) (l : list A) : list A :=
  foldr (sortInsert compareFn) [] l.

(** ** find-relationship-paths *)

Record RelationshipInfo : Type := {
  ri_kind : option string;
  ri_title : option string;
  ri_description : option string;
  ri_technology : option string;
  ri_tags : list string
}.

Record PathStep : Type := {
  step_source : string;
  step_target : string;
  step_relationship : RelationshipInfo
}.

Definition pathStep (rel : Relationship) : PathStep :=
  {| step_source := rel_source rel;
     step_target := rel_target rel;
     step_relationship :=
       {| ri_kind := rel_kind rel; ri_title := rel_title rel;
          ri_description := rel_description rel;
          ri_technology := rel_technology rel; ri_tags := rel_tags rel |} |}.

Record PathNode : Type := {
  pn_elementId : string;
  pn_path : list PathStep;
  pn_visited : gset string
}.

Record FoundPath : Type := {
  fp_length : nat;
  fp_steps : list PathStep
}.

Record PathArgs : Type := {
  pa_sourceId : string;
  pa_targetId : string;
  pa_maxDepth : option Z
}.

(** The loop state; [ps_shifted] logs the element id of every item taken off
    the queue, oldest first. *)
Record PathState : Type := {
  ps_queue : list PathNode;
  ps_foundPaths : list FoundPath;
  ps_shifted : list string
}.

Definition maxPaths : nat := 100.

(** The body of [for (const rel of currentElement.outgoing())]. *)
Definition exploreRel (targetId : string) (current : PathNode)
    (acc : list PathNode * list FoundPath) (rel : Relationship)
    : list PathNode * list FoundPath :=
  let nextId := rel_target rel in
  if String.eqb nextId targetId then
    (acc.1,
     acc.2 ++ [{| fp_length := length (pn_path current) + 1;
                  fp_steps := pn_path current ++ [pathStep rel] |}])
  else if bool_decide (nextId ∈ pn_visited current) then acc
  else
    (acc.1 ++ [{| pn_elementId := nextId;
                  pn_path := pn_path current ++ [pathStep rel];
                  pn_visited := pn_visited current ∪ {[nextId]} |}],
     acc.2).

Definition pathCond (st : PathState) : bool :=
  (0 <? length (ps_queue st)) && (length (ps_foundPaths st) <? maxPaths).

Definition pathBody (m : LikeC4Model) (targetId : string) (maxDepth : Z)
    (st : PathState) : PathState :=
  match ps_queue st with
  | [] => st
  | current :: queue =>
      let shifted := ps_shifted st ++ [pn_elementId current] in
      if (maxDepth <=? Z.of_nat (length (pn_path current)))%Z then
        {| ps_queue := queue; ps_foundPaths := ps_foundPaths st;
           ps_shifted := shifted |}
      else
        match findElement m (pn_elementId current) with
        | None =>
            {| ps_queue := queue; ps_foundPaths := ps_foundPaths st;
               ps_shifted := shifted |}
        | Some currentElement =>
            let acc := fold_left (exploreRel targetId current)
                         (el_outgoing currentElement) (queue, ps_foundPaths st) in
            {| ps_queue := acc.1; ps_foundPaths := acc.2; ps_shifted := shifted |}
        end
  end.

(** A bound on the number of iterations: an item whose path may still grow by
    [remaining] hops accounts for itself and for at most [degree] successors. *)
Fixpoint branchWeight (degree remaining : nat) : nat :=
  match remaining with
  | 0 => 1
  | S r => 1 + degree * branchWeight degree r
  end.

Definition maxOutDegree (m : LikeC4Model) : nat :=
  list_max (map (fun e => length (el_outgoing e)) (elements m)).

Definition nodeWeight (m : LikeC4Model) (maxDepth : Z) (n : PathNode) : nat :=
  branchWeight (maxOutDegree m) (Z.to_nat (maxDepth - Z.of_nat (length (pn_path n)))).

Definition pathFuel (m : LikeC4Model) (maxDepth : Z) (st : PathState) : nat :=
  list_sum (map (nodeWeight m maxDepth) (ps_queue st)).

Definition pathInit (source : Element) : PathState :=
  {| ps_queue := [{| pn_elementId := el_id source; pn_path := [];
                     pn_visited := {[el_id source]} |}];
     ps_foundPaths := [];
     ps_shifted := [] |}.

Definition pathSearch (m : LikeC4Model) (source target : Element) (maxDepth : Z)
    : PathState :=
  let st := pathInit source in
  while_loop pathCond (pathBody m (el_id target) maxDepth)
    (pathFuel m maxDepth st) st.

Definition compareLength (a b : FoundPath) : Z :=
  (Z.of_nat (fp_length a) - Z.of_nat (fp_length b))%Z.

(** [inputSchema]: only [maxDepth] is constrained. *)
Definition findRelationshipPaths_inputSchema (args : PathArgs) : Result PathArgs :=
  let! maxDepth := zIntRange "maxDepth" 1%Z 5%Z 3%Z (pa_maxDepth args) in
  Ok {| pa_sourceId := pa_sourceId args; pa_targetId := pa_targetId args;
        pa_maxDepth := Some maxDepth |}.

(** The checks at the head of the handler, in source order. *)
Definition findRelationshipPaths_validate (m : LikeC4Model) (args : PathArgs)
    : Result (Element * Element) :=
  let! source := invariant_some (findElement m (pa_sourceId args))
                   (SourceNotFound (pa_sourceId args)) in
  let! target := invariant_some (findElement m (pa_targetId args))
                   (TargetNotFound (pa_targetId args)) in
  let! _ := invariant (negb (String.eqb (el_id source) (el_id target))) SameElement in
  let! _ := invariant (negb (isAncestorOf m source target) &&
                       negb (isAncestorOf m target source)) ParentChild in
  Ok (source, target).

(** The loop as a logged step: every [queue.shift()] adds the element id of
    the item it takes to the log. *)
Definition pathSearch_logged (m : LikeC4Model) (source target : Element)
    (maxDepth : Z) : Traced string PathState :=
  fun log =>
    let st := pathSearch m source target maxDepth in
    (log ++ ps_shifted st, Ok st).

(** The handler, statement by statement, with the log of dequeued element
    ids. *)
Definition findRelationshipPaths_handler (m : LikeC4Model) (args : PathArgs)
    : Traced string (list FoundPath) :=
  let* source := quiet (invariant_some (findElement m (pa_sourceId args))
                          (SourceNotFound (pa_sourceId args))) in
  let* target := quiet (invariant_some (findElement m (pa_targetId args))
                          (TargetNotFound (pa_targetId args))) in
  let* _ := quiet (invariant (negb (String.eqb (el_id source) (el_id target)))
                     SameElement) in
  let* _ := quiet (invariant (negb (isAncestorOf m source target) &&
                              negb (isAncestorOf m target source)) ParentChild) in
  let maxDepth := Z.min (default 3%Z (pa_maxDepth args)) 5%Z in
  let* st := pathSearch_logged m source target maxDepth in
  quiet (Ok (sort compareLength (ps_foundPaths st))).

(** The handler up to the end of the loop, without the log: the final loop
    state. *)
Definition findRelationshipPaths_search (m : LikeC4Model) (args : PathArgs)
    : Result PathState :=
  let! source_target := findRelationshipPaths_validate m args in
  let maxDepth := Z.min (default 3%Z (pa_maxDepth args)) 5%Z in
  Ok (pathSearch m source_target.1 source_target.2 maxDepth).

(** A tool call: the arguments are parsed against [inputSchema] first, and
    the handler runs on the parsed arguments only.  The log starts empty. *)
Definition findRelationshipPaths_traced (m : LikeC4Model) (args : PathArgs)
    : list string * Result (list FoundPath) :=
  (let* args' := quiet (findRelationshipPaths_inputSchema args) in
   findRelationshipPaths_handler m args') [].

Definition findRelationshipPaths (m : LikeC4Model) (args : PathArgs)
    : Result (list FoundPath) :=
  (findRelationshipPaths_traced m args).2.

(** ** query-incomers-graph *)

Record IncomersArgs : Type := {
  ia_elementId : string;
  ia_includeIndirect : option bool;
  ia_maxDepth : option Z;
  ia_maxNodes : option Z
}.

(** The arguments as the handler receives them, defaults filled in. *)
Record IncomersInput : Type := {
  ii_elementId : string;
  ii_includeIndirect : bool;
  ii_maxDepth : Z;
  ii_maxNodes : Z
}.

Definition queryIncomersGraph_inputSchema (args : IncomersArgs)
    : Result IncomersInput :=
  let! maxDepth := zIntRange "maxDepth" 1%Z 100%Z 50%Z (ia_maxDepth args) in
  let! maxNodes := zIntRange "maxNodes" 1%Z 5000%Z 1000%Z (ia_maxNodes args) in
  Ok {| ii_elementId := ia_elementId args;
        ii_includeIndirect := default true (ia_includeIndirect args);
        ii_maxDepth := maxDepth;
        ii_maxNodes := maxNodes |}.

Record IncomerData : Type := {
  inc_elementId : string;
  inc_relationshipLabel : option string;
  inc_technology : option string
}.

(** [if (x) data.field = x] for an optional string [x] *)
Definition whenTruthy (x : option string) : option string :=
  match x with
  | Some s => if truthy s then Some s else None
  | None => None
  end.

Definition incomerData (rel : Relationship) : IncomerData :=
  {| inc_elementId := rel_source rel;
     inc_relationshipLabel := whenTruthy (rel_title rel);
     inc_technology := whenTruthy (rel_technology rel) |}.

Record GraphNode : Type := {
  gn_id : string;
  gn_name : string;
  gn_kind : string;
  gn_title : string;
  gn_tags : list string;
  gn_metadata : gmap string MetadataValue;
  gn_includedInViews : list IncludedView;
  gn_incomers : list IncomerData;
  gn_depth : nat
}.

Definition graphNode (element : Element) (incomersData : list IncomerData)
    (depth : nat) : GraphNode :=
  {| gn_id := el_id element; gn_name := el_name element;
     gn_kind := el_kind element; gn_title := el_title element;
     gn_tags := el_tags element; gn_metadata := el_metadata element;
     gn_includedInViews := includedInViews (el_views element);
     gn_incomers := incomersData; gn_depth := depth |}.

Record QueueItem : Type := {
  qi_elementId : string;
  qi_depth : nat
}.

(** [object[key] = value] on an object created by the literal [{}], whose
    own properties are the entries of the map.  The key [__proto__] names the
    accessor inherited from [Object.prototype]: assigning an object to it
    replaces the prototype and creates no own property. *)
Definition objectSet {A : Type} (key : string) (value : A)
    (object : gmap string A) : gmap string A :=
  if String.eqb key "__proto__" then object else <[key := value]> object.

(** The loop state: [visited] is a [Set], [nodes] a plain object;
    [gs_shifted] logs every item taken off the queue, oldest first. *)
Record GraphState : Type := {
  gs_queue : list QueueItem;
  gs_visited : gset string;
  gs_nodes : gmap string GraphNode;
  gs_actualMaxDepth : nat;
  gs_truncated : bool;
  gs_shifted : list QueueItem
}.

(** [for (const incomerData of incomersData) if (!visited.has(...)) queue.push(...)] *)
Definition enqueueIncomers (visited : gset string) (depth : nat)
    (queue : list QueueItem) (incomersData : list IncomerData) : list QueueItem :=
  fold_left
    (fun q d =>
       if bool_decide (inc_elementId d ∈ visited) then q
       else q ++ [{| qi_elementId := inc_elementId d; qi_depth := depth + 1 |}])
    incomersData queue.

(** The loop runs while the queue is not empty and no [break] was taken;
    [truncated] is set exactly when the loop breaks. *)
Definition graphCond (st : GraphState) : bool :=
  (0 <? length (gs_queue st)) && negb (gs_truncated st).

Definition graphBody (m : LikeC4Model) (filter : RelationFilter)
    (maxDepth maxNodes : Z) (st : GraphState) : GraphState :=
  match gs_queue st with
  | [] => st
  | item :: queue =>
      let elementId := qi_elementId item in
      let depth := qi_depth item in
      let shifted := gs_shifted st ++ [item] in
      let skip :=
        {| gs_queue := queue; gs_visited := gs_visited st;
           gs_nodes := gs_nodes st; gs_actualMaxDepth := gs_actualMaxDepth st;
           gs_truncated := gs_truncated st; gs_shifted := shifted |} in
      if (maxDepth <? Z.of_nat depth)%Z then skip
      else if bool_decide (elementId ∈ gs_visited st) then skip
      else if (maxNodes <=? Z.of_nat (size (gs_visited st)))%Z then
        {| gs_queue := queue; gs_visited := gs_visited st;
           gs_nodes := gs_nodes st; gs_actualMaxDepth := gs_actualMaxDepth st;
           gs_truncated := true; gs_shifted := shifted |}
      else
        match findElement m elementId with
        | None => skip
        | Some element =>
            let visited := gs_visited st ∪ {[elementId]} in
            let incomingRelations := el_incoming element filter in
            let incomersData := map incomerData incomingRelations in
            {| gs_queue := enqueueIncomers visited depth queue incomersData;
               gs_visited := visited;
               gs_nodes := objectSet elementId
                             (graphNode element incomersData depth) (gs_nodes st);
               gs_actualMaxDepth := Nat.max (gs_actualMaxDepth st) depth;
               gs_truncated := gs_truncated st;
               gs_shifted := shifted |}
        end
  end.

Definition maxInDegree (m : LikeC4Model) (filter : RelationFilter) : nat :=
  list_max (map (fun e => length (el_incoming e filter)) (elements m)).

(** A bound on the number of remaining iterations: every visit uses up one of
    the [maxNodes] slots and enqueues at most [maxInDegree] items. *)
Definition graphFuel (m : LikeC4Model) (filter : RelationFilter) (maxNodes : Z)
    (st : GraphState) : nat :=
  if gs_truncated st then 0
  else (Z.to_nat maxNodes - size (gs_visited st)) * S (maxInDegree m filter)
       + length (gs_queue st).

Definition graphInit (elementId : string) : GraphState :=
  {| gs_queue := [{| qi_elementId := elementId; qi_depth := 0 |}];
     gs_visited := ∅;
     gs_nodes := ∅;
     gs_actualMaxDepth := 0;
     gs_truncated := false;
     gs_shifted := [] |}.

Definition graphSearch (m : LikeC4Model) (filter : RelationFilter)
    (maxDepth maxNodes : Z) (elementId : string) : GraphState :=
  let st := graphInit elementId in
  while_loop graphCond (graphBody m filter maxDepth maxNodes)
    (graphFuel m filter maxNodes st) st.

Record IncomersGraph : Type := {
  ig_target : string;
  ig_totalNodes : nat;
  ig_maxDepth : nat;
  ig_truncated : bool;
  ig_nodes : gmap string GraphNode
}.

Definition filterOf (includeIndirect : bool) : RelationFilter :=
  if includeIndirect then FilterAll else FilterDirect.

(** The loop as a logged step: every [queue.shift()] adds the item it takes
    to the log. *)
Definition graphSearch_logged (m : LikeC4Model) (filter : RelationFilter)
    (maxDepth maxNodes : Z) (elementId : string) : Traced QueueItem GraphState :=
  fun log =>
    let st := graphSearch m filter maxDepth maxNodes elementId in
    (log ++ gs_shifted st, Ok st).

(** The handler, statement by statement, with the log of dequeued items. *)
Definition queryIncomersGraph_handler (m : LikeC4Model) (args : IncomersInput)
    : Traced QueueItem IncomersGraph :=
  let* targetElement := quiet (invariant_some (findElement m (ii_elementId args))
                                 (ElementNotFound (ii_elementId args))) in
  let filter := filterOf (ii_includeIndirect args) in
  let maxDepth := Z.min (ii_maxDepth args) 100%Z in
  let maxNodes := Z.min (ii_maxNodes args) 5000%Z in
  let* st := graphSearch_logged m filter maxDepth maxNodes (ii_elementId args) in
  quiet (Ok {| ig_target := ii_elementId args;
               ig_totalNodes := size (gs_visited st);
               ig_maxDepth := gs_actualMaxDepth st;
               ig_truncated := gs_truncated st;
               ig_nodes := gs_nodes st |}).

(** The handler up to the end of the loop, without the log: the final loop
    state. *)
Definition queryIncomersGraph_search (m : LikeC4Model) (args : IncomersInput)
    : Result GraphState :=
  let! targetElement := invariant_some (findElement m (ii_elementId args))
                          (ElementNotFound (ii_elementId args)) in
  let filter := filterOf (ii_includeIndirect args) in
  let maxDepth := Z.min (ii_maxDepth args) 100%Z in
  let maxNodes := Z.min (ii_maxNodes args) 5000%Z in
  Ok (graphSearch m filter maxDepth maxNodes (ii_elementId args)).

(** A tool call: the arguments are parsed against [inputSchema] first, and
    the handler runs on the parsed arguments only.  The log starts empty. *)
Definition queryIncomersGraph_traced (m : LikeC4Model) (args : IncomersArgs)
    : list QueueItem * Result IncomersGraph :=
  (let* args' := quiet (queryIncomersGraph_inputSchema args) in
   queryIncomersGraph_handler m args') [].

Definition queryIncomersGraph (m : LikeC4Model) (args : IncomersArgs)
    : Result IncomersGraph :=
  (queryIncomersGraph_traced m args).2.

(** ** query-graph *)

Inductive QueryType : Type :=
| Ancestors | Descendants | Siblings | Children | Parent | Incomers | Outgoers.

(** The hierarchy and neighbour accessors of an element, which belong to the
    model library and are parameters here. *)
Record Navigation : Type := {
  ancestors : Element -> list Element;
  descendants : Element -> list Element;
  siblings : Element -> list Element;
  children : Element -> list Element;
  parent : Element -> option Element;
  incomers : Element -> RelationFilter -> list Element;
  outgoers : Element -> RelationFilter -> list Element
}.

Record GraphArgs : Type := {
  ga_elementId : string;
  ga_queryType : QueryType;
  ga_includeIndirect : option bool
}.

Record RelativeInfo : Type := {
  rv_id : string;
  rv_name : string;
  rv_kind : string;
  rv_title : string;
  rv_tags : list string;
  rv_metadata : gmap string MetadataValue;
  rv_includedInViews : list IncludedView
}.

Definition relativeInfo (e : Element) : RelativeInfo :=
  {| rv_id := el_id e; rv_name := el_name e; rv_kind := el_kind e;
     rv_title := el_title e; rv_tags := el_tags e;
     rv_metadata := el_metadata e;
     rv_includedInViews := includedInViews (el_views e) |}.

Definition queryGraph (nav : Navigation) (m : LikeC4Model) (args : GraphArgs)
    : Result (list RelativeInfo) :=
  let! element := invariant_some (findElement m (ga_elementId args))
                    (ElementNotFound (ga_elementId args)) in
  let includeIndirect := default true (ga_includeIndirect args) in
  Ok match ga_queryType args with
     | Ancestors => map relativeInfo (ancestors nav element)
     | Descendants => map relativeInfo (descendants nav element)
     | Siblings => map relativeInfo (siblings nav element)
     | Children => map relativeInfo (children nav element)
     | Parent =>
         match parent nav element with
         | Some p => [relativeInfo p]
         | None => []
         end
     | Incomers => map relativeInfo (incomers nav element (filterOf includeIndirect))
     | Outgoers => map relativeInfo (outgoers nav element (filterOf includeIndirect))
     end.

(** ** Sample models *)

Definition rel (source target : string) : Relationship :=
  {| rel_source := source; rel_target := target; rel_kind := None;
     rel_title := None; rel_description := None; rel_technology := None;
     rel_tags := [] |}.

(** An element of a flat model (no hierarchy): it carries the relationships
    of [rels] that leave it and those that reach it. *)
Definition plainElement (rels : list Relationship) (id : string) : Element :=
  {| el_id := id; el_name := id; el_kind := "component"; el_title := id;
     el_tags := []; el_metadata := ∅; el_views := [];
     el_outgoing := filter (fun r => String.eqb (rel_source r) id) rels;
     el_incoming := fun _ => filter (fun r => String.eqb (rel_target r) id) rels |}.

Definition plainModel (ids : list string) (rels : list Relationship) : LikeC4Model :=
  {| elements := map (plainElement rels) ids;
     deployment_elements := [];
     isAncestorOf := fun _ _ => false |}.

Definition chainABC : LikeC4Model :=
  plainModel ["A"; "B"; "C"] [rel "A" "B"; rel "B" "C"].

(** The scenario of the tool description: a list-valued [owner]. *)
Definition ownedElement (id : string) (owner : MetadataValue) : Element :=
  {| el_id := id; el_name := id; el_kind := "component"; el_title := id;
     el_tags := ["public"; "api"]; el_metadata := {[ "owner" := owner ]};
     el_views := []; el_outgoing := []; el_incoming := fun _ => [] |}.

Definition ownedModel (owner : MetadataValue) : LikeC4Model :=
  {| elements := [ownedElement "shop.frontend" owner];
     deployment_elements := [ownedElement "prod.eu" owner];
     isAncestorOf := fun _ _ => false |}.

(** A model with a hierarchy: [S] contains [S.x], so [outgoing()] of [S]
    yields the relationships that leave [S.x]. *)
Definition nestedModel : LikeC4Model :=
  let element id outgoing :=
    {| el_id := id; el_name := id; el_kind := "component"; el_title := id;
       el_tags := []; el_metadata := ∅; el_views := [];
       el_outgoing := outgoing; el_incoming := fun _ => [] |} in
  {| elements :=
       [element "S" [rel "S.x" "M"; rel "S.x" "T"];
        element "S.x" [rel "S.x" "M"; rel "S.x" "T"];
        element "M" [rel "M" "S.x"];
        element "T" []];
     deployment_elements := [];
     isAncestorOf := fun a b =>
       String.eqb (el_id a) "S" && String.eqb (el_id b) "S.x" |}.

(** A model with an element whose identifier is [__proto__]. *)
Definition protoModel : LikeC4Model :=
  plainModel ["T"; "__proto__"] [rel "__proto__" "T"].

(** A source with 101 relationships to the target. *)
Definition star101 : LikeC4Model :=
  plainModel ["S"; "T"] (repeat (rel "S" "T") 101).

(** ** Specification vocabulary *)

(** [sub] occurs in [s]. *)
Definition isSubstring (sub s : string) : Prop :=
  exists pre post, s = pre +:+ sub +:+ post.

(** The nearest value of the interval [lo, hi]. *)
Definition clamp (lo hi v : Z) : Z := Z.max lo (Z.min v hi).

(** The entities along a path: the source, then the target of every step. *)
Definition pathNodes (sourceId : string) (steps : list PathStep) : list string :=
  sourceId :: map step_target steps.

(** The entities that the steps of a path name: the source of the first
    step, then the target of every step. *)
Definition stepNodes (steps : list PathStep) : list string :=
  match steps with
  | [] => []
  | step :: _ => step_source step :: map step_target steps
  end.

(** A queue item of the path search carries a cycle-free path that has not
    reached the target, and its visited set holds exactly the entities of
    that path. *)
Definition nodeOk (sourceId targetId : string) (n : PathNode) : Prop :=
  NoDup (pathNodes sourceId (pn_path n)) /\
  (forall x, x ∈ pn_visited n <-> x ∈ pathNodes sourceId (pn_path n)) /\
  targetId ∉ pn_visited n.

Definition foundOk (sourceId targetId : string) (maxDepth : Z) (p : FoundPath) : Prop :=
  length (fp_steps p) = fp_length p /\
  (Z.of_nat (fp_length p) <= maxDepth)%Z /\
  NoDup (pathNodes sourceId (fp_steps p)) /\
  last (map step_target (fp_steps p)) = Some targetId.

Definition pathInv (sourceId targetId : string) (maxDepth : Z) (st : PathState) : Prop :=
  Forall (nodeOk sourceId targetId) (ps_queue st) /\
  Forall (foundOk sourceId targetId maxDepth) (ps_foundPaths st).

(** [y] is the source of a relationship that [incoming(filter)] yields for
    the element [x]: one hop of the incomers traversal. *)
Definition incomerOf (m : LikeC4Model) (filter : RelationFilter) (x y : string) : Prop :=
  exists e r, findElement m x = Some e /\ r ∈ el_incoming e filter /\ rel_source r = y.

(** [hops m filter start n x]: [x] is reached from [start] by [n] hops. *)
Inductive hops (m : LikeC4Model) (filter : RelationFilter) (start : string)
  : nat -> string -> Prop :=
| hops_start : hops m filter start 0 start
| hops_step n x y :
    hops m filter start n x -> incomerOf m filter x y ->
    hops m filter start (S n) y.

(** [x] is an entity of the closure of [start] bounded by [maxDepth]. *)
Definition reachableWithin (m : LikeC4Model) (filter : RelationFilter)
    (start : string) (maxDepth : Z) (x : string) : Prop :=
  exists n, (Z.of_nat n <= maxDepth)%Z /\ hops m filter start n x /\
            is_Some (findElement m x).

(** The queue of the closure traversal holds items of one depth followed by
    items of the next depth. *)
Definition levelled (queue : list QueueItem) : Prop :=
  exists d q1 q2, queue = q1 ++ q2 /\
    Forall (fun i => qi_depth i = d) q1 /\ Forall (fun i => qi_depth i = S d) q2.

(** [d] is the shortest hop count from [start] to [x]. *)
Definition shortest (m : LikeC4Model) (filter : RelationFilter) (start : string)
    (x : string) (d : nat) : Prop :=
  hops m filter start d x /\ forall n, hops m filter start n x -> d <= n.

(** The loop invariant of the closure traversal.  The entries of [nodes] are
    the visited identifiers other than [__proto__]; every visited identifier
    was dequeued at its shortest hop count, which is the depth of its node
    when it has one. *)
Record graphInv (m : LikeC4Model) (filter : RelationFilter) (maxDepth maxNodes : Z)
    (start : string) (st : GraphState) : Prop := {
  inv_nodes : forall x node, gs_nodes st !! x = Some node ->
    x ∈ gs_visited st /\ x <> "__proto__" /\
    shortest m filter start x (gn_depth node);
  inv_dom : forall x, x ∈ gs_visited st -> x <> "__proto__" ->
    is_Some (gs_nodes st !! x);
  inv_visited : forall x, x ∈ gs_visited st ->
    is_Some (findElement m x) /\ exists d, shortest m filter start x d;
  inv_size : (Z.of_nat (size (gs_visited st)) <= maxNodes)%Z;
  inv_queue : forall item, item ∈ gs_queue st ->
    hops m filter start (qi_depth item) (qi_elementId item);
  inv_levels : levelled (gs_queue st);
  inv_frontier : gs_truncated st = false ->
    forall x d y, x ∈ gs_visited st -> shortest m filter start x d ->
      incomerOf m filter x y ->
      y ∉ gs_visited st -> (Z.of_nat (S d) <= maxDepth)%Z ->
      is_Some (findElement m y) ->
      {| qi_elementId := y; qi_depth := S d |} ∈ gs_queue st;
  inv_start : start ∈ gs_visited st \/
    (gs_visited st = ∅ /\ gs_queue st = [{| qi_elementId := start; qi_depth := 0 |}]);
  inv_truncated : gs_truncated st = true ->
    (maxNodes <= Z.of_nat (size (gs_visited st)))%Z /\
    exists item, last (gs_shifted st) = Some item /\ qi_elementId item ∉ gs_visited st
}.

(** Fifty elements that all carry the [owner] key, then one deployment node. *)
Definition crowdedModel : LikeC4Model :=
  {| elements :=
       map (fun i => ownedElement (String (ascii_of_nat (48 + i)) "")
                       (MetaString "platform-team")) (seq 0 50);
     deployment_elements := [ownedElement "prod.eu" (MetaString "platform-team")];
     isAncestorOf := fun _ _ => false |}.

(** A navigation without hierarchy: every element is a root without
    relatives. *)
Definition flatNavigation : Navigation :=
  {| ancestors := fun _ => []; descendants := fun _ => []; siblings := fun _ => [];
     children := fun _ => []; parent := fun _ => None;
     incomers := fun _ _ => []; outgoers := fun _ _ => [] |}.

(** ** Vocabulary for the further properties *)

(** The test that a list element must pass in [exact] and [contains] mode. *)
Definition valueTest (toLowerCase : string -> string) (mode : MatchMode)
    (sv : string) (v : string) : bool :=
  match mode with
  | Exact => String.eqb v sv
  | _ => includes (toLowerCase v) (toLowerCase sv)
  end.


(** What one entity contributes to a metadata query that returns: the record
    of its own value when that matches, the record of the inherited method
    when the key names one and the mode is [exists]. *)
Definition metadataHit (toLowerCase : string -> string) (key : string)
    (value : option string) (mode : MatchMode) (e : Element)
    : option MetadataMatch :=
  match getProperty (el_metadata e) key with
  | Some (Own metadataValue) =>
      if matches toLowerCase metadataValue value mode
      then Some (metadataMatch toLowerCase e metadataValue value mode)
      else None
  | Some Inherited =>
      match mode with
      | Exists => Some (inheritedMatch e)
      | _ => None
      end
  | None => None
  end.

(** The two universes in the order the queries scan them. *)
Definition universe (m : LikeC4Model) : list Element :=
  elements m ++ deployment_elements m.

(** The tag set of an entity, as the tag query builds it. *)
Definition tagsOf (e : Element) : gset string := list_to_set (el_tags e).

(** [walk m x rels]: [rels] is a chain of relationships that starts at the
    entity [x]; each one is yielded by [outgoing()] of the element that the
    chain has reached, and leads to its literal target. *)
Fixpoint walk (m : LikeC4Model) (x : string) (rels : list Relationship) : Prop :=
  match rels with
  | [] => True
  | r :: rest =>
      (exists e, findElement m x = Some e /\ r ∈ el_outgoing e) /\
      walk m (rel_target r) rest
  end.

(** The entity a chain leads to. *)
Definition endOf (x : string) (rels : list Relationship) : string :=
  default x (last (map rel_target rels)).

(** A chain from the source that ends at the target and visits no entity
    twice. *)
Definition simplePath (m : LikeC4Model) (sourceId targetId : string)
    (rels : list Relationship) : Prop :=
  walk m sourceId rels /\
  NoDup (sourceId :: map rel_target rels) /\
  last (map rel_target rels) = Some targetId.

(** The result record of a chain. *)
Definition foundPath (rels : list Relationship) : FoundPath :=
  {| fp_length := length rels; fp_steps := map pathStep rels |}.

(** A queue item of the path search is backed by a chain of relationships
    from the source that leads to the item's element; a found path is the
    record of such a chain. *)
Definition nodeBacked (m : LikeC4Model) (sourceId : string) (n : PathNode) : Prop :=
  exists rels, pn_path n = map pathStep rels /\ walk m sourceId rels /\
               pn_elementId n = endOf sourceId rels.

Definition foundBacked (m : LikeC4Model) (sourceId : string) (p : FoundPath) : Prop :=
  exists rels, p = foundPath rels /\ walk m sourceId rels.

(** A chain is pending when it is already found or the queue holds an item
    for a proper initial part of it. *)
Definition pending (sourceId : string) (st : PathState) (rels : list Relationship)
    : Prop :=
  foundPath rels ∈ ps_foundPaths st \/
  exists before r rest item,
    rels = before ++ r :: rest /\ item ∈ ps_queue st /\
    pn_path item = map pathStep before /\ pn_elementId item = endOf sourceId before.

(** The invariant of the path search behind the further properties. *)
Record pathTrack (m : LikeC4Model) (sourceId targetId : string) (maxDepth : Z)
    (st : PathState) : Prop := {
  track_nodes : Forall (nodeBacked m sourceId) (ps_queue st);
  track_found : Forall (foundBacked m sourceId) (ps_foundPaths st);
  track_pending : forall rels,
    simplePath m sourceId targetId rels ->
    (Z.of_nat (length rels) <= maxDepth)%Z ->
    pending sourceId st rels;
  track_count : length (ps_foundPaths st) <= 99 + maxOutDegree m
}.

(** The queue of the path search holds items whose paths have one length
    followed by items whose paths are one step longer, and the found paths
    are in ascending order of length, none longer than the longer items. *)
Definition pathLevels (st : PathState) : Prop :=
  exists d q1 q2,
    ps_queue st = q1 ++ q2 /\
    Forall (fun n => length (pn_path n) = d) q1 /\
    Forall (fun n => length (pn_path n) = S d) q2 /\
    StronglySorted (fun a b => fp_length a <= fp_length b) (ps_foundPaths st) /\
    Forall (fun p => fp_length p <= S d) (ps_foundPaths st).

(** What the closure traversal records, beyond [graphInv]: every node is the
    projection of the element of its key together with that element's
    incoming relationships, at a depth within the bound; [actualMaxDepth]
    stays within the bound, bounds the recorded depths and, in a model
    without an element [__proto__], is attained unless it is still 0; and a
    truncated traversal was stopped by an item within the depth bound that
    is reached from the start. *)
Record graphTrack (m : LikeC4Model) (filter : RelationFilter) (maxDepth : Z)
    (start : string) (st : GraphState) : Prop := {
  gt_node : forall x node, gs_nodes st !! x = Some node ->
    exists e, findElement m x = Some e /\
      node = graphNode e (map incomerData (el_incoming e filter)) (gn_depth node) /\
      (Z.of_nat (gn_depth node) <= maxDepth)%Z;
  gt_max : forall x node, gs_nodes st !! x = Some node ->
    gn_depth node <= gs_actualMaxDepth st;
  gt_bound : (Z.of_nat (gs_actualMaxDepth st) <= maxDepth)%Z;
  gt_reached : findElement m "__proto__" = None ->
    gs_actualMaxDepth st = 0 \/
    exists x node, gs_nodes st !! x = Some node /\ gn_depth node = gs_actualMaxDepth st;
  gt_trigger : gs_truncated st = true ->
    exists item, last (gs_shifted st) = Some item /\
      (Z.of_nat (qi_depth item) <= maxDepth)%Z /\
      hops m filter start (qi_depth item) (qi_elementId item)
}.

(** * Properties *)

(** ** Loops *)

Section WhileLoop.
Context {S : Type} (cond : S -> bool) (body : S -> S).

Lemma while_loop_invariant (Inv : S -> Prop) :
  (forall s, Inv s -> cond s = true -> Inv (body s)) ->
  forall fuel s, Inv s -> Inv (while_loop cond body fuel s).
Proof.
  intros Hstep fuel. induction fuel as [|fuel IH]; intros s Hs; simpl; [done|].
  destruct (cond s) eqn:Hc; [|done]. apply IH. by apply Hstep.
Qed.

(** With a measure that every iteration decreases, a fuel of at least the
    measure is never exhausted: the loop ends because its condition fails. *)
Lemma while_loop_exit (Inv : S -> Prop) (measure : S -> nat) :
  (forall s, Inv s -> cond s = true -> Inv (body s)) ->
  (forall s, Inv s -> cond s = true -> measure (body s) < measure s) ->
  forall fuel s, Inv s -> measure s <= fuel ->
    cond (while_loop cond body fuel s) = false.
Proof.
  intros Hstep Hdec fuel. induction fuel as [|fuel IH]; intros s Hs Hm; simpl.
  - destruct (cond s) eqn:Hc; [|done].
    specialize (Hdec s Hs Hc). lia.
  - destruct (cond s) eqn:Hc; [|done].
    apply IH; [by apply Hstep|]. specialize (Hdec s Hs Hc). lia.
Qed.
End WhileLoop.

(** ** Sorting by a numeric key *)

Section SortByKey.
Context {A : Type} (key : A -> nat) (compareKey : A -> A -> Z).
Hypothesis compareKey_eq :
  forall a b, compareKey a b = (Z.of_nat (key a) - Z.of_nat (key b))%Z.

Lemma sortInsert_keys x l n :
  filter (fun y => key y = n) (sortInsert compareKey x l)
  = filter (fun y => key y = n) (x :: l).
Proof.
  induction l as [|y l IH]; simpl; [done|].
  destruct (compareKey x y <=? 0)%Z eqn:Hc; [done|].
  apply Z.leb_gt in Hc. rewrite compareKey_eq in Hc.
  rewrite (filter_cons _ y), IH, !filter_cons.
  repeat case_decide; try done; lia.
Qed.

Lemma sort_keys l n :
  filter (fun y => key y = n) (sort compareKey l) = filter (fun y => key y = n) l.
Proof.
  induction l as [|x l IH]; [done|].
  change (sort compareKey (x :: l)) with (sortInsert compareKey x (sort compareKey l)).
  rewrite sortInsert_keys.
  by rewrite !filter_cons, IH.
Qed.

Lemma sortInsert_elem x l y : y ∈ sortInsert compareKey x l <-> y = x \/ y ∈ l.
Proof.
  induction l as [|z l IH]; simpl; [by rewrite elem_of_cons|].
  destruct (compareKey x z <=? 0)%Z; [by rewrite elem_of_cons|].
  rewrite !elem_of_cons, IH. tauto.
Qed.

Lemma sort_elem l y : y ∈ sort compareKey l <-> y ∈ l.
Proof.
  induction l as [|x l IH]; [done|].
  change (sort compareKey (x :: l)) with (sortInsert compareKey x (sort compareKey l)).
  rewrite sortInsert_elem, elem_of_cons, IH. done.
Qed.

Lemma sortInsert_sorted x l :
  StronglySorted (fun a b => key a <= key b) l ->
  StronglySorted (fun a b => key a <= key b) (sortInsert compareKey x l).
Proof.
  induction 1 as [|y l Hl IH Hy]; simpl; [repeat constructor|].
  destruct (compareKey x y <=? 0)%Z eqn:Hc.
  - apply Z.leb_le in Hc. rewrite compareKey_eq in Hc.
    constructor; [by constructor|].
    constructor; [lia|]. eapply Forall_impl; [exact Hy|]. simpl; intros; lia.
  - apply Z.leb_gt in Hc. rewrite compareKey_eq in Hc.
    constructor; [done|]. apply Forall_forall. intros z Hz.
    apply sortInsert_elem in Hz as [->|Hz]; [lia|].
    by eapply Forall_forall in Hy.
Qed.

Lemma sort_sorted l : StronglySorted (fun a b => key a <= key b) (sort compareKey l).
Proof.
  induction l as [|x l IH]; [constructor|].
  change (sort compareKey (x :: l)) with (sortInsert compareKey x (sort compareKey l)).
  by apply sortInsert_sorted.
Qed.
End SortByKey.

(** ** Handlers and their logs *)

(** The log a handler leaves, read off its final loop state: a failing check
    leaves the log empty because the loop comes after it. *)
Lemma findRelationshipPaths_handler_log (m : LikeC4Model) (args : PathArgs) :
  findRelationshipPaths_handler m args [] =
  match findRelationshipPaths_search m args with
  | Err e => ([], Err e)
  | Ok st => (ps_shifted st, Ok (sort compareLength (ps_foundPaths st)))
  end.
Proof.
  unfold findRelationshipPaths_handler, findRelationshipPaths_search,
    findRelationshipPaths_validate, andThen, quiet, pathSearch_logged.
  destruct (findElement m (pa_sourceId args)) as [source|]; [|done].
  destruct (findElement m (pa_targetId args)) as [target|]; [|done]. simpl.
  destruct (negb (String.eqb (el_id source) (el_id target))); [|done]. simpl.
  by destruct (negb (isAncestorOf m source target) &&
               negb (isAncestorOf m target source)).
Qed.

Lemma findRelationshipPaths_traced_log (m : LikeC4Model) (args : PathArgs) :
  findRelationshipPaths_traced m args =
  match findRelationshipPaths_inputSchema args with
  | Err e => ([], Err e)
  | Ok args' => findRelationshipPaths_handler m args' []
  end.
Proof.
  unfold findRelationshipPaths_traced, andThen, quiet.
  by destruct (findRelationshipPaths_inputSchema args).
Qed.

Lemma queryIncomersGraph_handler_log (m : LikeC4Model) (args : IncomersInput) :
  queryIncomersGraph_handler m args [] =
  match queryIncomersGraph_search m args with
  | Err e => ([], Err e)
  | Ok st =>
      (gs_shifted st,
       Ok {| ig_target := ii_elementId args;
             ig_totalNodes := size (gs_visited st);
             ig_maxDepth := gs_actualMaxDepth st;
             ig_truncated := gs_truncated st;
             ig_nodes := gs_nodes st |})
  end.
Proof.
  unfold queryIncomersGraph_handler, queryIncomersGraph_search, andThen, quiet,
    graphSearch_logged.
  by destruct (findElement m (ii_elementId args)).
Qed.

Lemma queryIncomersGraph_traced_log (m : LikeC4Model) (args : IncomersArgs) :
  queryIncomersGraph_traced m args =
  match queryIncomersGraph_inputSchema args with
  | Err e => ([], Err e)
  | Ok args' => queryIncomersGraph_handler m args' []
  end.
Proof.
  unfold queryIncomersGraph_traced, andThen, quiet.
  by destruct (queryIncomersGraph_inputSchema args).
Qed.

(** ** Input validation *)

Lemma zIntRange_inside field lo hi d v :
  (lo <= v <= hi)%Z -> zIntRange field lo hi d (Some v) = Ok v.
Proof.
  intros [Hlo Hhi]. unfold zIntRange.
  apply Z.leb_le in Hlo, Hhi. by rewrite Hlo, Hhi.
Qed.

Lemma zIntRange_outside field lo hi d v :
  (v < lo \/ hi < v)%Z -> zIntRange field lo hi d (Some v) = Err (SchemaRejected field).
Proof.
  intros Hout. unfold zIntRange.
  destruct (lo <=? v)%Z eqn:Hlo, (v <=? hi)%Z eqn:Hhi; simpl; try done.
  apply Z.leb_le in Hlo, Hhi. lia.
Qed.

Lemma zIntRange_Ok field lo hi d v n :
  zIntRange field lo hi d v = Ok n ->
  (v = None /\ n = d) \/ (v = Some n /\ (lo <= n <= hi)%Z).
Proof.
  unfold zIntRange. destruct v as [k|]; [|intros [= <-]; by left].
  destruct (lo <=? k)%Z eqn:Hlo, (k <=? hi)%Z eqn:Hhi; simpl; intros [= <-].
  apply Z.leb_le in Hlo, Hhi. by right.
Qed.

Lemma zIntRange_Err field lo hi d v e :
  zIntRange field lo hi d v = Err e -> e = SchemaRejected field.
Proof.
  unfold zIntRange. destruct v as [k|]; [|done].
  destruct (_ && _); [done|]. by intros [= <-].
Qed.

(** ** query-by-metadata *)

Lemma prefix_spec sub s : String.prefix sub s = true <-> exists post, s = sub +:+ post.
Proof.
  revert s. induction sub as [|c sub IH]; intros s.
  - split; [intros _; by exists s | by destruct s].
  - destruct s as [|c' s]; simpl; [split; [done | intros [post [=]]]|].
    destruct (ascii_dec c c') as [<-|Hne].
    + rewrite IH. split; intros [post Hpost]; exists post.
      * simpl. by rewrite Hpost.
      * simpl in Hpost. by injection Hpost.
    + split; [done | intros [post [=]]; done].
Qed.

Lemma includes_spec s sub : includes s sub = true <-> isSubstring sub s.
Proof.
  induction s as [|c s IH]; cbn [includes].
  - rewrite orb_false_r, prefix_spec. split.
    + intros [post ->]. by exists "", post.
    + intros (pre & post & Heq). destruct pre; [by exists post|done].
  - rewrite orb_true_iff, prefix_spec, IH. split.
    + intros [[post ->]|(pre & post & ->)]; [by exists "", post|].
      by exists (String c pre), post.
    + intros (pre & post & Heq). destruct pre as [|c' pre]; [left; by exists post|].
      right. injection Heq as <- ->. by exists pre, post.
Qed.

Lemma matches_exists toLowerCase metadataValue searchValue :
  matches toLowerCase metadataValue searchValue Exists = true.
Proof. done. Qed.

Lemma matches_exact toLowerCase metadataValue sv :
  matches toLowerCase metadataValue (Some sv) Exact = true <->
  sv ∈ valuesOf metadataValue.
Proof.
  unfold matches. rewrite existsb_exists. split.
  - intros (v & Hin & Heq). apply String.eqb_eq in Heq as ->.
    by apply list_elem_of_In.
  - intros Hin. exists sv. split; [by apply list_elem_of_In | apply String.eqb_refl].
Qed.

Lemma matches_contains toLowerCase metadataValue sv :
  matches toLowerCase metadataValue (Some sv) Contains = true <->
  exists v, v ∈ valuesOf metadataValue /\ isSubstring (toLowerCase sv) (toLowerCase v).
Proof.
  unfold matches. rewrite existsb_exists. split.
  - intros (v & Hin & Hinc). exists v. split; [by apply list_elem_of_In|].
    by apply includes_spec.
  - intros (v & Hin & Hsub). exists v. split; [by apply list_elem_of_In|].
    by apply includes_spec.
Qed.

Lemma matches_without_value toLowerCase metadataValue mode :
  mode <> Exists -> matches toLowerCase metadataValue None mode = false.
Proof. by destruct mode. Qed.

Lemma matches_inherited_without_value mode :
  mode <> Exists -> matches_inherited None mode = Ok false.
Proof. by destruct mode. Qed.

(** A non-empty matched element is reported as it is. *)
Lemma orElse_truthy v fallback : v <> "" -> orElse (Some v) fallback = v.
Proof. unfold orElse. by destruct v. Qed.

Lemma getMatchedValue_exact toLowerCase metadataValue sv v :
  find (fun v => String.eqb v sv) (valuesOf metadataValue) = Some v -> v <> "" ->
  getMatchedValue toLowerCase metadataValue (Some sv) Exact = v.
Proof. unfold getMatchedValue. intros -> Hne. by apply orElse_truthy. Qed.

Lemma getMatchedValue_contains toLowerCase metadataValue sv v :
  find (fun v => includes (toLowerCase v) (toLowerCase sv)) (valuesOf metadataValue)
  = Some v ->
  v <> "" ->
  getMatchedValue toLowerCase metadataValue (Some sv) Contains = v.
Proof. unfold getMatchedValue. intros -> Hne. by apply orElse_truthy. Qed.

Lemma getMatchedValue_exists toLowerCase metadataValue searchValue v :
  head (valuesOf metadataValue) = Some v ->
  getMatchedValue toLowerCase metadataValue searchValue Exists = v.
Proof.
  unfold getMatchedValue, firstOrEmpty. intros ->. unfold orElse. by destruct v.
Qed.

Lemma searchMetadata_no_match toLowerCase limit key value mode universe results :
  (forall metadataValue, matches toLowerCase metadataValue value mode = false) ->
  matches_inherited value mode = Ok false ->
  searchMetadata toLowerCase limit key value mode universe results = Ok results.
Proof.
  intros Hno Hinherited. induction universe as [|e rest IH]; simpl; [done|].
  destruct (limit <=? length results); [done|].
  destruct (getProperty (el_metadata e) key) as [[metadataValue|]|]; [| |done].
  - by rewrite Hno.
  - by rewrite Hinherited.
Qed.

(** C10: in [exact] (also by default) or [contains] mode, a call without
    [value] succeeds and returns no result, whatever the case mapping. *)
Theorem queryByMetadata_without_value (toLowerCase : string -> string)
    (m : LikeC4Model) (args : MetadataArgs) :
  ma_value args = None ->
  ma_matchMode args <> Some Exists ->
  queryByMetadata toLowerCase m args = Ok [].
Proof.
  intros Hvalue Hmode. unfold queryByMetadata. rewrite Hvalue.
  assert (Hmode' : default Exact (ma_matchMode args) <> Exists).
  { destruct (ma_matchMode args) as [[]|]; simpl; congruence. }
  assert (Hno : forall mv,
    matches toLowerCase mv None (default Exact (ma_matchMode args)) = false).
  { intros mv. by apply matches_without_value. }
  rewrite searchMetadata_no_match
    by (done || by apply matches_inherited_without_value).
  simpl. rewrite searchMetadata_no_match
    by (done || by apply matches_inherited_without_value).
  done.
Qed.

Lemma queryByMetadata_without_value_witness :
  queryByMetadata toLowerCaseAscii (ownedModel (MetaString "platform-team"))
    {| ma_key := "owner"; ma_value := None; ma_matchMode := Some Contains |}
  = Ok [].
Proof. apply queryByMetadata_without_value; [reflexivity | discriminate]. Defined.

(** C7, at the input where the code departs from it: in [exact] mode with the
    empty search string, an entity whose list holds the empty string after a
    non-empty one matches, the first list element satisfying the predicate is
    the empty string, and the reported [matchedValue] is the first list
    element instead. *)
Theorem getMatchedValue_empty_search (toLowerCase : string -> string) :
  let metadataValue := MetaArray ["a"; ""] in
  let args := {| ma_key := "owner"; ma_value := Some ""; ma_matchMode := Some Exact |} in
  matches toLowerCase metadataValue (Some "") Exact = true /\
  find (fun v => String.eqb v "") (valuesOf metadataValue) = Some "" /\
  getMatchedValue toLowerCase metadataValue (Some "") Exact = "a" /\
  match queryByMetadata toLowerCase (ownedModel metadataValue) args with
  | Ok results => map mm_matchedValue results
  | Err _ => []
  end = [MatchedString "a"; MatchedString "a"].
Proof. vm_compute. done. Qed.

(** ** query-by-tags *)

Lemma searchTags_no_match limit args universe results :
  (forall tags, matchesTags args tags = false) ->
  searchTags limit args universe results = results.
Proof.
  intros Hno. induction universe as [|e rest IH]; simpl; [done|].
  destruct (limit <=? length results); [done|]. by rewrite Hno.
Qed.

Lemma specified_elem tag o : tag ∈ tagList o -> specified o = true.
Proof. destruct o as [[|]|]; simpl; try done; by intros ?%elem_of_nil. Qed.

(** C8: a tag in both [allOf] and [noneOf] makes the predicate false for
    every tag set, and the query returns no match. *)
Theorem queryByTags_conflicting (m : LikeC4Model) (args : TagArgs) (tag : string) :
  tag ∈ tagList (ta_allOf args) ->
  tag ∈ tagList (ta_noneOf args) ->
  (forall tags : gset string, matchesTags args tags = false) /\
  queryByTags m args = Ok [].
Proof.
  intros Hall Hnone.
  assert (Hno : forall tags : gset string, matchesTags args tags = false).
  { intros tags. unfold matchesTags.
    rewrite (specified_elem tag _ Hall), (specified_elem tag _ Hnone). simpl.
    destruct (forallb (has tags) (tagList (ta_allOf args))) eqn:Hevery; [|done].
    simpl. destruct (_ && _); [done|].
    rewrite forallb_forall in Hevery.
    assert (Hsome : existsb (has tags) (tagList (ta_noneOf args)) = true).
    { apply existsb_exists. exists tag. split; [by apply list_elem_of_In|].
      apply Hevery. by apply list_elem_of_In. }
    by rewrite Hsome. }
  split; [done|]. unfold queryByTags.
  rewrite (specified_elem tag _ Hall). simpl.
  by rewrite !searchTags_no_match.
Qed.

Lemma queryByTags_conflicting_witness :
  queryByTags (ownedModel (MetaString "platform-team"))
    {| ta_allOf := Some ["public"]; ta_anyOf := None; ta_noneOf := Some ["api"; "public"] |}
  = Ok [].
Proof.
  apply (queryByTags_conflicting _ _ "public"); simpl.
  - apply elem_of_cons. by left.
  - apply elem_of_cons. right. apply elem_of_cons. by left.
Defined.

(** ** Numeric options *)

Lemma findRelationshipPaths_inputSchema_Ok args args' :
  findRelationshipPaths_inputSchema args = Ok args' ->
  exists v, zIntRange "maxDepth" 1 5 3 (pa_maxDepth args) = Ok v /\
            args' = {| pa_sourceId := pa_sourceId args;
                       pa_targetId := pa_targetId args;
                       pa_maxDepth := Some v |}.
Proof.
  unfold findRelationshipPaths_inputSchema.
  destruct (zIntRange _ _ _ _ _) as [v|e]; simpl; [|done].
  intros [= <-]. by exists v.
Qed.

Lemma queryIncomersGraph_inputSchema_Ok args args' :
  queryIncomersGraph_inputSchema args = Ok args' ->
  zIntRange "maxDepth" 1 100 50 (ia_maxDepth args) = Ok (ii_maxDepth args') /\
  zIntRange "maxNodes" 1 5000 1000 (ia_maxNodes args) = Ok (ii_maxNodes args') /\
  ii_elementId args' = ia_elementId args /\
  ii_includeIndirect args' = default true (ia_includeIndirect args).
Proof.
  unfold queryIncomersGraph_inputSchema.
  destruct (zIntRange "maxDepth" _ _ _ _) as [d|e]; simpl; [|done].
  destruct (zIntRange "maxNodes" _ _ _ _) as [n|e]; simpl; [|done].
  by intros [= <-].
Qed.

(** C2, refuted as stated: [maxDepth = 6] is rejected by the input schema
    although the nearest bound 5 is accepted and finds the path; and the
    handler on its own does not raise a value below the range either, since
    with [maxDepth = 0] it finds nothing where the lower bound 1 finds the
    direct relationship. *)
Lemma maxDepth_outside_range_not_clamped :
  findRelationshipPaths chainABC
    {| pa_sourceId := "A"; pa_targetId := "C"; pa_maxDepth := Some 6%Z |}
  = Err (SchemaRejected "maxDepth") /\
  (exists p, findRelationshipPaths chainABC
     {| pa_sourceId := "A"; pa_targetId := "C"; pa_maxDepth := Some (clamp 1 5 6) |}
   = Ok [p]) /\
  (findRelationshipPaths_handler chainABC
     {| pa_sourceId := "A"; pa_targetId := "B"; pa_maxDepth := Some 0%Z |} []).2
  = Ok [] /\
  (exists p, (findRelationshipPaths_handler chainABC
     {| pa_sourceId := "A"; pa_targetId := "B"; pa_maxDepth := Some (clamp 1 5 0) |} []).2
   = Ok [p]).
Proof.
  split; [by vm_compute|]. split; [eexists; by vm_compute|].
  split; [by vm_compute|]. eexists; by vm_compute.
Qed.

(** C2, amended: an omitted numeric option takes its default and a value
    inside the documented range is used unchanged (the handler's own cap is
    the identity on it); a value outside the range makes the call fail in
    input validation, before the handler runs. *)
Theorem numeric_options_validated (m : LikeC4Model) :
  (forall args v, pa_maxDepth args = Some v -> (v < 1 \/ 5 < v)%Z ->
     findRelationshipPaths_traced m args = ([], Err (SchemaRejected "maxDepth"))) /\
  (forall args v, ia_maxDepth args = Some v -> (v < 1 \/ 100 < v)%Z ->
     queryIncomersGraph_traced m args = ([], Err (SchemaRejected "maxDepth"))) /\
  (forall args v, ia_maxNodes args = Some v -> (v < 1 \/ 5000 < v)%Z ->
     exists field, queryIncomersGraph_traced m args = ([], Err (SchemaRejected field))) /\
  (forall args args', findRelationshipPaths_inputSchema args = Ok args' ->
     exists v, pa_maxDepth args' = Some v /\ (1 <= v <= 5)%Z /\
       (pa_maxDepth args = None /\ v = 3%Z \/ pa_maxDepth args = Some v) /\
       Z.min (default 3%Z (pa_maxDepth args')) 5 = v) /\
  (forall args args', queryIncomersGraph_inputSchema args = Ok args' ->
     (1 <= ii_maxDepth args' <= 100)%Z /\ (1 <= ii_maxNodes args' <= 5000)%Z /\
     (ia_maxDepth args = None /\ ii_maxDepth args' = 50%Z \/
      ia_maxDepth args = Some (ii_maxDepth args')) /\
     (ia_maxNodes args = None /\ ii_maxNodes args' = 1000%Z \/
      ia_maxNodes args = Some (ii_maxNodes args')) /\
     Z.min (ii_maxDepth args') 100 = ii_maxDepth args' /\
     Z.min (ii_maxNodes args') 5000 = ii_maxNodes args').
Proof.
  split; [|split; [|split; [|split]]].
  - intros args v Hv Hout. rewrite findRelationshipPaths_traced_log.
    unfold findRelationshipPaths_inputSchema.
    by rewrite Hv, zIntRange_outside.
  - intros args v Hv Hout. rewrite queryIncomersGraph_traced_log.
    unfold queryIncomersGraph_inputSchema.
    by rewrite Hv, zIntRange_outside.
  - intros args v Hv Hout. rewrite queryIncomersGraph_traced_log.
    unfold queryIncomersGraph_inputSchema.
    rewrite Hv, (zIntRange_outside "maxNodes") by done.
    destruct (zIntRange "maxDepth" _ _ _ _) as [d|e] eqn:Hd; simpl; [eauto|].
    apply zIntRange_Err in Hd as ->. eauto.
  - intros args args' (v & Hv & ->)%findRelationshipPaths_inputSchema_Ok.
    exists v. simpl. split; [done|].
    apply zIntRange_Ok in Hv as [[-> ->]|[-> Hr]].
    + repeat split; try lia. by left.
    + repeat split; try lia. by right.
  - intros args args' (Hd & Hn & _)%queryIncomersGraph_inputSchema_Ok.
    apply zIntRange_Ok in Hd, Hn.
    destruct Hd as [[-> ->]|[-> ?]], Hn as [[-> ->]|[-> ?]];
      repeat split; first [lia | by left | by right].
Qed.

Lemma numeric_options_validated_witness :
  findRelationshipPaths_traced chainABC
    {| pa_sourceId := "A"; pa_targetId := "C"; pa_maxDepth := Some 7%Z |}
  = ([], Err (SchemaRejected "maxDepth")).
Proof.
  apply (proj1 (numeric_options_validated chainABC) _ 7%Z); [reflexivity | lia].
Defined.

(** ** find-relationship-paths: validation *)

Lemma findElement_id m id e : findElement m id = Some e -> el_id e = id.
Proof.
  unfold findElement. intros [_ Heq]%find_some. by apply String.eqb_eq.
Qed.

Lemma findElement_elements m id e : findElement m id = Some e -> In e (elements m).
Proof. unfold findElement. by intros [Hin _]%find_some. Qed.

(** C3, refuted as stated: with the same unknown identifier on both sides the
    source and the destination are the same, yet the failure is the not-found
    one of the source, which is not an invalid argument. *)
Lemma findRelationshipPaths_same_unknown_id :
  let args := {| pa_sourceId := "Z"; pa_targetId := "Z"; pa_maxDepth := None |} in
  pa_sourceId args = pa_targetId args /\
  findRelationshipPaths_traced chainABC args = ([], Err (SourceNotFound "Z")) /\
  errorClass (SourceNotFound "Z") <> InvalidArgument.
Proof. by vm_compute. Qed.

(** C3, amended: when the two identifiers are equal, or they resolve to
    elements one of which is an ancestor of the other, the call fails and the
    log of dequeued items is empty: the failing check comes before the loop.
    The failure is an invalid argument when both identifiers resolve; when
    one of them does not resolve and [maxDepth] is valid, the failure is the
    not-found one, since the handler looks the elements up first. *)
Theorem findRelationshipPaths_rejects_related (m : LikeC4Model) (args : PathArgs) :
  (pa_sourceId args = pa_targetId args \/
   exists source target,
     findElement m (pa_sourceId args) = Some source /\
     findElement m (pa_targetId args) = Some target /\
     (isAncestorOf m source target = true \/ isAncestorOf m target source = true)) ->
  exists e,
    findRelationshipPaths_traced m args = ([], Err e) /\
    (is_Some (findElement m (pa_sourceId args)) ->
     is_Some (findElement m (pa_targetId args)) ->
     errorClass e = InvalidArgument) /\
    ((findElement m (pa_sourceId args) = None \/
      findElement m (pa_targetId args) = None) ->
     (forall v, pa_maxDepth args = Some v -> (1 <= v <= 5)%Z) ->
     errorClass e = NotFound).
Proof.
  intros Hrel. rewrite findRelationshipPaths_traced_log.
  destruct (findRelationshipPaths_inputSchema args) as [args'|e] eqn:Hschema.
  - apply findRelationshipPaths_inputSchema_Ok in Hschema as (v & _ & ->).
    rewrite findRelationshipPaths_handler_log.
    unfold findRelationshipPaths_search, findRelationshipPaths_validate. simpl.
    destruct (findElement m (pa_sourceId args)) as [source|] eqn:Hs; simpl.
    2: { eexists. split; [done|]. split; [by intros [? [=]]|done]. }
    destruct (findElement m (pa_targetId args)) as [target|] eqn:Ht; simpl.
    2: { eexists. split; [done|]. split; [by intros _ [? [=]]|done]. }
    destruct (String.eqb (el_id source) (el_id target)) eqn:Hsame; simpl.
    { eexists. split; [done|]. split; [done|]. by intros [[=]|[=]]. }
    destruct Hrel as [Heq|(s & t & [= <-] & [= <-] & Hanc)].
    + rewrite Heq, Ht in Hs. injection Hs as <-.
      by rewrite String.eqb_refl in Hsame.
    + assert (negb (isAncestorOf m source target) && negb (isAncestorOf m target source)
              = false) as ->.
      { destruct Hanc as [-> | ->]; simpl; [done|]. by rewrite andb_false_r. }
      simpl. eexists. split; [done|]. split; [done|]. by intros [[=]|[=]].
  - exists e. split; [done|].
    unfold findRelationshipPaths_inputSchema in Hschema.
    destruct (zIntRange _ _ _ _ _) eqn:Hz; simpl in Hschema; [done|].
    injection Hschema as <-. split.
    + intros _ _. by apply zIntRange_Err in Hz as ->.
    + intros _ Hrange. exfalso. unfold zIntRange in Hz.
      destruct (pa_maxDepth args) as [k|]; [|done].
      specialize (Hrange k eq_refl).
      destruct (1 <=? k)%Z eqn:H1, (k <=? 5)%Z eqn:H5; simpl in Hz; try done;
        apply Z.leb_gt in H1 || apply Z.leb_gt in H5; lia.
Qed.

Lemma findRelationshipPaths_rejects_related_witness :
  exists e,
    findRelationshipPaths_traced chainABC
      {| pa_sourceId := "B"; pa_targetId := "B"; pa_maxDepth := None |} = ([], Err e) /\
    (is_Some (findElement chainABC "B") -> is_Some (findElement chainABC "B") ->
     errorClass e = InvalidArgument) /\
    ((findElement chainABC "B" = None \/ findElement chainABC "B" = None) ->
     (forall v, @None Z = Some v -> (1 <= v <= 5)%Z) ->
     errorClass e = NotFound).
Proof.
  apply (findRelationshipPaths_rejects_related chainABC
           {| pa_sourceId := "B"; pa_targetId := "B"; pa_maxDepth := None |}).
  left. reflexivity.
Defined.

(** ** find-relationship-paths: order of the result *)

Lemma compareLength_eq a b :
  compareLength a b = (Z.of_nat (fp_length a) - Z.of_nat (fp_length b))%Z.
Proof. done. Qed.

Lemma findRelationshipPaths_Ok m args paths :
  findRelationshipPaths m args = Ok paths ->
  exists args' st,
    findRelationshipPaths_inputSchema args = Ok args' /\
    findRelationshipPaths_search m args' = Ok st /\
    paths = sort compareLength (ps_foundPaths st).
Proof.
  unfold findRelationshipPaths. rewrite findRelationshipPaths_traced_log.
  destruct (findRelationshipPaths_inputSchema args) as [args'|e]; [|done].
  rewrite findRelationshipPaths_handler_log.
  destruct (findRelationshipPaths_search m args') as [st|e] eqn:Hst; [|done].
  simpl. intros [= <-]. by exists args', st.
Qed.

(** C9: the result is sorted by length, and among the paths of any one
    length the order is the one in which the search found them. *)
Theorem findRelationshipPaths_sorted_stable (m : LikeC4Model) (args : PathArgs)
    (paths : list FoundPath) :
  findRelationshipPaths m args = Ok paths ->
  StronglySorted (fun a b => fp_length a <= fp_length b) paths /\
  exists args' st,
    findRelationshipPaths_inputSchema args = Ok args' /\
    findRelationshipPaths_search m args' = Ok st /\
    forall n, filter (fun p => fp_length p = n) paths
            = filter (fun p => fp_length p = n) (ps_foundPaths st).
Proof.
  intros (args' & st & Hschema & Hsearch & ->)%findRelationshipPaths_Ok. split.
  - apply (sort_sorted fp_length), compareLength_eq.
  - exists args', st. repeat split; [done..|]. intros n.
    apply (sort_keys fp_length), compareLength_eq.
Qed.

Lemma findRelationshipPaths_sorted_stable_witness :
  exists paths,
    findRelationshipPaths chainABC
      {| pa_sourceId := "A"; pa_targetId := "C"; pa_maxDepth := None |} = Ok paths /\
    StronglySorted (fun a b => fp_length a <= fp_length b) paths.
Proof.
  eexists. split; [vm_compute; reflexivity|].
  eapply proj1, (findRelationshipPaths_sorted_stable chainABC
    {| pa_sourceId := "A"; pa_targetId := "C"; pa_maxDepth := None |}).
  vm_compute. reflexivity.
Defined.

(** C1, at an input where the code departs from it: the cap is tested only
    between two queue items, so the 101 relationships of one element that all
    reach the target give 101 paths. *)
Theorem findRelationshipPaths_exceeds_cap :
  exists paths,
    findRelationshipPaths star101
      {| pa_sourceId := "S"; pa_targetId := "T"; pa_maxDepth := Some 1%Z |} = Ok paths /\
    length paths = 101 /\ maxPaths < length paths.
Proof.
  eexists. split; [vm_compute; reflexivity|]. split; [reflexivity|].
  vm_compute. lia.
Qed.

(** ** find-relationship-paths: the search loop *)

Section PathSearch.
Context (m : LikeC4Model) (sourceId targetId : string) (maxDepth : Z).
Hypothesis source_not_target : sourceId <> targetId.

Lemma pathNodes_snoc steps step :
  pathNodes sourceId (steps ++ [step]) = pathNodes sourceId steps ++ [step_target step].
Proof. unfold pathNodes. by rewrite map_app. Qed.

Lemma NoDup_snoc (l : list string) x : NoDup l -> x ∉ l -> NoDup (l ++ [x]).
Proof.
  intros Hl Hx. apply NoDup_app. split; [done|]. split; [|apply NoDup_singleton].
  intros y Hy ->%list_elem_of_singleton. done.
Qed.

Lemma exploreRel_inv current acc rel :
  nodeOk sourceId targetId current ->
  (Z.of_nat (length (pn_path current)) < maxDepth)%Z ->
  Forall (nodeOk sourceId targetId) acc.1 ->
  Forall (foundOk sourceId targetId maxDepth) acc.2 ->
  Forall (nodeOk sourceId targetId) (exploreRel targetId current acc rel).1 /\
  Forall (foundOk sourceId targetId maxDepth) (exploreRel targetId current acc rel).2.
Proof.
  intros (Hnodup & Hvis & Htarget) Hdepth Hq Hf. unfold exploreRel.
  destruct (String.eqb (rel_target rel) targetId) eqn:Hreached; simpl.
  - apply String.eqb_eq in Hreached. split; [done|].
    apply Forall_app. split; [done|]. apply Forall_singleton.
    unfold foundOk. cbn [fp_steps fp_length].
    rewrite length_app, pathNodes_snoc, map_app.
    change (map step_target [pathStep rel]) with [rel_target rel].
    change (step_target (pathStep rel)) with (rel_target rel).
    rewrite Hreached. split; [done|]. split; [simpl; lia|]. split.
    * apply NoDup_snoc; [done|]. by rewrite <- Hvis.
    * apply last_snoc.
  - apply String.eqb_neq in Hreached. case_bool_decide as Hseen; [done|].
    split; [|done]. apply Forall_app. split; [done|]. apply Forall_singleton.
    unfold nodeOk. simpl. rewrite pathNodes_snoc. repeat split.
    + apply NoDup_snoc; [done|]. by rewrite <- Hvis.
    + rewrite elem_of_union, elem_of_singleton, elem_of_app, list_elem_of_singleton,
        Hvis. tauto.
    + rewrite elem_of_union, elem_of_singleton, elem_of_app, list_elem_of_singleton,
        Hvis. tauto.
    + rewrite elem_of_union, elem_of_singleton. intros [?|?]; [done|congruence].
Qed.

Lemma exploreRels_inv current rels acc :
  nodeOk sourceId targetId current ->
  (Z.of_nat (length (pn_path current)) < maxDepth)%Z ->
  Forall (nodeOk sourceId targetId) acc.1 ->
  Forall (foundOk sourceId targetId maxDepth) acc.2 ->
  Forall (nodeOk sourceId targetId)
    (fold_left (exploreRel targetId current) rels acc).1 /\
  Forall (foundOk sourceId targetId maxDepth)
    (fold_left (exploreRel targetId current) rels acc).2.
Proof.
  intros Hcur Hdepth. revert acc.
  induction rels as [|rel rels IH]; intros acc Hq Hf; simpl; [done|].
  destruct (exploreRel_inv current acc rel) as [Hq' Hf']; [done..|]. by apply IH.
Qed.

Lemma pathBody_inv st :
  pathInv sourceId targetId maxDepth st ->
  pathInv sourceId targetId maxDepth (pathBody m targetId maxDepth st).
Proof.
  intros [Hq Hf]. unfold pathBody.
  destruct (ps_queue st) as [|current queue] eqn:Hqueue.
  { split; [by rewrite Hqueue|done]. }
  apply Forall_cons in Hq as [Hcur Hq].
  destruct (maxDepth <=? _)%Z eqn:Hdepth; [by split|].
  apply Z.leb_gt in Hdepth.
  destruct (findElement m (pn_elementId current)) as [currentElement|]; [|by split].
  split; simpl; by apply exploreRels_inv.
Qed.

Lemma pathInit_inv source :
  el_id source = sourceId -> pathInv sourceId targetId maxDepth (pathInit source).
Proof.
  intros Hid. split; [|by apply Forall_nil]. apply Forall_singleton.
  unfold nodeOk, pathNodes. simpl. rewrite Hid. repeat split.
  - apply NoDup_singleton.
  - by intros ->%elem_of_singleton; apply list_elem_of_singleton.
  - by intros ->%list_elem_of_singleton; apply elem_of_singleton.
  - by intros ?%elem_of_singleton.
Qed.

Lemma pathSearch_inv source target :
  el_id source = sourceId -> el_id target = targetId ->
  pathInv sourceId targetId maxDepth (pathSearch m source target maxDepth).
Proof.
  intros Hs Ht. unfold pathSearch. rewrite Ht.
  apply while_loop_invariant; [intros st Hst _; by apply pathBody_inv|].
  by apply pathInit_inv.
Qed.
End PathSearch.

(** The fuel of [pathSearch] is never exhausted. *)
Section PathSearchTermination.
Context (m : LikeC4Model) (targetId : string) (maxDepth : Z).

Lemma branchWeight_pos degree remaining : 1 <= branchWeight degree remaining.
Proof. destruct remaining; simpl; lia. Qed.

Lemma outgoing_degree id e :
  findElement m id = Some e -> length (el_outgoing e) <= maxOutDegree m.
Proof.
  intros Hin%findElement_elements. unfold maxOutDegree.
  assert (Hall : Forall (fun k => k <= list_max (map (fun e => length (el_outgoing e))
                                                   (elements m)))
                   (map (fun e => length (el_outgoing e)) (elements m))).
  { by apply list_max_le. }
  rewrite Forall_forall in Hall. apply Hall, list_elem_of_In, in_map_iff. eauto.
Qed.

Lemma exploreRels_queue current rels acc :
  exists pushed,
    (fold_left (exploreRel targetId current) rels acc).1 = acc.1 ++ pushed /\
    length pushed <= length rels /\
    Forall (fun n => length (pn_path n) = S (length (pn_path current))) pushed.
Proof.
  revert acc. induction rels as [|rel rels IH]; intros acc; simpl.
  { exists []. by rewrite app_nil_r. }
  destruct (IH (exploreRel targetId current acc rel)) as (pushed & -> & Hlen & Hall).
  unfold exploreRel.
  destruct (String.eqb _ _); [|case_bool_decide]; simpl.
  - exists pushed. repeat split; [lia|done].
  - exists pushed. repeat split; [lia|done].
  - eexists (_ :: pushed). rewrite <- app_assoc. simpl. repeat split; [lia|].
    constructor; [|done]. simpl. rewrite length_app. simpl. lia.
Qed.

Lemma pathFuel_pushed current pushed :
  (Z.of_nat (length (pn_path current)) < maxDepth)%Z ->
  length pushed <= maxOutDegree m ->
  Forall (fun n => length (pn_path n) = S (length (pn_path current))) pushed ->
  list_sum (map (nodeWeight m maxDepth) pushed) < nodeWeight m maxDepth current.
Proof.
  intros Hdepth Hlen Hall. unfold nodeWeight at 2.
  set (degree := maxOutDegree m) in *.
  destruct (Z.to_nat (maxDepth - Z.of_nat (length (pn_path current)))) as [|r] eqn:Hr;
    [lia|].
  assert (Hsum : list_sum (map (nodeWeight m maxDepth) pushed)
                 = length pushed * branchWeight degree r).
  { clear Hlen. induction Hall as [|n pushed Hn _ IH]; simpl; [done|].
    rewrite IH. unfold nodeWeight at 1. fold degree. rewrite Hn.
    replace (Z.to_nat (maxDepth - Z.of_nat (S (length (pn_path current))))) with r
      by lia. done. }
  rewrite Hsum. simpl.
  pose proof (Nat.mul_le_mono_r _ _ (branchWeight degree r) Hlen). lia.
Qed.

Lemma pathBody_decreases st :
  pathCond st = true ->
  pathFuel m maxDepth (pathBody m targetId maxDepth st) < pathFuel m maxDepth st.
Proof.
  unfold pathCond, pathFuel, pathBody. intros Hcond.
  destruct (ps_queue st) as [|current queue]; [done|]. simpl.
  pose proof (branchWeight_pos (maxOutDegree m)
    (Z.to_nat (maxDepth - Z.of_nat (length (pn_path current))))) as Hpos.
  fold (nodeWeight m maxDepth current) in Hpos.
  destruct (maxDepth <=? _)%Z eqn:Hdepth; simpl; [lia|].
  apply Z.leb_gt in Hdepth.
  destruct (findElement m (pn_elementId current)) as [currentElement|] eqn:Hel;
    simpl; [|lia].
  destruct (exploreRels_queue current (el_outgoing currentElement)
              (queue, ps_foundPaths st)) as (pushed & -> & Hlen & Hall).
  simpl. rewrite map_app, list_sum_app.
  pose proof (outgoing_degree _ _ Hel).
  pose proof (pathFuel_pushed current pushed Hdepth ltac:(lia) Hall). lia.
Qed.
End PathSearchTermination.

Lemma pathSearch_exits m source target maxDepth :
  pathCond (pathSearch m source target maxDepth) = false.
Proof.
  unfold pathSearch.
  apply (while_loop_exit _ _ (fun _ => True) (pathFuel m maxDepth)); try done.
  intros st _. apply pathBody_decreases.
Qed.

(** C5, refuted as stated: in a model with a hierarchy the steps that a
    returned path names repeat an entity.  From [S], whose [outgoing()]
    yields the relationships of its child [S.x], the search returns the path
    [S.x -> M, M -> S.x, S.x -> T]: [S.x] is the source of two steps and the
    target of one. *)
Lemma findRelationshipPaths_repeats_entity :
  exists paths p,
    findRelationshipPaths nestedModel
      {| pa_sourceId := "S"; pa_targetId := "T"; pa_maxDepth := None |} = Ok paths /\
    p ∈ paths /\
    map step_source (fp_steps p) = ["S.x"; "M"; "S.x"] /\
    map step_target (fp_steps p) = ["M"; "S.x"; "T"] /\
    ~ NoDup (stepNodes (fp_steps p)) /\
    ~ NoDup (map step_source (fp_steps p)).
Proof.
  eexists. eexists. split; [vm_compute; reflexivity|].
  split; [apply elem_of_cons; right; apply elem_of_cons; left; reflexivity|].
  simpl. repeat split.
  - intros Hnodup. apply NoDup_cons in Hnodup as [Hnot _]. apply Hnot.
    apply elem_of_cons. right. apply elem_of_cons. by left.
  - intros Hnodup. apply NoDup_cons in Hnodup as [Hnot _]. apply Hnot.
    apply elem_of_cons. right. apply elem_of_cons. by left.
Qed.

(** C5, amended: every returned path has as many steps as its length says
    and is no longer than the effective [maxDepth]; the queried source
    followed by the targets of the steps, which are the entities the search
    moved through, holds no entity twice; and the final step leads to the
    target, which is neither the queried source nor the target of an earlier
    step.  The sources of the steps are those of the relationships that
    [outgoing()] yields and are not constrained. *)
Theorem findRelationshipPaths_paths_simple (m : LikeC4Model) (args : PathArgs)
    (paths : list FoundPath) (p : FoundPath) :
  findRelationshipPaths m args = Ok paths ->
  p ∈ paths ->
  length (fp_steps p) = fp_length p /\
  (Z.of_nat (fp_length p) <= Z.min (default 3%Z (pa_maxDepth args)) 5)%Z /\
  NoDup (pathNodes (pa_sourceId args) (fp_steps p)) /\
  exists steps final,
    fp_steps p = steps ++ [final] /\
    step_target final = pa_targetId args /\
    pa_targetId args ∉ pathNodes (pa_sourceId args) steps.
Proof.
  enough (Hmain : findRelationshipPaths m args = Ok paths -> p ∈ paths ->
    length (fp_steps p) = fp_length p /\
    (Z.of_nat (fp_length p) <= Z.min (default 3%Z (pa_maxDepth args)) 5)%Z /\
    NoDup (pathNodes (pa_sourceId args) (fp_steps p)) /\
    last (map step_target (fp_steps p)) = Some (pa_targetId args)).
  { intros Hcall Hp. destruct (Hmain Hcall Hp) as (Hlen & Hdepth & Hnodup & Hlast).
    repeat split; try done.
    destruct (fp_steps p) as [|step0 rest] using rev_ind; [done|].
    clear IHrest. rewrite map_app in Hlast.
    change (map step_target [step0]) with [step_target step0] in Hlast.
    rewrite last_snoc in Hlast. injection Hlast as Hlast.
    exists rest, step0. repeat split; [done|].
    rewrite pathNodes_snoc, Hlast in Hnodup.
    apply NoDup_app in Hnodup as (_ & Hnot & _).
    intros Hin. apply (Hnot _ Hin). by apply list_elem_of_singleton. }
  intros (args' & st & Hschema & Hsearch & ->)%findRelationshipPaths_Ok Hp.
  apply sort_elem in Hp.
  apply findRelationshipPaths_inputSchema_Ok in Hschema as (v & Hv & ->).
  unfold findRelationshipPaths_search, findRelationshipPaths_validate in Hsearch.
  simpl in Hsearch.
  destruct (findElement m (pa_sourceId args)) as [source|] eqn:Hs; [|done].
  destruct (findElement m (pa_targetId args)) as [target|] eqn:Ht; [|done].
  simpl in Hsearch.
  destruct (String.eqb (el_id source) (el_id target)) eqn:Hsame; [done|].
  simpl in Hsearch. destruct (_ && _); [|done]. simpl in Hsearch.
  injection Hsearch as <-.
  apply findElement_id in Hs, Ht. apply String.eqb_neq in Hsame.
  rewrite Hs, Ht in Hsame.
  pose proof (pathSearch_inv m _ _ (Z.min v 5) Hsame source target Hs Ht) as [_ Hf].
  rewrite Forall_forall in Hf. specialize (Hf p Hp).
  assert (Heff : Z.min (default 3%Z (pa_maxDepth args)) 5 = Z.min v 5).
  { apply zIntRange_Ok in Hv as [[-> ->]|[-> _]]; done. }
  rewrite Heff. exact Hf.
Qed.

Lemma findRelationshipPaths_paths_simple_witness :
  exists paths p,
    findRelationshipPaths chainABC
      {| pa_sourceId := "A"; pa_targetId := "C"; pa_maxDepth := None |} = Ok paths /\
    p ∈ paths /\
    NoDup (pathNodes "A" (fp_steps p)).
Proof.
  eexists. eexists. split; [vm_compute; reflexivity|].
  split; [apply elem_of_cons; left; reflexivity|].
  eapply (findRelationshipPaths_paths_simple chainABC
    {| pa_sourceId := "A"; pa_targetId := "C"; pa_maxDepth := None |}).
  - vm_compute. reflexivity.
  - apply elem_of_cons. left. reflexivity.
Defined.

(** ** query-incomers-graph: the traversal loop *)

Lemma enqueueIncomers_spec visited depth queue incomersData :
  enqueueIncomers visited depth queue incomersData
  = queue ++ map (fun d => {| qi_elementId := inc_elementId d; qi_depth := depth + 1 |})
               (filter (fun d => inc_elementId d ∉ visited) incomersData).
Proof.
  unfold enqueueIncomers. revert queue.
  induction incomersData as [|d data IH]; intros queue; simpl.
  { by rewrite app_nil_r. }
  rewrite IH, filter_cons. case_bool_decide; case_decide; try done.
  by rewrite <- app_assoc.
Qed.

Lemma enqueueIncomers_elem visited depth queue rels item :
  item ∈ enqueueIncomers visited depth queue (map incomerData rels) <->
  item ∈ queue \/
  exists r, r ∈ rels /\ (rel_source r ∉ visited) /\
            item = {| qi_elementId := rel_source r; qi_depth := depth + 1 |}.
Proof.
  rewrite enqueueIncomers_spec, elem_of_app, list_elem_of_fmap.
  split; (intros [?|Hpushed]; [by left|right]).
  - destruct Hpushed as (d & -> & Hd). apply list_elem_of_filter in Hd as [Hnot Hd].
    apply list_elem_of_fmap in Hd as (r & -> & Hr). by exists r.
  - destruct Hpushed as (r & Hr & Hnot & ->). exists (incomerData r). split; [done|].
    apply list_elem_of_filter. split; [done|]. apply list_elem_of_fmap. by exists r.
Qed.

Lemma enqueueIncomers_length visited depth queue incomersData :
  length (enqueueIncomers visited depth queue incomersData)
  <= length queue + length incomersData.
Proof.
  rewrite enqueueIncomers_spec, length_app, length_map.
  pose proof (length_filter (fun d => inc_elementId d ∉ visited) incomersData). lia.
Qed.

Lemma levelled_head item queue i :
  levelled (item :: queue) -> i ∈ item :: queue -> qi_depth item <= qi_depth i.
Proof.
  intros (d & q1 & q2 & Heq & H1 & H2) Hi.
  assert (Hrange : d <= qi_depth i /\ qi_depth i <= S d).
  { rewrite Heq in Hi. apply elem_of_app in Hi as [Hi|Hi].
    - rewrite Forall_forall in H1. specialize (H1 _ Hi). lia.
    - rewrite Forall_forall in H2. specialize (H2 _ Hi). lia. }
  destruct q1 as [|h q1]; simpl in Heq.
  - subst q2. apply Forall_cons in H2 as [Hh H2].
    apply elem_of_cons in Hi as [->|Hi]; [lia|].
    rewrite Forall_forall in H2. specialize (H2 _ Hi). lia.
  - injection Heq as <- ->. apply Forall_cons in H1 as [Hh _]. lia.
Qed.

Lemma levelled_shift item queue pushed :
  levelled (item :: queue) ->
  Forall (fun i => qi_depth i = S (qi_depth item)) pushed ->
  levelled (queue ++ pushed).
Proof.
  intros (d & q1 & q2 & Heq & H1 & H2) Hpushed.
  destruct q1 as [|h q1]; simpl in Heq.
  - subst q2. apply Forall_cons in H2 as [Hh H2]. rewrite Hh in Hpushed.
    by exists (S d), queue, pushed.
  - injection Heq as <- ->. apply Forall_cons in H1 as [Hh H1]. rewrite Hh in Hpushed.
    exists d, q1, (q2 ++ pushed). rewrite app_assoc. repeat split; [done|].
    by apply Forall_app.
Qed.

Lemma levelled_tail item queue : levelled (item :: queue) -> levelled queue.
Proof.
  intros Hlev. rewrite <- (app_nil_r queue).
  eapply levelled_shift; [exact Hlev|constructor].
Qed.

Lemma objectSet_proto {A : Type} (value : A) (object : gmap string A) :
  objectSet "__proto__" value object = object.
Proof. done. Qed.

Lemma objectSet_insert {A : Type} key (value : A) (object : gmap string A) :
  key <> "__proto__" -> objectSet key value object = <[key := value]> object.
Proof. unfold objectSet. by intros ->%String.eqb_neq. Qed.

Lemma objectSet_lookup_ne {A : Type} key (value : A) (object : gmap string A) x :
  key <> x -> objectSet key value object !! x = object !! x.
Proof.
  intros Hne. unfold objectSet. destruct (String.eqb key "__proto__"); [done|].
  by rewrite lookup_insert_ne.
Qed.

Lemma objectSet_lookup_proto {A : Type} key (value : A) (object : gmap string A) :
  object !! "__proto__" = None -> objectSet key value object !! "__proto__" = None.
Proof.
  intros Hnone. unfold objectSet.
  destruct (String.eqb key "__proto__") eqn:Hkey; [done|].
  apply String.eqb_neq in Hkey. by rewrite lookup_insert_ne.
Qed.

Lemma shortest_unique m filter start x d d' :
  shortest m filter start x d -> shortest m filter start x d' -> d = d'.
Proof.
  intros [Hd Hmin] [Hd' Hmin']. specialize (Hmin _ Hd'). specialize (Hmin' _ Hd). lia.
Qed.

Section GraphSearch.
Context (m : LikeC4Model) (filter : RelationFilter) (maxDepth maxNodes : Z)
  (start : string).
Hypothesis maxDepth_nonneg : (0 <= maxDepth)%Z.
Hypothesis maxNodes_pos : (1 <= maxNodes)%Z.
Hypothesis start_found : is_Some (findElement m start).

(** While the traversal has not been cut short, an entity within the depth
    bound that is not yet visited has an item in the queue no deeper than any
    walk that reaches it. *)
Lemma graph_frontier st n y :
  graphInv m filter maxDepth maxNodes start st ->
  gs_truncated st = false ->
  hops m filter start n y ->
  (Z.of_nat n <= maxDepth)%Z ->
  is_Some (findElement m y) ->
  y ∉ gs_visited st ->
  exists item, item ∈ gs_queue st /\ qi_depth item <= n.
Proof.
  intros [_ _ Hvisited _ _ _ Hfront Hstart _] Htr Hhops.
  induction Hhops as [|n x y Hx IH Hstep]; intros Hn Hy Hnot.
  - destruct Hstart as [?|[_ Hq]]; [done|]. rewrite Hq.
    eexists. split; [by apply list_elem_of_singleton|simpl; lia].
  - destruct (decide (x ∈ gs_visited st)) as [Hvis|Hvis].
    + destruct (Hvisited _ Hvis) as [_ [d Hd]].
      pose proof (proj2 Hd _ Hx) as Hmin.
      eexists. split; [eapply (Hfront Htr x d y); eauto; lia|simpl; lia].
    + destruct IH as (item & Hin & Hle); [lia| |done|].
      { destruct Hstep as (e & _ & -> & _). by eexists. }
      exists item. split; [done|lia].
Qed.

Lemma graphBody_inv st :
  graphInv m filter maxDepth maxNodes start st ->
  graphCond st = true ->
  graphInv m filter maxDepth maxNodes start (graphBody m filter maxDepth maxNodes st).
Proof.
  intros Hinv Hcond.
  unfold graphCond in Hcond. apply andb_true_iff in Hcond as [_ Htr].
  apply negb_true_iff in Htr.
  pose proof (graph_frontier st) as Hreach.
  pose proof Hinv as [Hnodes Hdom Hvisited Hsize Hqueue Hlev Hfront Hstart Htrunc].
  unfold graphBody.
  destruct (gs_queue st) as [|item queue] eqn:Hq; [done|].
  set (elementId := qi_elementId item). set (depth := qi_depth item).
  assert (Hskip :
    ((maxDepth < Z.of_nat depth)%Z \/ elementId ∈ gs_visited st \/
     findElement m elementId = None) ->
    graphInv m filter maxDepth maxNodes start
      {| gs_queue := queue; gs_visited := gs_visited st; gs_nodes := gs_nodes st;
         gs_actualMaxDepth := gs_actualMaxDepth st;
         gs_truncated := gs_truncated st; gs_shifted := gs_shifted st ++ [item] |}).
  { intros Hreason. constructor; simpl; try done.
    - intros i Hi. apply Hqueue. by apply elem_of_cons; right.
    - by eapply levelled_tail.
    - intros _ x d y Hx Hd Hinc Hy Hle Hex.
      specialize (Hfront Htr x d y Hx Hd Hinc Hy Hle Hex).
      apply elem_of_cons in Hfront as [Heq|?]; [exfalso|done].
      subst elementId depth. rewrite <- Heq in Hreason. simpl in Hreason.
      destruct Hreason as [?|[?|Hnone]]; [lia|done|].
      rewrite Hnone in Hex. by destruct Hex.
    - destruct Hstart as [?|[Hempty Heq]]; [by left|exfalso].
      injection Heq as Hitem _. subst elementId depth. rewrite Hitem in Hreason.
      simpl in Hreason. destruct Hreason as [?|[Hin|Hnone]]; [lia| |].
      + rewrite Hempty in Hin. by apply not_elem_of_empty in Hin.
      + rewrite Hnone in start_found. by destruct start_found.
    - intros Ht. congruence. }
  cbv zeta. fold elementId depth.
  destruct (maxDepth <? Z.of_nat depth)%Z eqn:Hdeep.
  { apply Z.ltb_lt in Hdeep. apply Hskip. by left. }
  apply Z.ltb_ge in Hdeep.
  case_bool_decide as Hseen.
  { apply Hskip. right. by left. }
  destruct (maxNodes <=? Z.of_nat (size (gs_visited st)))%Z eqn:Hfull.
  { apply Z.leb_le in Hfull. constructor; simpl; try done.
    - intros i Hi. apply Hqueue. by apply elem_of_cons; right.
    - by eapply levelled_tail.
    - destruct Hstart as [?|[Hempty _]]; [by left|exfalso].
      rewrite Hempty, size_empty in Hfull. lia.
    - intros _. split; [done|]. exists item. by rewrite last_snoc. }
  apply Z.leb_gt in Hfull.
  destruct (findElement m elementId) as [element|] eqn:Hel.
  2: { apply Hskip. right. by right. }
  assert (Hhead : hops m filter start depth elementId).
  { apply Hqueue. by apply elem_of_cons; left. }
  assert (Hmin : forall n, hops m filter start n elementId -> depth <= n).
  { intros n Hn. destruct (decide (Z.of_nat n <= maxDepth)%Z) as [Hle|Hgt]; [|lia].
    destruct (Hreach n elementId Hinv Htr Hn Hle) as (i & Hi & Hin); [by eexists|done|].
    pose proof (levelled_head _ _ _ Hlev Hi). subst depth. lia. }
  assert (Hshort : shortest m filter start elementId depth) by done.
  constructor; simpl.
  - intros x node Hx. rewrite elem_of_union, elem_of_singleton.
    destruct (decide (elementId = x)) as [<-|Hne].
    + destruct (decide (elementId = "__proto__")) as [Hp|Hp].
      * rewrite Hp, objectSet_proto in Hx. rewrite <- Hp in Hx.
        destruct (Hnodes _ _ Hx) as (Hin & _). done.
      * rewrite objectSet_insert, lookup_insert_eq in Hx by done.
        injection Hx as <-. simpl. split; [by right|by split].
    + rewrite objectSet_lookup_ne in Hx by done.
      destruct (Hnodes _ _ Hx) as (? & ? & ?). split; [by left|by split].
  - intros x [Hx|Hx%elem_of_singleton]%elem_of_union Hp.
    + rewrite objectSet_lookup_ne by (intros <-; done). by apply Hdom.
    + subst x. rewrite objectSet_insert, lookup_insert_eq by done. by eexists.
  - intros x [Hx|Hx%elem_of_singleton]%elem_of_union; [by apply Hvisited|].
    subst x. split; [by eexists|by exists depth].
  - rewrite size_union by (by apply disjoint_singleton_r).
    rewrite size_singleton. lia.
  - intros i [Hi|(r & Hr & _ & ->)]%enqueueIncomers_elem.
    + apply Hqueue. by apply elem_of_cons; right.
    + simpl. rewrite Nat.add_1_r. eapply hops_step; [exact Hhead|].
      by exists element, r.
  - rewrite enqueueIncomers_spec. eapply levelled_shift; [exact Hlev|].
    apply Forall_forall. intros i (d & -> & _)%list_elem_of_fmap. simpl. lia.
  - intros _ x d y Hx Hd Hinc Hy Hle Hex.
    apply not_elem_of_union in Hy as [Hy Hyx].
    apply enqueueIncomers_elem.
    destruct (decide (elementId = x)) as [<-|Hne].
    + rewrite (shortest_unique _ _ _ _ _ _ Hd Hshort). right.
      destruct Hinc as (e & r & He & Hr & <-). rewrite Hel in He. injection He as <-.
      exists r. repeat split; [done| |by rewrite Nat.add_1_r].
      by apply not_elem_of_union.
    + left. apply elem_of_union in Hx as [Hx|Hx%elem_of_singleton]; [|done].
      specialize (Hfront Htr x d y Hx Hd Hinc Hy Hle Hex).
      apply elem_of_cons in Hfront as [Heq|?]; [exfalso|done].
      apply Hyx, elem_of_singleton. subst elementId. by rewrite <- Heq.
  - left. apply elem_of_union. destruct Hstart as [?|[_ Heq]]; [by left|right].
    injection Heq as Hitem _. apply elem_of_singleton. subst elementId.
    by rewrite Hitem.
  - intros Ht. congruence.
Qed.
End GraphSearch.

Lemma graphInit_inv m filter maxDepth maxNodes start :
  (1 <= maxNodes)%Z ->
  graphInv m filter maxDepth maxNodes start (graphInit start).
Proof.
  intros Hpos. constructor; unfold graphInit;
    cbn [gs_queue gs_visited gs_nodes gs_truncated gs_shifted]; try done.
  - rewrite size_empty. lia.
  - intros item ->%list_elem_of_singleton. constructor.
  - exists 0, [{| qi_elementId := start; qi_depth := 0 |}], [].
    repeat split; [by apply Forall_singleton|constructor].
  - by right.
Qed.

(** The fuel of [graphSearch] is never exhausted. *)
Lemma incoming_degree m filter id e :
  findElement m id = Some e -> length (el_incoming e filter) <= maxInDegree m filter.
Proof.
  intros Hin%findElement_elements. unfold maxInDegree.
  assert (Hall : Forall (fun k => k <= list_max (map (fun e => length (el_incoming e filter))
                                                   (elements m)))
                   (map (fun e => length (el_incoming e filter)) (elements m))).
  { by apply list_max_le. }
  rewrite Forall_forall in Hall. apply Hall, list_elem_of_In, in_map_iff. eauto.
Qed.

Lemma graphBody_decreases m filter maxDepth maxNodes st :
  graphCond st = true ->
  graphFuel m filter maxNodes (graphBody m filter maxDepth maxNodes st)
  < graphFuel m filter maxNodes st.
Proof.
  unfold graphCond, graphFuel, graphBody. intros Hcond.
  destruct (gs_queue st) as [|item queue]; [done|].
  apply andb_true_iff in Hcond as [_ Htr%negb_true_iff].
  rewrite Htr. cbv zeta.
  destruct (maxDepth <? _)%Z; simpl; [lia|].
  case_bool_decide as Hseen; simpl; [lia|].
  destruct (maxNodes <=? _)%Z eqn:Hfull; simpl; [lia|].
  apply Z.leb_gt in Hfull.
  destruct (findElement m (qi_elementId item)) as [element|] eqn:Hel; simpl;
    [|lia].
  rewrite size_union by (by apply disjoint_singleton_r).
  rewrite size_singleton.
  pose proof (enqueueIncomers_length (gs_visited st ∪ {[qi_elementId item]})
                (qi_depth item) queue (map incomerData (el_incoming element filter)))
    as Hlen.
  rewrite length_map in Hlen. pose proof (incoming_degree m filter _ _ Hel) as Hdeg.
  set (degree := maxInDegree m filter) in *.
  set (size_visited := size (gs_visited st)) in *.
  replace (Z.to_nat maxNodes - size_visited)
    with (S (Z.to_nat maxNodes - (size_visited + 1))) by lia.
  simpl. lia.
Qed.

Lemma graphSearch_final m filter maxDepth maxNodes start :
  (0 <= maxDepth)%Z -> (1 <= maxNodes)%Z -> is_Some (findElement m start) ->
  graphInv m filter maxDepth maxNodes start (graphSearch m filter maxDepth maxNodes start)
  /\ graphCond (graphSearch m filter maxDepth maxNodes start) = false.
Proof.
  intros Hdepth Hnodes Hstart. unfold graphSearch. split.
  - apply while_loop_invariant; [|by apply graphInit_inv].
    intros st. by apply graphBody_inv.
  - apply (while_loop_exit _ _ (fun _ => True) (graphFuel m filter maxNodes));
      try done.
    intros st _. apply graphBody_decreases.
Qed.

Lemma queryIncomersGraph_Ok m args log g :
  queryIncomersGraph_traced m args = (log, Ok g) ->
  let filter := filterOf (default true (ia_includeIndirect args)) in
  let maxDepth := default 50%Z (ia_maxDepth args) in
  let maxNodes := default 1000%Z (ia_maxNodes args) in
  let st := graphSearch m filter maxDepth maxNodes (ia_elementId args) in
  (1 <= maxDepth <= 100)%Z /\ (1 <= maxNodes <= 5000)%Z /\
  is_Some (findElement m (ia_elementId args)) /\
  log = gs_shifted st /\
  g = {| ig_target := ia_elementId args;
         ig_totalNodes := size (gs_visited st);
         ig_maxDepth := gs_actualMaxDepth st;
         ig_truncated := gs_truncated st;
         ig_nodes := gs_nodes st |}.
Proof.
  rewrite queryIncomersGraph_traced_log.
  destruct (queryIncomersGraph_inputSchema args) as [args'|e] eqn:Hschema; [|done].
  apply queryIncomersGraph_inputSchema_Ok in Hschema as (Hd & Hn & Hid & Hind).
  rewrite queryIncomersGraph_handler_log. unfold queryIncomersGraph_search.
  rewrite Hid, Hind.
  destruct (findElement m (ia_elementId args)) as [targetElement|] eqn:Hel; [|done].
  simpl. intros [= <- <-].
  assert (Hdepth : ii_maxDepth args' = default 50%Z (ia_maxDepth args)
                   /\ (1 <= ii_maxDepth args' <= 100)%Z).
  { apply zIntRange_Ok in Hd as [[-> ->]|[-> ?]]; simpl; split; (done || lia). }
  assert (Hnodes : ii_maxNodes args' = default 1000%Z (ia_maxNodes args)
                   /\ (1 <= ii_maxNodes args' <= 5000)%Z).
  { apply zIntRange_Ok in Hn as [[-> ->]|[-> ?]]; simpl; split; (done || lia). }
  destruct Hdepth as [<- Hdepth], Hnodes as [<- Hnodes].
  rewrite !Z.min_l by lia. repeat split; (lia || by eexists).
Qed.

(** C4: the number of nodes never exceeds [maxNodes]; when more than
    [maxNodes] entities lie in the closure bounded by [maxDepth], the result
    is truncated and holds exactly [maxNodes] nodes; and when the result is
    truncated, the entity dequeued last, which triggered the stop, is not
    among the nodes. *)
Theorem queryIncomersGraph_node_limit (m : LikeC4Model) (args : IncomersArgs)
    (log : list QueueItem) (g : IncomersGraph) :
  queryIncomersGraph_traced m args = (log, Ok g) ->
  let filter := filterOf (default true (ia_includeIndirect args)) in
  let maxDepth := default 50%Z (ia_maxDepth args) in
  let maxNodes := default 1000%Z (ia_maxNodes args) in
  (Z.of_nat (ig_totalNodes g) <= maxNodes)%Z /\
  (forall closure : list string,
     NoDup closure ->
     (forall x, x ∈ closure ->
        reachableWithin m filter (ia_elementId args) maxDepth x) ->
     (maxNodes < Z.of_nat (length closure))%Z ->
     ig_truncated g = true /\ Z.of_nat (ig_totalNodes g) = maxNodes) /\
  (ig_truncated g = true ->
   exists item, last log = Some item /\ ig_nodes g !! qi_elementId item = None).
Proof.
  intros Hcall. apply queryIncomersGraph_Ok in Hcall. cbv zeta in Hcall.
  destruct Hcall as (Hdepth & Hnodes & Hstart & -> & ->). cbv zeta. simpl.
  set (filter := filterOf _) in *. set (maxDepth := default 50%Z _) in *.
  set (maxNodes := default 1000%Z _) in *.
  destruct (graphSearch_final m filter maxDepth maxNodes (ia_elementId args))
    as [Hinv Hexit]; [lia..|done|].
  set (st := graphSearch _ _ _ _ _) in *.
  pose proof Hinv as [Hentries _ _ Hsize _ _ _ _ Htrunc].
  split; [done|]. split.
  - intros closure Hnodup Hclosure Hmore.
    destruct (gs_truncated st) eqn:Htr.
    { split; [done|]. destruct (Htrunc eq_refl) as [? _]. lia. }
    exfalso. unfold graphCond in Hexit. rewrite Htr, andb_true_r in Hexit.
    destruct (gs_queue st) as [|item queue] eqn:Hq; [|done].
    assert (Hsub : list_to_set closure ⊆ gs_visited st).
    { intros x Hx%elem_of_list_to_set.
      destruct (decide (x ∈ gs_visited st)) as [|Hnot]; [done|exfalso].
      destruct (Hclosure x Hx) as (n & Hn & Hhops & Hex).
      destruct (graph_frontier m filter maxDepth maxNodes (ia_elementId args) st n x
                  Hinv Htr Hhops Hn Hex Hnot) as (item & Hin & _).
      rewrite Hq in Hin. by apply elem_of_nil in Hin. }
    apply subseteq_size in Hsub. rewrite size_list_to_set in Hsub by done. lia.
  - intros Htr. destruct (Htrunc Htr) as (_ & item & Hlast & Hnot).
    exists item. split; [done|]. apply eq_None_not_Some. intros [node Hnode].
    by destruct (Hentries _ _ Hnode) as [? _].
Qed.

(** C6, on an element named [__proto__]: the call succeeds and counts one
    node, but the start node is not in the result, because storing it under
    the key [__proto__] of the plain object [nodes] creates no entry; the
    result holds no node at depth 0 at all. *)
Theorem queryIncomersGraph_start_missing :
  exists g,
    queryIncomersGraph protoModel
      {| ia_elementId := "__proto__"; ia_includeIndirect := None;
         ia_maxDepth := None; ia_maxNodes := None |} = Ok g /\
    ig_nodes g !! "__proto__" = None /\
    ig_nodes g = ∅ /\
    ig_totalNodes g = 1 /\
    ig_truncated g = false.
Proof. eexists. split; [by vm_compute|]. by vm_compute. Qed.

Lemma queryIncomersGraph_node_limit_witness :
  exists log g,
    queryIncomersGraph_traced chainABC
      {| ia_elementId := "C"; ia_includeIndirect := None; ia_maxDepth := None;
         ia_maxNodes := Some 2%Z |} = (log, Ok g) /\
    ig_truncated g = true /\ Z.of_nat (ig_totalNodes g) = 2%Z.
Proof.
  eexists. eexists. split; [vm_compute; reflexivity|].
  refine (proj1 (proj2 (queryIncomersGraph_node_limit chainABC
    {| ia_elementId := "C"; ia_includeIndirect := None; ia_maxDepth := None;
       ia_maxNodes := Some 2%Z |} _ _ _)) ["C"; "B"; "A"] _ _ _).
  - vm_compute. reflexivity.
  - apply (bool_decide_unpack _). vm_compute. exact I.
  - assert (HC : hops chainABC FilterAll "C" 0 "C") by constructor.
    assert (HB : hops chainABC FilterAll "C" 1 "B").
    { eapply hops_step; [exact HC|]. eexists. exists (rel "B" "C").
      split; [vm_compute; reflexivity|]. split; [|reflexivity].
      apply elem_of_cons. by left. }
    assert (HA : hops chainABC FilterAll "C" 2 "A").
    { eapply hops_step; [exact HB|]. eexists. exists (rel "A" "B").
      split; [vm_compute; reflexivity|]. split; [|reflexivity].
      apply elem_of_cons. by left. }
    intros x Hx. simpl.
    apply elem_of_cons in Hx as [->|Hx]; [exists 0|].
    { split; [lia|]. split; [exact HC|]. eexists. vm_compute. reflexivity. }
    apply elem_of_cons in Hx as [->|Hx]; [exists 1|].
    { split; [lia|]. split; [exact HB|]. eexists. vm_compute. reflexivity. }
    apply elem_of_cons in Hx as [->|Hx]; [exists 2|by apply elem_of_nil in Hx].
    split; [lia|]. split; [exact HA|]. eexists. vm_compute. reflexivity.
  - simpl. lia.
Defined.

(** ** Scenarios of the design document *)

Example scenario_chain_depth3 :
  findRelationshipPaths chainABC
    {| pa_sourceId := "A"; pa_targetId := "C"; pa_maxDepth := Some 3%Z |}
  = Ok [{| fp_length := 2;
           fp_steps := [pathStep (rel "A" "B"); pathStep (rel "B" "C")] |}].
Proof. vm_compute. reflexivity. Qed.

Example scenario_chain_depth1 :
  findRelationshipPaths chainABC
    {| pa_sourceId := "A"; pa_targetId := "C"; pa_maxDepth := Some 1%Z |}
  = Ok [].
Proof. vm_compute. reflexivity. Qed.

Example scenario_tags :
  matchesTags {| ta_allOf := Some ["public"]; ta_anyOf := None; ta_noneOf := Some ["api"] |}
    (list_to_set ["public"; "api"]) = false /\
  matchesTags {| ta_allOf := None; ta_anyOf := Some ["public"; "legacy"]; ta_noneOf := None |}
    (list_to_set ["public"; "api"]) = true.
Proof. split; vm_compute; reflexivity. Qed.

Example scenario_metadata_contains :
  let owner := MetaArray ["platform-team"; "web-team"] in
  matches toLowerCaseAscii owner (Some "WEB") Contains = true /\
  getMatchedValue toLowerCaseAscii owner (Some "WEB") Contains = "web-team".
Proof. split; vm_compute; reflexivity. Qed.

(** * Further properties *)

(** ** query-by-metadata: the result list *)

Lemma getProperty_Some object key property :
  getProperty object key = Some property <->
  (exists metadataValue, object !! key = Some metadataValue /\
                         property = Own metadataValue) \/
  (object !! key = None /\ key ∈ objectPrototypeKeys /\ property = Inherited).
Proof.
  unfold getProperty. destruct (object !! key) as [mv|].
  - split; [intros [= <-]; left; by exists mv|].
    intros [(? & [= <-] & ->)|([=] & _)]. done.
  - case_bool_decide as Hkey.
    + split; [intros [= <-]; by right|]. by intros [(? & [=] & _)|(_ & _ & ->)].
    + split; [done|]. by intros [(? & [=] & _)|(_ & ? & _)].
Qed.

Lemma matches_inherited_Ok value mode hit :
  matches_inherited value mode = Ok hit ->
  hit = match mode with Exists => true | _ => false end.
Proof. destruct mode, value; simpl; congruence. Qed.

Lemma matches_inherited_Err value mode e :
  matches_inherited value mode = Err e ->
  e = NotAFunction "toLowerCase" /\ mode = Contains /\ is_Some value.
Proof.
  destruct mode, value; simpl; try congruence. intros [= <-].
  repeat split. by eexists.
Qed.

(** A search that returns has pushed, after the records it started with, the
    hits of the entities in order, as far as the limit allows. *)
Lemma searchMetadata_Ok toLowerCase limit key value mode entities results out :
  length results <= limit ->
  searchMetadata toLowerCase limit key value mode entities results = Ok out ->
  out = results ++ take (limit - length results)
                     (omap (metadataHit toLowerCase key value mode) entities).
Proof.
  revert results. induction entities as [|e rest IH]; intros results Hle; simpl.
  { intros [= <-]. by rewrite take_nil, app_nil_r. }
  destruct (limit <=? length results) eqn:Hfull.
  { apply Nat.leb_le in Hfull. replace (limit - length results) with 0 by lia.
    intros [= <-]. by rewrite take_0, app_nil_r. }
  apply Nat.leb_gt in Hfull. unfold metadataHit at 1.
  assert (Hpush : forall r,
    searchMetadata toLowerCase limit key value mode rest (results ++ [r]) = Ok out ->
    out = results ++ take (limit - length results)
            (r :: omap (metadataHit toLowerCase key value mode) rest)).
  { intros r Hout. apply IH in Hout; [|rewrite length_app; simpl; lia].
    rewrite Hout, length_app, <- app_assoc. simpl.
    by replace (limit - length results)
      with (S (limit - (length results + 1))) by lia. }
  destruct (getProperty (el_metadata e) key) as [[metadataValue|]|];
    [| |by apply IH].
  - destruct (matches toLowerCase metadataValue value mode);
      [by apply Hpush|by apply IH].
  - destruct (matches_inherited value mode) as [hit|err] eqn:Hhit; [|done].
    apply matches_inherited_Ok in Hhit as ->. simpl.
    destruct mode; [by apply IH|by apply IH|by apply Hpush].
Qed.

(** A search fails only with the [TypeError] of [contains] mode, on a key that
    names an inherited method. *)
Lemma searchMetadata_Err toLowerCase limit key value mode entities results err :
  searchMetadata toLowerCase limit key value mode entities results = Err err ->
  err = NotAFunction "toLowerCase" /\ mode = Contains /\ is_Some value /\
  key ∈ objectPrototypeKeys.
Proof.
  revert results. induction entities as [|e rest IH]; intros results; simpl; [done|].
  destruct (limit <=? length results); [done|].
  destruct (getProperty (el_metadata e) key) as [[metadataValue|]|] eqn:Hkey;
    [| |by apply IH].
  - destruct (matches toLowerCase metadataValue value mode); by apply IH.
  - apply getProperty_Some in Hkey as [(? & _ & [=])|(_ & Hin & _)].
    destruct (matches_inherited value mode) as [hit|err'] eqn:Hhit; simpl.
    + intros Hrest. destruct hit; by apply IH in Hrest.
    + intros [= <-]. apply matches_inherited_Err in Hhit as (? & ? & ?). done.
Qed.

Lemma queryByMetadata_Ok toLowerCase m args results :
  queryByMetadata toLowerCase m args = Ok results ->
  results = take 50 (omap (metadataHit toLowerCase (ma_key args) (ma_value args)
                             (default Exact (ma_matchMode args))) (universe m)).
Proof.
  unfold queryByMetadata, universe.
  destruct (searchMetadata _ _ _ _ _ (elements m) _) as [first|] eqn:Hfirst; [|done].
  apply searchMetadata_Ok in Hfirst; [|simpl; lia]. simpl in Hfirst.
  change (50 - 0) with 50 in Hfirst. simpl.
  set (hit := metadataHit _ _ _ _) in *. rewrite omap_app, take_app.
  destruct (length first <? 50) eqn:Hlt.
  - apply Nat.ltb_lt in Hlt.
    destruct (searchMetadata _ _ _ _ _ (deployment_elements m) _)
      as [second|] eqn:Hsecond; [|done].
    apply searchMetadata_Ok in Hsecond; [|lia]. simpl. intros [= <-].
    rewrite Hsecond. subst first. rewrite length_take in Hlt |- *.
    rewrite (take_ge (omap hit (elements m))) by lia.
    by rewrite Nat.min_r by lia.
  - apply Nat.ltb_ge in Hlt. simpl. intros [= <-]. subst first.
    rewrite length_take in Hlt.
    replace (50 - length (omap hit (elements m))) with 0 by lia.
    by rewrite take_0, app_nil_r.
Qed.

Lemma queryByMetadata_Err toLowerCase m args err :
  queryByMetadata toLowerCase m args = Err err ->
  err = NotAFunction "toLowerCase" /\
  default Exact (ma_matchMode args) = Contains /\
  is_Some (ma_value args) /\
  ma_key args ∈ objectPrototypeKeys.
Proof.
  unfold queryByMetadata.
  destruct (searchMetadata _ _ _ _ _ (elements m) _) as [first|err'] eqn:Hfirst;
    simpl.
  - destruct (length first <? 50); [|done].
    destruct (searchMetadata _ _ _ _ _ (deployment_elements m) _)
      as [second|err'] eqn:Hsecond; [done|].
    simpl. intros [= <-]. by apply searchMetadata_Err in Hsecond.
  - intros [= <-]. by apply searchMetadata_Err in Hfirst.
Qed.

(** X1: A metadata query that returns, returns the list of the first 50 hits,
    the elements scanned before the deployment nodes, each universe in its
    own order, so never more than 50 records; a query fails only with the
    [TypeError] of [contains] mode with a search value, on a key that names
    a method inherited from [Object.prototype]. *)
Theorem queryByMetadata_first_fifty (toLowerCase : string -> string)
    (m : LikeC4Model) (args : MetadataArgs) :
  (forall results,
     queryByMetadata toLowerCase m args = Ok results ->
     results = take 50 (omap (metadataHit toLowerCase (ma_key args) (ma_value args)
                                (default Exact (ma_matchMode args))) (universe m)) /\
     length results <= 50) /\
  (forall err,
     queryByMetadata toLowerCase m args = Err err ->
     err = NotAFunction "toLowerCase" /\
     default Exact (ma_matchMode args) = Contains /\
     is_Some (ma_value args) /\
     ma_key args ∈ objectPrototypeKeys).
Proof.
  split.
  - intros results ->%queryByMetadata_Ok. split; [done|]. rewrite length_take. lia.
  - intros err. apply queryByMetadata_Err.
Qed.

Lemma queryByMetadata_first_fifty_witness :
  exists results,
    queryByMetadata toLowerCaseAscii crowdedModel
      {| ma_key := "owner"; ma_value := Some "PLATFORM"; ma_matchMode := Some Contains |}
    = Ok results /\
    length results <= 50.
Proof.
  eexists. split; [vm_compute; reflexivity|].
  apply (proj1 (queryByMetadata_first_fifty toLowerCaseAscii crowdedModel
    {| ma_key := "owner"; ma_value := Some "PLATFORM";
       ma_matchMode := Some Contains |})).
  vm_compute. reflexivity.
Defined.

Lemma metadataHit_Some toLowerCase key value mode e r :
  metadataHit toLowerCase key value mode e = Some r <->
  (exists metadataValue,
     el_metadata e !! key = Some metadataValue /\
     matches toLowerCase metadataValue value mode = true /\
     r = metadataMatch toLowerCase e metadataValue value mode) \/
  (el_metadata e !! key = None /\ key ∈ objectPrototypeKeys /\ mode = Exists /\
   r = inheritedMatch e).
Proof.
  unfold metadataHit.
  destruct (getProperty (el_metadata e) key) as [[mv|]|] eqn:Hkey.
  - apply getProperty_Some in Hkey as [(? & Hown & [= <-])|(_ & _ & [=])].
    destruct (matches toLowerCase mv value mode) eqn:Hm.
    + split; [intros [= <-]; left; by exists mv|].
      intros [(? & Hown' & _ & ->)|(Hnone & _)]; congruence.
    + split; [done|]. intros [(? & Hown' & ? & _)|(Hnone & _)]; congruence.
  - apply getProperty_Some in Hkey as [(? & _ & [=])|(Hnone & Hin & _)].
    destruct mode.
    + split; [done|]. intros [(? & ? & _)|(_ & _ & [=] & _)]. congruence.
    + split; [done|]. intros [(? & ? & _)|(_ & _ & [=] & _)]. congruence.
    + split; [intros [= <-]; by right|].
      intros [(? & ? & _)|(_ & _ & _ & ->)]; [congruence|done].
  - split; [done|].
    assert (Hnot : forall property, getProperty (el_metadata e) key <> Some property)
      by congruence.
    intros [(mv & Hown & _)|(Hnone & Hin & _)]; exfalso;
      eapply Hnot, getProperty_Some.
    + left. by exists mv.
    + by right.
Qed.

(** X2: Every record of a metadata query describes an entity of the model.
    Either the entity has the key as an own entry with a matching value, and
    the record carries the matched value computed from that entry; or the
    key names a method inherited from [Object.prototype], the entity has no
    own entry for it, the mode is [exists], and the record reports the
    method. *)
Theorem queryByMetadata_sound (toLowerCase : string -> string) (m : LikeC4Model)
    (args : MetadataArgs) (results : list MetadataMatch) (r : MetadataMatch) :
  queryByMetadata toLowerCase m args = Ok results ->
  r ∈ results ->
  exists e,
    e ∈ universe m /\ mm_id r = el_id e /\
    ((exists metadataValue,
        el_metadata e !! ma_key args = Some metadataValue /\
        matches toLowerCase metadataValue (ma_value args)
          (default Exact (ma_matchMode args)) = true /\
        r = metadataMatch toLowerCase e metadataValue (ma_value args)
              (default Exact (ma_matchMode args))) \/
     (el_metadata e !! ma_key args = None /\
      ma_key args ∈ objectPrototypeKeys /\
      default Exact (ma_matchMode args) = Exists /\
      r = inheritedMatch e)).
Proof.
  intros ->%queryByMetadata_Ok Hr.
  apply elem_of_take in Hr as (i & Hr & _). apply list_elem_of_lookup_2 in Hr.
  apply list_elem_of_omap in Hr as (e & He & Hhit).
  apply metadataHit_Some in Hhit. exists e. split; [done|]. split; [|done].
  destruct Hhit as [(? & _ & _ & ->)|(_ & _ & _ & ->)]; done.
Qed.

Lemma queryByMetadata_sound_witness :
  exists results r,
    queryByMetadata toLowerCaseAscii
      (ownedModel (MetaArray ["platform-team"; "web-team"]))
      {| ma_key := "owner"; ma_value := Some "WEB"; ma_matchMode := Some Contains |}
    = Ok results /\ r ∈ results /\
    exists e,
      e ∈ universe (ownedModel (MetaArray ["platform-team"; "web-team"])) /\
      mm_id r = el_id e /\
      ((exists metadataValue,
          el_metadata e !! "owner" = Some metadataValue /\
          matches toLowerCaseAscii metadataValue (Some "WEB") Contains = true /\
          r = metadataMatch toLowerCaseAscii e metadataValue (Some "WEB") Contains) \/
       (el_metadata e !! "owner" = None /\
        "owner" ∈ objectPrototypeKeys /\
        Contains = Exists /\
        r = inheritedMatch e)).
Proof.
  eexists. eexists. split; [vm_compute; reflexivity|].
  split; [apply elem_of_cons; left; reflexivity|].
  eapply (queryByMetadata_sound toLowerCaseAscii
    (ownedModel (MetaArray ["platform-team"; "web-team"]))
    {| ma_key := "owner"; ma_value := Some "WEB"; ma_matchMode := Some Contains |}).
  - vm_compute. reflexivity.
  - apply elem_of_cons. left. reflexivity.
Defined.

(** X3: When a metadata query returns fewer than 50 records, no matching entity
    of either universe is missing from the result. *)
Theorem queryByMetadata_complete (toLowerCase : string -> string) (m : LikeC4Model)
    (args : MetadataArgs) (results : list MetadataMatch) (e : Element)
    (metadataValue : MetadataValue) :
  queryByMetadata toLowerCase m args = Ok results ->
  length results < 50 ->
  e ∈ universe m ->
  el_metadata e !! ma_key args = Some metadataValue ->
  matches toLowerCase metadataValue (ma_value args)
    (default Exact (ma_matchMode args)) = true ->
  metadataMatch toLowerCase e metadataValue (ma_value args)
    (default Exact (ma_matchMode args))
    ∈ results.
Proof.
  intros ->%queryByMetadata_Ok Hlen He Hkey Hmatch.
  rewrite length_take in Hlen. rewrite take_ge by lia.
  apply list_elem_of_omap. exists e. split; [done|].
  apply metadataHit_Some. left. by exists metadataValue.
Qed.

Lemma queryByMetadata_complete_witness :
  exists results,
    queryByMetadata toLowerCaseAscii (ownedModel (MetaString "platform-team"))
      {| ma_key := "owner"; ma_value := Some "platform-team"; ma_matchMode := None |}
    = Ok results /\
    metadataMatch toLowerCaseAscii (ownedElement "prod.eu" (MetaString "platform-team"))
      (MetaString "platform-team") (Some "platform-team") Exact ∈ results.
Proof.
  eexists. split; [vm_compute; reflexivity|].
  eapply (queryByMetadata_complete toLowerCaseAscii
    (ownedModel (MetaString "platform-team"))
    {| ma_key := "owner"; ma_value := Some "platform-team"; ma_matchMode := None |}).
  - vm_compute. reflexivity.
  - vm_compute. lia.
  - apply elem_of_cons. right. apply elem_of_cons. left. reflexivity.
  - vm_compute. reflexivity.
  - vm_compute. reflexivity.
Defined.

(** X4: Once 50 elements match, the deployment nodes play no part: a query that
    returns, returns the first 50 matching elements, and every record
    describes an element. *)
Theorem queryByMetadata_elements_fill (toLowerCase : string -> string)
    (m : LikeC4Model) (args : MetadataArgs) (results : list MetadataMatch) :
  let hit := metadataHit toLowerCase (ma_key args) (ma_value args)
               (default Exact (ma_matchMode args)) in
  queryByMetadata toLowerCase m args = Ok results ->
  50 <= length (omap hit (elements m)) ->
  results = take 50 (omap hit (elements m)) /\
  Forall (fun r => exists e, e ∈ elements m /\ mm_id r = el_id e) results.
Proof.
  intros hit ->%queryByMetadata_Ok Hfull. fold hit. unfold universe.
  rewrite omap_app, take_app.
  replace (50 - length (omap hit (elements m))) with 0 by lia.
  rewrite take_0, app_nil_r. split; [done|].
  apply Forall_forall. intros r Hr.
  apply elem_of_take in Hr as (i & Hr & _). apply list_elem_of_lookup_2 in Hr.
  apply list_elem_of_omap in Hr as (e & He & Hhit). exists e. split; [done|].
  apply metadataHit_Some in Hhit as [(? & _ & _ & ->)|(_ & _ & _ & ->)]; done.
Qed.

Lemma queryByMetadata_elements_fill_witness :
  exists results,
    queryByMetadata toLowerCaseAscii crowdedModel
      {| ma_key := "owner"; ma_value := None; ma_matchMode := Some Exists |}
    = Ok results /\
    Forall (fun r => exists e, e ∈ elements crowdedModel /\ mm_id r = el_id e) results.
Proof.
  eexists. split; [vm_compute; reflexivity|].
  apply (queryByMetadata_elements_fill toLowerCaseAscii crowdedModel
      {| ma_key := "owner"; ma_value := None; ma_matchMode := Some Exists |}).
  - vm_compute. reflexivity.
  - vm_compute. lia.
Defined.

(** A query in [exists] mode returns. *)
Lemma queryByMetadata_exists_Ok toLowerCase m key value :
  exists results,
    queryByMetadata toLowerCase m
      {| ma_key := key; ma_value := value; ma_matchMode := Some Exists |}
    = Ok results.
Proof.
  destruct (queryByMetadata toLowerCase m _) as [results|err] eqn:Hcall;
    [by eexists|].
  by apply queryByMetadata_Err in Hcall as (_ & [=] & _).
Qed.

Lemma metadataHit_exists_value toLowerCase key value value'
    (entities : list Element) :
  omap (metadataHit toLowerCase key value Exists) entities
  = omap (metadataHit toLowerCase key value' Exists) entities.
Proof.
  induction entities as [|e rest IH]; [done|].
  cbn [omap list_omap]. rewrite IH.
  assert (metadataHit toLowerCase key value Exists e
          = metadataHit toLowerCase key value' Exists e) as ->; [|done].
  unfold metadataHit.
  destruct (getProperty (el_metadata e) key) as [[mv|]|]; [|done..]. simpl.
  unfold metadataMatch, getMatchedValue. by destruct value, value'.
Qed.

(** X5: In [exists] mode the search value plays no part in the result. *)
Theorem queryByMetadata_exists_ignores_value (toLowerCase : string -> string)
    (m : LikeC4Model) (key : string) (value value' : option string) :
  queryByMetadata toLowerCase m
    {| ma_key := key; ma_value := value; ma_matchMode := Some Exists |}
  = queryByMetadata toLowerCase m
      {| ma_key := key; ma_value := value'; ma_matchMode := Some Exists |}.
Proof.
  destruct (queryByMetadata_exists_Ok toLowerCase m key value) as [r Hr].
  destruct (queryByMetadata_exists_Ok toLowerCase m key value') as [r' Hr'].
  rewrite Hr, Hr'. f_equal.
  apply queryByMetadata_Ok in Hr as ->. apply queryByMetadata_Ok in Hr' as ->.
  cbn [ma_key ma_value ma_matchMode default].
  by rewrite (metadataHit_exists_value toLowerCase key value value').
Qed.

Lemma metadataHit_inherited_ids toLowerCase key value (entities : list Element) :
  key ∈ objectPrototypeKeys ->
  map mm_id (omap (metadataHit toLowerCase key value Exists) entities)
  = map el_id entities.
Proof.
  intros Hkey. induction entities as [|e rest IH]; [done|].
  cbn [omap list_omap]. unfold metadataHit at 1.
  destruct (getProperty (el_metadata e) key) as [[mv|]|] eqn:Hget; simpl.
  - by rewrite IH.
  - by rewrite IH.
  - exfalso. unfold getProperty in Hget.
    destruct (el_metadata e !! key); [done|]. by rewrite bool_decide_true in Hget.
Qed.

(** X28: On a key that names a method inherited from [Object.prototype], every
    entity passes the [in] test.  In [exists] mode the query reports every
    entity, up to 50, and an entity without an own entry for the key is
    reported with the method as its matched value.  In [contains] mode with
    a search value, the query fails with a [TypeError] when the first
    element has no own entry for the key. *)
Theorem queryByMetadata_inherited_key (toLowerCase : string -> string)
    (m : LikeC4Model) (key : string) (value : option string) :
  key ∈ objectPrototypeKeys ->
  (exists results,
     queryByMetadata toLowerCase m
       {| ma_key := key; ma_value := value; ma_matchMode := Some Exists |}
     = Ok results /\
     map mm_id results = take 50 (map el_id (universe m)) /\
     forall e, e ∈ universe m -> el_metadata e !! key = None ->
       length results < 50 -> inheritedMatch e ∈ results) /\
  (forall sv e rest,
     elements m = e :: rest -> el_metadata e !! key = None ->
     queryByMetadata toLowerCase m
       {| ma_key := key; ma_value := Some sv; ma_matchMode := Some Contains |}
     = Err (NotAFunction "toLowerCase")).
Proof.
  intros Hkey. split.
  - destruct (queryByMetadata_exists_Ok toLowerCase m key value) as [results Hcall].
    exists results. split; [done|].
    apply queryByMetadata_Ok in Hcall as ->.
    cbn [ma_key ma_value ma_matchMode default]. split.
    + rewrite <- (metadataHit_inherited_ids toLowerCase key value) by done.
      symmetry. apply firstn_map.
    + intros e He Hnone Hlen. rewrite length_take in Hlen.
      rewrite take_ge by lia. apply list_elem_of_omap. exists e. split; [done|].
      apply metadataHit_Some. by right.
  - intros sv e rest Hel Hnone. unfold queryByMetadata. rewrite Hel. simpl.
    unfold getProperty. by rewrite Hnone, bool_decide_true.
Qed.

Lemma queryByMetadata_inherited_key_witness :
  exists results,
    queryByMetadata toLowerCaseAscii (ownedModel (MetaString "platform-team"))
      {| ma_key := "constructor"; ma_value := None; ma_matchMode := Some Exists |}
    = Ok results /\
    map mm_id results = ["shop.frontend"; "prod.eu"] /\
    map mm_matchedValue results = [MatchedInherited; MatchedInherited] /\
    queryByMetadata toLowerCaseAscii (ownedModel (MetaString "platform-team"))
      {| ma_key := "constructor"; ma_value := Some "x"; ma_matchMode := Some Contains |}
    = Err (NotAFunction "toLowerCase").
Proof.
  assert (Hkey : "constructor" ∈ objectPrototypeKeys).
  { apply elem_of_cons. by left. }
  destruct (queryByMetadata_inherited_key toLowerCaseAscii
              (ownedModel (MetaString "platform-team")) "constructor" None Hkey)
    as [(results & Hcall & _) Hthrows].
  exists results. split; [exact Hcall|].
  assert (Hresults : Ok results
    = Ok [inheritedMatch (ownedElement "shop.frontend" (MetaString "platform-team"));
          inheritedMatch (ownedElement "prod.eu" (MetaString "platform-team"))]).
  { rewrite <- Hcall. vm_compute. reflexivity. }
  injection Hresults as ->. split; [reflexivity|]. split; [reflexivity|].
  eapply Hthrows; [reflexivity|]. vm_compute. reflexivity.
Defined.

(** ** query-by-tags: the predicate and the result list *)

Lemma specified_false o : specified o = false <-> tagList o = [].
Proof. destruct o as [[|]|]; simpl; split; done. Qed.

Lemma has_true (tags : gset string) tag : has tags tag = true <-> tag ∈ tags.
Proof. unfold has. by rewrite bool_decide_eq_true. Qed.

Lemma forallb_has (tags : gset string) l :
  forallb (has tags) l = true <-> forall tag, tag ∈ l -> tag ∈ tags.
Proof.
  rewrite forallb_forall. split; intros H tag Hin.
  - apply has_true, H. by apply list_elem_of_In.
  - apply has_true, H. by apply list_elem_of_In.
Qed.

Lemma existsb_has (tags : gset string) l :
  existsb (has tags) l = true <-> exists tag, tag ∈ l /\ tag ∈ tags.
Proof.
  rewrite existsb_exists. split; intros (tag & Hin & Hhas); exists tag.
  - split; [by apply list_elem_of_In|by apply has_true].
  - split; [by apply list_elem_of_In|by apply has_true].
Qed.

Lemma matchesTags_conj args tags :
  matchesTags args tags
  = (negb (specified (ta_allOf args)) || forallb (has tags) (tagList (ta_allOf args)))
    && (negb (specified (ta_anyOf args)) || existsb (has tags) (tagList (ta_anyOf args)))
    && (negb (specified (ta_noneOf args))
        || negb (existsb (has tags) (tagList (ta_noneOf args)))).
Proof.
  unfold matchesTags.
  destruct (specified (ta_allOf args)), (forallb _ (tagList (ta_allOf args))),
    (specified (ta_anyOf args)), (existsb _ (tagList (ta_anyOf args))),
    (specified (ta_noneOf args)), (existsb _ (tagList (ta_noneOf args))); done.
Qed.

Lemma all_tags (tags : gset string) o :
  negb (specified o) || forallb (has tags) (tagList o) = true <->
  forall tag, tag ∈ tagList o -> tag ∈ tags.
Proof.
  rewrite <- forallb_has. destruct (specified o) eqn:Hs; simpl; [done|].
  apply specified_false in Hs. by rewrite Hs.
Qed.

Lemma some_tag (tags : gset string) o :
  negb (specified o) || existsb (has tags) (tagList o) = true <->
  tagList o = [] \/ exists tag, tag ∈ tagList o /\ tag ∈ tags.
Proof.
  rewrite <- existsb_has. destruct (specified o) eqn:Hs; simpl.
  - split; [by right|]. intros [Hnil|?]; [|done].
    apply specified_false in Hnil. congruence.
  - apply specified_false in Hs. split; [by left|done].
Qed.

Lemma no_tag (tags : gset string) o :
  negb (specified o) || negb (existsb (has tags) (tagList o)) = true <->
  forall tag, tag ∈ tagList o -> tag ∉ tags.
Proof.
  assert (Hnone : negb (existsb (has tags) (tagList o)) = true <->
                  forall tag, tag ∈ tagList o -> tag ∉ tags).
  { rewrite negb_true_iff, <- not_true_iff_false, existsb_has. split.
    - intros Hno tag Hin Hhas. apply Hno. by exists tag.
    - intros Hno (tag & Hin & Hhas). by apply (Hno tag). }
  rewrite <- Hnone. destruct (specified o) eqn:Hs; simpl; [done|].
  apply specified_false in Hs. by rewrite Hs.
Qed.

(** X7: The tag predicate holds exactly when the tag set contains every tag of
    [allOf], contains some tag of [anyOf] unless that list is empty or
    omitted, and contains no tag of [noneOf]. *)
Theorem matchesTags_spec (args : TagArgs) (tags : gset string) :
  matchesTags args tags = true <->
  (forall tag, tag ∈ tagList (ta_allOf args) -> tag ∈ tags) /\
  (tagList (ta_anyOf args) = [] \/
   exists tag, tag ∈ tagList (ta_anyOf args) /\ tag ∈ tags) /\
  (forall tag, tag ∈ tagList (ta_noneOf args) -> tag ∉ tags).
Proof.
  rewrite matchesTags_conj, !andb_true_iff, all_tags, some_tag, no_tag. tauto.
Qed.

Lemma searchTags_take limit args entities results :
  length results <= limit ->
  searchTags limit args entities results
  = results ++ take (limit - length results)
                 (tagMatch <$> filter (fun e => matchesTags args (tagsOf e) = true) entities).
Proof.
  revert results. induction entities as [|e rest IH]; intros results Hle; simpl.
  { by rewrite take_nil, app_nil_r. }
  destruct (limit <=? length results) eqn:Hfull.
  { apply Nat.leb_le in Hfull. replace (limit - length results) with 0 by lia.
    by rewrite take_0, app_nil_r. }
  apply Nat.leb_gt in Hfull. rewrite filter_cons. fold (tagsOf e).
  destruct (matchesTags args (tagsOf e)) eqn:Hm; case_decide; try done;
    [|by apply IH].
  rewrite IH by (rewrite length_app; simpl; lia).
  rewrite length_app, <- app_assoc. simpl.
  replace (limit - length results) with (S (limit - (length results + 1))) by lia.
  done.
Qed.

Lemma queryByTags_take m args :
  specified (ta_allOf args) || specified (ta_anyOf args) || specified (ta_noneOf args)
  = true ->
  queryByTags m args
  = Ok (take 50 (tagMatch <$> filter (fun e => matchesTags args (tagsOf e) = true)
                                 (universe m))).
Proof.
  intros Hspec. unfold queryByTags, universe. rewrite Hspec. simpl.
  rewrite (searchTags_take 50 args (elements m) []) by (simpl; lia).
  set (P := fun e : Element => matchesTags args (tagsOf e) = true).
  cbn [app length]. change (50 - 0) with 50. rewrite filter_app, fmap_app.
  destruct (length (take 50 (tagMatch <$> filter P (elements m))) <? 50) eqn:Hlt.
  - apply Nat.ltb_lt in Hlt. rewrite searchTags_take by lia.
    rewrite length_take in Hlt |- *.
    rewrite take_app, (take_ge (tagMatch <$> filter P (elements m))) by lia.
    by rewrite Nat.min_r by lia.
  - apply Nat.ltb_ge in Hlt. rewrite length_take in Hlt.
    rewrite take_app.
    replace (50 - length (tagMatch <$> filter P (elements m))) with 0 by lia.
    by rewrite take_0, app_nil_r.
Qed.

(** X8: A tag query fails exactly when all three tag lists are empty or omitted,
    and then with the missing-condition failure; otherwise it succeeds. *)
Theorem queryByTags_requires_condition (m : LikeC4Model) (args : TagArgs) :
  (queryByTags m args = Err NoTagCondition <->
   tagList (ta_allOf args) = [] /\ tagList (ta_anyOf args) = [] /\
   tagList (ta_noneOf args) = []) /\
  (forall e, queryByTags m args = Err e -> e = NoTagCondition).
Proof.
  rewrite <- !specified_false.
  destruct (specified (ta_allOf args) || specified (ta_anyOf args)
            || specified (ta_noneOf args)) eqn:Hspec.
  - rewrite queryByTags_take by done. split; [|done]. split; [done|].
    intros (Ha & Hb & Hc). by rewrite Ha, Hb, Hc in Hspec.
  - unfold queryByTags. rewrite Hspec. simpl. split; [|by intros e [= <-]].
    split; [intros _|done].
    apply orb_false_iff in Hspec as [[? ?]%orb_false_iff ?]. done.
Qed.

(** X9: With at least one tag given, the result of a tag query is the list of the
    first 50 entities whose tags satisfy the predicate, elements before
    deployment nodes; it never holds more than 50 records. *)
Theorem queryByTags_first_fifty (m : LikeC4Model) (args : TagArgs) :
  tagList (ta_allOf args) ++ tagList (ta_anyOf args) ++ tagList (ta_noneOf args) <> [] ->
  exists results,
    queryByTags m args = Ok results /\
    results = take 50 (tagMatch <$> filter (fun e => matchesTags args (tagsOf e) = true)
                                      (universe m)) /\
    length results <= 50.
Proof.
  intros Hsome. eexists. split; [apply queryByTags_take|].
  - destruct (specified (ta_allOf args)) eqn:Ha; [done|].
    destruct (specified (ta_anyOf args)) eqn:Hb; [done|].
    destruct (specified (ta_noneOf args)) eqn:Hc; [done|].
    apply specified_false in Ha, Hb, Hc. by rewrite Ha, Hb, Hc in Hsome.
  - split; [done|]. rewrite length_take. lia.
Qed.

Lemma queryByTags_first_fifty_witness :
  exists results,
    queryByTags (ownedModel (MetaString "platform-team"))
      {| ta_allOf := Some ["public"]; ta_anyOf := None; ta_noneOf := Some ["internal"] |}
    = Ok results /\ length results = 2.
Proof.
  destruct (queryByTags_first_fifty (ownedModel (MetaString "platform-team"))
    {| ta_allOf := Some ["public"]; ta_anyOf := None; ta_noneOf := Some ["internal"] |})
    as (results & Hcall & Hresults & _); [discriminate|].
  exists results. split; [exact Hcall|]. rewrite Hresults. vm_compute. reflexivity.
Defined.

(** X10: An entity returned by a tag query satisfies the predicate, and when the
    query returns fewer than 50 records every entity that satisfies the
    predicate is returned. *)
Theorem queryByTags_membership (m : LikeC4Model) (args : TagArgs)
    (results : list TagMatch) (e : Element) :
  queryByTags m args = Ok results ->
  e ∈ universe m ->
  (tagMatch e ∈ results -> matchesTags args (tagsOf e) = true) /\
  (length results < 50 -> matchesTags args (tagsOf e) = true -> tagMatch e ∈ results).
Proof.
  intros Hcall He.
  destruct (specified (ta_allOf args) || specified (ta_anyOf args)
            || specified (ta_noneOf args)) eqn:Hspec.
  2: { unfold queryByTags in Hcall. by rewrite Hspec in Hcall. }
  rewrite queryByTags_take in Hcall by done. injection Hcall as <-. split.
  - intros (i & Hr & _)%elem_of_take. apply list_elem_of_lookup_2 in Hr.
    apply list_elem_of_fmap in Hr as (e' & Heq & He').
    apply list_elem_of_filter in He' as [Hm _].
    unfold tagsOf in *. replace (el_tags e) with (tm_tags (tagMatch e)) by done.
    by rewrite Heq.
  - intros Hlen Hm. rewrite length_take in Hlen. rewrite take_ge by lia.
    apply list_elem_of_fmap. exists e. split; [done|]. by apply list_elem_of_filter.
Qed.

Lemma queryByTags_membership_witness :
  exists results,
    queryByTags (ownedModel (MetaString "platform-team"))
      {| ta_allOf := None; ta_anyOf := Some ["public"; "legacy"]; ta_noneOf := None |}
    = Ok results /\
    tagMatch (ownedElement "shop.frontend" (MetaString "platform-team")) ∈ results.
Proof.
  eexists. split; [vm_compute; reflexivity|].
  eapply (queryByTags_membership (ownedModel (MetaString "platform-team"))
    {| ta_allOf := None; ta_anyOf := Some ["public"; "legacy"]; ta_noneOf := None |}).
  - vm_compute. reflexivity.
  - apply elem_of_cons. left. reflexivity.
  - vm_compute. lia.
  - vm_compute. reflexivity.
Defined.

(** ** find-relationship-paths: what the search finds *)

Lemma endOf_nil x : endOf x [] = x.
Proof. done. Qed.

Lemma endOf_snoc x rels r : endOf x (rels ++ [r]) = rel_target r.
Proof.
  unfold endOf. rewrite map_app.
  change (map rel_target [r]) with [rel_target r]. by rewrite last_snoc.
Qed.

Lemma endOf_cons x r rels : endOf x (r :: rels) = endOf (rel_target r) rels.
Proof.
  unfold endOf. destruct rels as [|r' rels]; [done|].
  change (map rel_target (r :: r' :: rels))
    with (rel_target r :: map rel_target (r' :: rels)).
  rewrite last_cons. by destruct (last (map rel_target (r' :: rels))) eqn:Hl.
Qed.

Lemma walk_app m x before after :
  walk m x (before ++ after) <-> walk m x before /\ walk m (endOf x before) after.
Proof.
  revert x. induction before as [|r before IH]; intros x.
  - simpl. rewrite endOf_nil. tauto.
  - simpl. rewrite endOf_cons, IH. tauto.
Qed.

Lemma map_step_target rels : map step_target (map pathStep rels) = map rel_target rels.
Proof. induction rels as [|r rels IH]; [done|]. simpl. by rewrite IH. Qed.

Lemma exploreRels_ind targetId current (P : list PathNode * list FoundPath -> Prop)
    rels acc :
  P acc ->
  (forall acc r, r ∈ rels -> P acc -> P (exploreRel targetId current acc r)) ->
  P (fold_left (exploreRel targetId current) rels acc).
Proof.
  revert acc. induction rels as [|r rels IH]; intros acc Hacc Hstep; [done|].
  simpl. apply IH.
  - apply Hstep; [by apply elem_of_cons; left|done].
  - intros acc' r' Hr'. apply Hstep. by apply elem_of_cons; right.
Qed.

Lemma exploreRel_keeps targetId current acc r :
  (forall n, n ∈ acc.1 -> n ∈ (exploreRel targetId current acc r).1) /\
  (forall p, p ∈ acc.2 -> p ∈ (exploreRel targetId current acc r).2).
Proof.
  unfold exploreRel. destruct (String.eqb _ _); [|case_bool_decide]; simpl;
    split; intros ? ?; try done; apply elem_of_app; by left.
Qed.

Lemma exploreRels_keeps targetId current rels acc :
  (forall n, n ∈ acc.1 -> n ∈ (fold_left (exploreRel targetId current) rels acc).1) /\
  (forall p, p ∈ acc.2 -> p ∈ (fold_left (exploreRel targetId current) rels acc).2).
Proof.
  revert acc. induction rels as [|r rels IH]; intros acc; [done|]. simpl.
  destruct (IH (exploreRel targetId current acc r)) as [IH1 IH2].
  destruct (exploreRel_keeps targetId current acc r) as [K1 K2].
  split; intros ? ?; [apply IH1, K1|apply IH2, K2]; done.
Qed.

(** What the loop over the outgoing relationships does with one of them. *)
Lemma exploreRels_effect targetId current rels acc r :
  r ∈ rels ->
  (rel_target r = targetId ->
   {| fp_length := length (pn_path current) + 1;
      fp_steps := pn_path current ++ [pathStep r] |}
   ∈ (fold_left (exploreRel targetId current) rels acc).2) /\
  (rel_target r <> targetId -> rel_target r ∉ pn_visited current ->
   {| pn_elementId := rel_target r;
      pn_path := pn_path current ++ [pathStep r];
      pn_visited := pn_visited current ∪ {[rel_target r]} |}
   ∈ (fold_left (exploreRel targetId current) rels acc).1).
Proof.
  revert acc. induction rels as [|r' rels IH]; intros acc Hr.
  { by apply elem_of_nil in Hr. }
  apply elem_of_cons in Hr as [->|Hr]; [|by apply IH]. simpl.
  destruct (exploreRels_keeps targetId current rels (exploreRel targetId current acc r'))
    as [K1 K2].
  split.
  - intros Ht. apply K2. unfold exploreRel.
    apply String.eqb_eq in Ht. rewrite Ht. simpl.
    apply elem_of_app. right. by apply list_elem_of_singleton.
  - intros Ht Hv. apply K1. unfold exploreRel.
    apply String.eqb_neq in Ht. rewrite Ht. rewrite bool_decide_eq_false_2 by done.
    simpl. apply elem_of_app. right. by apply list_elem_of_singleton.
Qed.

Lemma exploreRels_count targetId current rels acc :
  length (fold_left (exploreRel targetId current) rels acc).2
  <= length acc.2 + length rels.
Proof.
  revert acc. induction rels as [|r rels IH]; intros acc; simpl; [lia|].
  specialize (IH (exploreRel targetId current acc r)).
  assert (length (exploreRel targetId current acc r).2 <= length acc.2 + 1); [|lia].
  unfold exploreRel. destruct (String.eqb _ _); [|case_bool_decide]; simpl;
    rewrite ?length_app; simpl; lia.
Qed.

Lemma simplePath_next m sourceId targetId before r rest :
  simplePath m sourceId targetId (before ++ r :: rest) ->
  (exists e, findElement m (endOf sourceId before) = Some e /\ r ∈ el_outgoing e) /\
  (rel_target r ∉ pathNodes sourceId (map pathStep before)) /\
  (rel_target r = targetId <-> rest = []).
Proof.
  intros (Hwalk & Hnodup & Hlast).
  apply walk_app in Hwalk as [_ [Hout _]]. split; [done|].
  rewrite map_app in Hnodup, Hlast.
  change (map rel_target (r :: rest)) with (rel_target r :: map rel_target rest)
    in Hnodup, Hlast.
  rewrite app_comm_cons in Hnodup.
  apply NoDup_app in Hnodup as (_ & Hdisj & Htail).
  apply NoDup_cons in Htail as [Hr _].
  split.
  - unfold pathNodes. rewrite map_step_target. intros Hin.
    apply (Hdisj _ Hin). by apply elem_of_cons; left.
  - rewrite last_app_cons in Hlast. split.
    + intros Ht. destruct rest as [|r' rest]; [done|exfalso].
      change (map rel_target (r' :: rest)) with (rel_target r' :: map rel_target rest)
        in Hlast, Hr.
      rewrite last_cons_cons in Hlast. apply last_Some_elem_of in Hlast.
      by rewrite Ht in Hr.
    + intros ->. simpl in Hlast. by injection Hlast.
Qed.

Section PathTracking.
Context (m : LikeC4Model) (sourceId targetId : string) (maxDepth : Z).

Lemma pathBody_track st :
  pathInv sourceId targetId maxDepth st ->
  pathTrack m sourceId targetId maxDepth st ->
  pathCond st = true ->
  pathTrack m sourceId targetId maxDepth (pathBody m targetId maxDepth st).
Proof.
  intros [Hq _] [Hnodes Hfound Hpend Hcount] Hcond.
  unfold pathCond in Hcond. apply andb_true_iff in Hcond as [_ Hcap].
  apply Nat.ltb_lt in Hcap. unfold maxPaths in Hcap.
  unfold pathBody. destruct (ps_queue st) as [|current queue] eqn:Hqueue.
  { constructor; try done. by rewrite Hqueue. }
  apply Forall_cons in Hq as [(_ & Hvis & _) _].
  apply Forall_cons in Hnodes as [(crels & Hcpath & Hcwalk & Hcend) Hnodes].
  assert (Hskip :
    ((maxDepth <= Z.of_nat (length (pn_path current)))%Z \/
     findElement m (pn_elementId current) = None) ->
    pathTrack m sourceId targetId maxDepth
      {| ps_queue := queue; ps_foundPaths := ps_foundPaths st;
         ps_shifted := ps_shifted st ++ [pn_elementId current] |}).
  { intros Hreason. constructor; simpl; try done.
    intros rels Hsimple Hlen.
    destruct (Hpend rels Hsimple Hlen)
      as [?|(before & r & rest & item & -> & Hitem & Hpath & Hend)]; [by left|].
    rewrite Hqueue in Hitem. apply elem_of_cons in Hitem as [->|Hitem].
    - exfalso. destruct Hreason as [Hdeep|Hnone].
      + rewrite Hpath, length_map in Hdeep. rewrite length_app in Hlen.
        simpl in Hlen. lia.
      + apply simplePath_next in Hsimple as ((e & He & _) & _).
        rewrite Hend in Hnone. congruence.
    - right. by exists before, r, rest, item. }
  destruct (maxDepth <=? _)%Z eqn:Hdepth.
  { apply Z.leb_le in Hdepth. apply Hskip. by left. }
  destruct (findElement m (pn_elementId current)) as [currentElement|] eqn:Hel.
  2: { apply Hskip. by right. }
  set (acc := fold_left _ _ _).
  destruct (exploreRels_keeps targetId current (el_outgoing currentElement)
              (queue, ps_foundPaths st)) as [Kq Kf]. fold acc in Kq, Kf.
  constructor; simpl.
  - apply (exploreRels_ind targetId current
             (fun acc => Forall (nodeBacked m sourceId) acc.1)); [done|].
    intros a r Hr Ha. unfold exploreRel.
    destruct (String.eqb _ _); [done|]. case_bool_decide; [done|]. simpl.
    apply Forall_app. split; [done|]. apply Forall_singleton.
    exists (crels ++ [r]). simpl. rewrite map_app, Hcpath, endOf_snoc.
    repeat split; try done. apply walk_app. split; [done|]. simpl. split; [|done].
    exists currentElement. by rewrite <- Hcend.
  - apply (exploreRels_ind targetId current
             (fun acc => Forall (foundBacked m sourceId) acc.2)); [done|].
    intros a r Hr Ha. unfold exploreRel.
    destruct (String.eqb _ _); [|by case_bool_decide]. simpl.
    apply Forall_app. split; [done|]. apply Forall_singleton.
    exists (crels ++ [r]). split.
    + unfold foundPath. by rewrite length_app, map_app, Hcpath, length_map.
    + apply walk_app. split; [done|]. simpl. split; [|done].
      exists currentElement. by rewrite <- Hcend.
  - intros rels Hsimple Hlen.
    destruct (Hpend rels Hsimple Hlen)
      as [?|(before & r & rest & item & -> & Hitem & Hpath & Hend)].
    { left. by apply Kf. }
    rewrite Hqueue in Hitem. apply elem_of_cons in Hitem as [->|Hitem].
    2: { right. exists before, r, rest, item. repeat split; try done. by apply Kq. }
    apply simplePath_next in Hsimple as ((e & He & Hr) & Hfresh & Hfinal).
    rewrite <- Hend, Hel in He. injection He as <-.
    destruct (exploreRels_effect targetId current (el_outgoing currentElement)
                (queue, ps_foundPaths st) r Hr) as [Hreach Hpush].
    fold acc in Hreach, Hpush.
    destruct (decide (rel_target r = targetId)) as [Ht|Ht].
    + left. apply Hfinal in Ht as ->. specialize (Hreach (proj2 Hfinal eq_refl)).
      rewrite Hpath, length_map in Hreach.
      unfold foundPath. rewrite length_app, map_app. exact Hreach.
    + right. destruct rest as [|r' rest]; [by destruct Ht; apply Hfinal|].
      exists (before ++ [r]), r', rest. eexists.
      split; [by rewrite <- app_assoc|].
      split; [apply Hpush; [done|]; by rewrite Hvis, Hpath|].
      simpl. by rewrite map_app, Hpath, endOf_snoc.
  - pose proof (exploreRels_count targetId current (el_outgoing currentElement)
                  (queue, ps_foundPaths st)) as Hgrow.
    fold acc in Hgrow. simpl in Hgrow.
    pose proof (outgoing_degree m _ _ Hel). lia.
Qed.

Lemma pathInit_track source :
  el_id source = sourceId ->
  pathTrack m sourceId targetId maxDepth (pathInit source).
Proof.
  intros Hid. constructor; simpl; try done.
  - apply Forall_singleton. exists []. by rewrite Hid.
  - intros rels (_ & _ & Hlast) _. right.
    destruct rels as [|r rest]; [done|].
    exists [], r, rest. eexists. split; [done|].
    split; [by apply list_elem_of_singleton|]. by rewrite Hid.
  - lia.
Qed.
End PathTracking.

Lemma pathSearch_track m source target maxDepth :
  el_id source <> el_id target ->
  pathTrack m (el_id source) (el_id target) maxDepth
    (pathSearch m source target maxDepth).
Proof.
  intros Hne. unfold pathSearch.
  apply (while_loop_invariant _ _
    (fun st => pathInv (el_id source) (el_id target) maxDepth st /\
               pathTrack m (el_id source) (el_id target) maxDepth st)).
  - intros st [Hinv Htrack] Hcond. split.
    + by apply pathBody_inv.
    + by apply pathBody_track.
  - split; [by apply pathInit_inv|by apply pathInit_track].
Qed.

Lemma sortInsert_length {A} (compareFn : A -> A -> Z) x l :
  length (sortInsert compareFn x l) = S (length l).
Proof.
  induction l as [|y l IH]; simpl; [done|].
  destruct (compareFn x y <=? 0)%Z; simpl; [done|]. by rewrite IH.
Qed.

Lemma sort_length {A} (compareFn : A -> A -> Z) l :
  length (sort compareFn l) = length l.
Proof.
  induction l as [|x l IH]; [done|].
  change (sort compareFn (x :: l)) with (sortInsert compareFn x (sort compareFn l)).
  by rewrite sortInsert_length, IH.
Qed.

(** A successful call has passed every check and returns the sorted list of
    the paths that the search has found. *)
Lemma findRelationshipPaths_run m args paths :
  findRelationshipPaths m args = Ok paths ->
  let maxDepth := Z.min (default 3%Z (pa_maxDepth args)) 5 in
  exists source target,
    findElement m (pa_sourceId args) = Some source /\
    findElement m (pa_targetId args) = Some target /\
    el_id source = pa_sourceId args /\ el_id target = pa_targetId args /\
    pa_sourceId args <> pa_targetId args /\
    paths = sort compareLength (ps_foundPaths (pathSearch m source target maxDepth)).
Proof.
  intros (args' & st & Hschema & Hsearch & ->)%findRelationshipPaths_Ok.
  apply findRelationshipPaths_inputSchema_Ok in Hschema as (v & Hv & ->).
  unfold findRelationshipPaths_search, findRelationshipPaths_validate in Hsearch.
  simpl in Hsearch.
  destruct (findElement m (pa_sourceId args)) as [source|] eqn:Hs; [|done].
  destruct (findElement m (pa_targetId args)) as [target|] eqn:Ht; [|done].
  simpl in Hsearch.
  destruct (String.eqb (el_id source) (el_id target)) eqn:Hsame; [done|].
  simpl in Hsearch. destruct (_ && _); [|done]. simpl in Hsearch.
  injection Hsearch as <-.
  pose proof (findElement_id _ _ _ Hs) as Hsid.
  pose proof (findElement_id _ _ _ Ht) as Htid.
  apply String.eqb_neq in Hsame. rewrite Hsid, Htid in Hsame.
  assert (Heff : Z.min (default 3%Z (pa_maxDepth args)) 5 = Z.min v 5).
  { apply zIntRange_Ok in Hv as [[-> ->]|[-> _]]; done. }
  cbv zeta. rewrite Heff. by exists source, target.
Qed.

(** X11: Every returned path records a chain of relationships of the model: the
    first is yielded by [outgoing()] of the source, each next one by
    [outgoing()] of the element the previous one leads to, the last one leads
    to the target, no entity occurs twice, and the chain is no longer than
    the effective [maxDepth]. *)
Theorem findRelationshipPaths_sound (m : LikeC4Model) (args : PathArgs)
    (paths : list FoundPath) (p : FoundPath) :
  findRelationshipPaths m args = Ok paths ->
  p ∈ paths ->
  exists rels,
    p = foundPath rels /\
    simplePath m (pa_sourceId args) (pa_targetId args) rels /\
    (Z.of_nat (length rels) <= Z.min (default 3%Z (pa_maxDepth args)) 5)%Z.
Proof.
  intros Hcall Hp. apply findRelationshipPaths_run in Hcall. cbv zeta in Hcall.
  destruct Hcall as (source & target & _ & _ & Hs & Ht & Hne & ->).
  apply sort_elem in Hp.
  set (maxDepth := Z.min _ _) in *.
  pose proof (pathSearch_inv m _ _ maxDepth Hne source target Hs Ht) as [_ Hok].
  assert (Hne' : el_id source <> el_id target) by congruence.
  pose proof (pathSearch_track m source target maxDepth Hne') as [_ Hbacked _ _].
  rewrite Hs in Hbacked. rewrite Forall_forall in Hok, Hbacked.
  destruct (Hbacked p Hp) as (rels & -> & Hwalk).
  destruct (Hok _ Hp) as (_ & Hdepth & Hnodup & Hlast). simpl in *.
  exists rels. split; [done|]. unfold pathNodes in Hnodup.
  rewrite map_step_target in Hnodup, Hlast. by repeat split.
Qed.

Lemma findRelationshipPaths_sound_witness :
  exists paths p rels,
    findRelationshipPaths chainABC
      {| pa_sourceId := "A"; pa_targetId := "C"; pa_maxDepth := None |} = Ok paths /\
    p ∈ paths /\ p = foundPath rels /\ simplePath chainABC "A" "C" rels.
Proof.
  destruct (findRelationshipPaths_sound chainABC
    {| pa_sourceId := "A"; pa_targetId := "C"; pa_maxDepth := None |}
    [foundPath [rel "A" "B"; rel "B" "C"]] (foundPath [rel "A" "B"; rel "B" "C"]))
    as (rels & Hp & Hsimple & _).
  - vm_compute. reflexivity.
  - apply elem_of_cons. left. reflexivity.
  - eexists. eexists. exists rels. split; [vm_compute; reflexivity|].
    split; [apply elem_of_cons; left; reflexivity|]. by split.
Defined.

(** X12: When fewer than 100 paths are returned, the result holds the record of
    every cycle-free chain of relationships from the source to the target
    that is no longer than the effective [maxDepth]. *)
Theorem findRelationshipPaths_complete (m : LikeC4Model) (args : PathArgs)
    (paths : list FoundPath) (rels : list Relationship) :
  findRelationshipPaths m args = Ok paths ->
  length paths < 100 ->
  simplePath m (pa_sourceId args) (pa_targetId args) rels ->
  (Z.of_nat (length rels) <= Z.min (default 3%Z (pa_maxDepth args)) 5)%Z ->
  foundPath rels ∈ paths.
Proof.
  intros Hcall Hfew Hsimple Hlen. apply findRelationshipPaths_run in Hcall.
  cbv zeta in Hcall.
  destruct Hcall as (source & target & _ & _ & Hs & Ht & Hne & ->).
  rewrite sort_length in Hfew. apply sort_elem.
  set (maxDepth := Z.min _ _) in *.
  assert (Hne' : el_id source <> el_id target) by congruence.
  pose proof (pathSearch_track m source target maxDepth Hne') as [_ _ Hpend _].
  rewrite Hs, Ht in Hpend.
  pose proof (pathSearch_exits m source target maxDepth) as Hexit.
  unfold pathCond in Hexit. apply andb_false_iff in Hexit as [Hexit|Hexit].
  - destruct (Hpend rels Hsimple Hlen)
      as [?|(before & r & rest & item & _ & Hitem & _)]; [done|].
    destruct (ps_queue _); [by apply elem_of_nil in Hitem|done].
  - apply Nat.ltb_ge in Hexit. unfold maxPaths in Hexit. lia.
Qed.

Lemma simplePath_chainABC : simplePath chainABC "A" "C" [rel "A" "B"; rel "B" "C"].
Proof.
  split; [|split; [|reflexivity]].
  - split; [|split; [|exact I]].
    + eexists. split; [vm_compute; reflexivity|]. apply elem_of_cons. by left.
    + eexists. split; [vm_compute; reflexivity|]. apply elem_of_cons. by left.
  - apply (bool_decide_unpack _). vm_compute. exact I.
Defined.

Lemma findRelationshipPaths_complete_witness :
  exists paths,
    findRelationshipPaths chainABC
      {| pa_sourceId := "A"; pa_targetId := "C"; pa_maxDepth := Some 2%Z |} = Ok paths /\
    foundPath [rel "A" "B"; rel "B" "C"] ∈ paths.
Proof.
  eexists. split; [vm_compute; reflexivity|].
  eapply (findRelationshipPaths_complete chainABC
    {| pa_sourceId := "A"; pa_targetId := "C"; pa_maxDepth := Some 2%Z |}).
  - vm_compute. reflexivity.
  - vm_compute. lia.
  - exact simplePath_chainABC.
  - vm_compute. discriminate.
Defined.

(** X13: A successful call returns the empty list exactly when the model has no
    cycle-free chain of relationships from the source to the target within
    the effective [maxDepth]. *)
Theorem findRelationshipPaths_empty_iff (m : LikeC4Model) (args : PathArgs)
    (paths : list FoundPath) :
  findRelationshipPaths m args = Ok paths ->
  (paths = [] <->
   forall rels, simplePath m (pa_sourceId args) (pa_targetId args) rels ->
     ~ (Z.of_nat (length rels) <= Z.min (default 3%Z (pa_maxDepth args)) 5)%Z).
Proof.
  intros Hcall. pose proof Hcall as Hrun.
  apply findRelationshipPaths_run in Hrun. cbv zeta in Hrun.
  destruct Hrun as (source & target & _ & _ & Hs & Ht & Hne & Hpaths).
  set (maxDepth := Z.min _ _) in *.
  assert (Hne' : el_id source <> el_id target) by congruence.
  pose proof (pathSearch_track m source target maxDepth Hne') as [_ Hbacked Hpend _].
  pose proof (pathSearch_inv m _ _ maxDepth Hne source target Hs Ht) as [_ Hok].
  pose proof (pathSearch_exits m source target maxDepth) as Hexit.
  rewrite Hs in Hbacked. rewrite Hs, Ht in Hpend.
  set (st := pathSearch m source target maxDepth) in *.
  assert (Hnil : paths = [] <-> ps_foundPaths st = []).
  { rewrite Hpaths. split; [|by intros ->].
    intros Hsorted. apply (f_equal length) in Hsorted.
    rewrite sort_length in Hsorted. by destruct (ps_foundPaths st). }
  rewrite Hnil. split.
  - intros Hempty rels Hsimple Hlen.
    unfold pathCond in Hexit. rewrite Hempty in Hexit. simpl in Hexit.
    rewrite andb_true_r in Hexit.
    destruct (Hpend rels Hsimple Hlen)
      as [Hin|(before & r & rest & item & _ & Hitem & _)].
    + rewrite Hempty in Hin. by apply elem_of_nil in Hin.
    + destruct (ps_queue st); [by apply elem_of_nil in Hitem|done].
  - intros Hnone. destruct (ps_foundPaths st) as [|p found] eqn:Hfound; [done|].
    exfalso. apply Forall_cons in Hbacked as [(rels & -> & Hwalk) _].
    apply Forall_cons in Hok as [(_ & Hdepth & Hnodup & Hlast) _]. simpl in *.
    unfold pathNodes in Hnodup. rewrite map_step_target in Hnodup, Hlast.
    by apply (Hnone rels).
Qed.

Lemma findRelationshipPaths_empty_iff_witness :
  findRelationshipPaths chainABC
    {| pa_sourceId := "A"; pa_targetId := "C"; pa_maxDepth := Some 1%Z |} = Ok [] /\
  forall rels, simplePath chainABC "A" "C" rels -> ~ (Z.of_nat (length rels) <= 1)%Z.
Proof.
  split; [vm_compute; reflexivity|].
  apply (findRelationshipPaths_empty_iff chainABC
    {| pa_sourceId := "A"; pa_targetId := "C"; pa_maxDepth := Some 1%Z |} []);
    [vm_compute|]; reflexivity.
Defined.

(** X14: The number of returned paths exceeds the cap of 100 by less than the
    largest number of relationships that [outgoing()] yields for one element
    of the model. *)
Theorem findRelationshipPaths_count (m : LikeC4Model) (args : PathArgs)
    (paths : list FoundPath) :
  findRelationshipPaths m args = Ok paths ->
  length paths <= 99 + maxOutDegree m.
Proof.
  intros Hcall. apply findRelationshipPaths_run in Hcall. cbv zeta in Hcall.
  destruct Hcall as (source & target & _ & _ & Hs & Ht & Hne & ->).
  rewrite sort_length.
  assert (Hne' : el_id source <> el_id target) by congruence.
  by destruct (pathSearch_track m source target
                 (Z.min (default 3%Z (pa_maxDepth args)) 5) Hne').
Qed.

Lemma findRelationshipPaths_count_witness :
  exists paths,
    findRelationshipPaths star101
      {| pa_sourceId := "S"; pa_targetId := "T"; pa_maxDepth := None |} = Ok paths /\
    length paths <= 99 + maxOutDegree star101.
Proof.
  eexists. split; [vm_compute; reflexivity|].
  apply (findRelationshipPaths_count star101
    {| pa_sourceId := "S"; pa_targetId := "T"; pa_maxDepth := None |}).
  vm_compute. reflexivity.
Defined.

(** ** find-relationship-paths: outcome of the checks *)

(** X15: A call succeeds exactly when [maxDepth] is omitted or lies in [1, 5],
    both identifiers resolve to distinct elements, and neither element is an
    ancestor of the other. *)
Theorem findRelationshipPaths_succeeds_iff (m : LikeC4Model) (args : PathArgs) :
  (exists paths, findRelationshipPaths m args = Ok paths) <->
  (forall v, pa_maxDepth args = Some v -> (1 <= v <= 5)%Z) /\
  exists source target,
    findElement m (pa_sourceId args) = Some source /\
    findElement m (pa_targetId args) = Some target /\
    el_id source <> el_id target /\
    isAncestorOf m source target = false /\
    isAncestorOf m target source = false.
Proof.
  unfold findRelationshipPaths. rewrite findRelationshipPaths_traced_log. unfold findRelationshipPaths_inputSchema.
  destruct (zIntRange "maxDepth" 1 5 3 (pa_maxDepth args)) as [v|e] eqn:Hv; simpl.
  - apply zIntRange_Ok in Hv.
    assert (Hrange : forall v', pa_maxDepth args = Some v' -> (1 <= v' <= 5)%Z).
    { intros v' Hv'. destruct Hv as [[Hnone _]|[Hsome ?]]; congruence. }
    rewrite findRelationshipPaths_handler_log. unfold findRelationshipPaths_search, findRelationshipPaths_validate. simpl.
    destruct (findElement m (pa_sourceId args)) as [source|]; simpl.
    2: { split; [by intros [? ?]|]. by intros (_ & ? & ? & [=] & _). }
    destruct (findElement m (pa_targetId args)) as [target|]; simpl.
    2: { split; [by intros [? ?]|]. by intros (_ & ? & ? & _ & [=] & _). }
    destruct (String.eqb (el_id source) (el_id target)) eqn:Hsame; simpl.
    { apply String.eqb_eq in Hsame. split; [by intros [? ?]|].
      intros (_ & ? & ? & [= <-] & [= <-] & Hne & _). done. }
    apply String.eqb_neq in Hsame.
    destruct (isAncestorOf m source target) eqn:Hst; simpl.
    { split; [by intros [? ?]|].
      intros (_ & ? & ? & [= <-] & [= <-] & _ & ? & _). congruence. }
    destruct (isAncestorOf m target source) eqn:Hts; simpl.
    { split; [by intros [? ?]|].
      intros (_ & ? & ? & [= <-] & [= <-] & _ & _ & ?). congruence. }
    split; [intros _|by eexists]. split; [done|]. by exists source, target.
  - split; [by intros [? ?]|]. intros [Hrange _]. exfalso.
    unfold zIntRange in Hv. destruct (pa_maxDepth args) as [k|]; [|done].
    specialize (Hrange k eq_refl).
    destruct (1 <=? k)%Z eqn:H1, (k <=? 5)%Z eqn:H5; simpl in Hv; try done;
      apply Z.leb_gt in H1 || apply Z.leb_gt in H5; lia.
Qed.

(** ** find-relationship-paths: discovery order *)

Lemma exploreRels_shape targetId current rels acc :
  exists pushed added,
    fold_left (exploreRel targetId current) rels acc = (acc.1 ++ pushed, acc.2 ++ added) /\
    Forall (fun n => length (pn_path n) = S (length (pn_path current))) pushed /\
    Forall (fun p => fp_length p = S (length (pn_path current))) added.
Proof.
  revert acc. induction rels as [|r rels IH]; intros acc; simpl.
  { exists [], []. rewrite !app_nil_r. by destruct acc. }
  destruct (IH (exploreRel targetId current acc r)) as (pushed & added & -> & Hp & Ha).
  unfold exploreRel.
  destruct (String.eqb _ _); [|case_bool_decide]; simpl.
  - exists pushed. eexists (_ :: added). rewrite <- app_assoc. simpl.
    repeat split; [done|]. constructor; [simpl; lia|done].
  - by exists pushed, added.
  - eexists (_ :: pushed). exists added. rewrite <- app_assoc. simpl.
    repeat split; [|done]. constructor; [|done]. simpl. rewrite length_app. simpl. lia.
Qed.

Lemma StronglySorted_snoc_le (found added : list FoundPath) k :
  StronglySorted (fun a b => fp_length a <= fp_length b) found ->
  Forall (fun p => fp_length p <= k) found ->
  Forall (fun p => fp_length p = k) added ->
  StronglySorted (fun a b => fp_length a <= fp_length b) (found ++ added).
Proof.
  intros Hsorted Hle Hadded.
  induction Hsorted as [|p found Hfound IH Hp]; simpl.
  - induction Hadded as [|q added Hq Hadded IH]; constructor; [done|].
    eapply Forall_impl; [exact Hadded|]. simpl. intros; lia.
  - apply Forall_cons in Hle as [Hpk Hle]. constructor; [by apply IH|].
    apply Forall_app. split; [done|].
    eapply Forall_impl; [exact Hadded|]. simpl. intros; lia.
Qed.

Lemma pathBody_levels m targetId maxDepth st :
  pathLevels st -> pathLevels (pathBody m targetId maxDepth st).
Proof.
  intros (d & q1 & q2 & Hq & H1 & H2 & Hsorted & Hle). unfold pathBody.
  destruct (ps_queue st) as [|current queue] eqn:Hqueue.
  { exists d, q1, q2. by rewrite Hqueue. }
  (* the level of the head and the shape of the rest of the queue *)
  assert (Hhead : exists d' r1 r2,
    queue = r1 ++ r2 /\ length (pn_path current) = d' /\
    Forall (fun n => length (pn_path n) = d') r1 /\
    Forall (fun n => length (pn_path n) = S d') r2 /\
    Forall (fun p => fp_length p <= S d') (ps_foundPaths st)).
  { destruct q1 as [|h q1]; simpl in Hq.
    - subst q2. apply Forall_cons in H2 as [Hh H2].
      exists (S d), queue, []. rewrite app_nil_r. repeat split; try done.
      eapply Forall_impl; [exact Hle|]. simpl. intros; lia.
    - injection Hq as <- ->. apply Forall_cons in H1 as [Hh H1].
      by exists d, q1, q2. }
  destruct Hhead as (d' & r1 & r2 & -> & Hcur & Hr1 & Hr2 & Hle').
  assert (Hskip : pathLevels
    {| ps_queue := r1 ++ r2; ps_foundPaths := ps_foundPaths st;
       ps_shifted := ps_shifted st ++ [pn_elementId current] |}).
  { by exists d', r1, r2. }
  destruct (maxDepth <=? _)%Z; [done|].
  destruct (findElement m (pn_elementId current)) as [currentElement|]; [|done].
  destruct (exploreRels_shape targetId current (el_outgoing currentElement)
              (r1 ++ r2, ps_foundPaths st)) as (pushed & added & -> & Hp & Ha).
  rewrite Hcur in Hp, Ha. simpl.
  exists d', r1, (r2 ++ pushed). simpl. rewrite app_assoc. repeat split; try done.
  - by apply Forall_app.
  - by eapply StronglySorted_snoc_le.
  - apply Forall_app. split; [done|].
    eapply Forall_impl; [exact Ha|]. simpl. intros; lia.
Qed.

Lemma pathSearch_levels m source target maxDepth :
  pathLevels (pathSearch m source target maxDepth).
Proof.
  unfold pathSearch.
  apply while_loop_invariant; [intros st Hst _; by apply pathBody_levels|].
  exists 0. eexists [_], []. simpl. repeat split; try constructor; try done.
Qed.

Lemma sort_sorted_id (l : list FoundPath) :
  StronglySorted (fun a b => fp_length a <= fp_length b) l ->
  sort compareLength l = l.
Proof.
  induction 1 as [|p l Hl IH Hp]; [done|].
  change (sort compareLength (p :: l))
    with (sortInsert compareLength p (sort compareLength l)).
  rewrite IH. destruct l as [|q l]; [done|]. simpl.
  apply Forall_cons in Hp as [Hpq _].
  assert ((compareLength p q <=? 0)%Z = true) as ->; [|done].
  apply Z.leb_le. unfold compareLength. lia.
Qed.

(** X17: The search finds the paths in ascending order of length, so sorting
    leaves the list as it is: the result is the list of found paths in the
    order of their discovery. *)
Theorem findRelationshipPaths_discovery_order (m : LikeC4Model) (args : PathArgs)
    (paths : list FoundPath) :
  findRelationshipPaths m args = Ok paths ->
  exists args' st,
    findRelationshipPaths_inputSchema args = Ok args' /\
    findRelationshipPaths_search m args' = Ok st /\
    paths = ps_foundPaths st.
Proof.
  intros (args' & st & Hschema & Hsearch & ->)%findRelationshipPaths_Ok.
  exists args', st. repeat split; [done..|].
  apply sort_sorted_id.
  unfold findRelationshipPaths_search in Hsearch.
  destruct (findRelationshipPaths_validate m args') as [[source target]|];
    simpl in Hsearch; [|done].
  injection Hsearch as <-.
  by destruct (pathSearch_levels m source target
                 (Z.min (default 3%Z (pa_maxDepth args')) 5))
    as (? & ? & ? & _ & _ & _ & ? & _).
Qed.

Lemma findRelationshipPaths_discovery_order_witness :
  exists paths args' st,
    findRelationshipPaths chainABC
      {| pa_sourceId := "A"; pa_targetId := "C"; pa_maxDepth := None |} = Ok paths /\
    findRelationshipPaths_search chainABC args' = Ok st /\
    paths = ps_foundPaths st.
Proof.
  destruct (findRelationshipPaths_discovery_order chainABC
    {| pa_sourceId := "A"; pa_targetId := "C"; pa_maxDepth := None |}
    [foundPath [rel "A" "B"; rel "B" "C"]]) as (args' & st & _ & Hsearch & Hpaths).
  - vm_compute. reflexivity.
  - eexists. exists args', st. split; [vm_compute; reflexivity|]. by split.
Defined.

(** ** query-incomers-graph: what the traversal records *)

Lemma graphBody_track m filter maxDepth maxNodes start st :
  graphInv m filter maxDepth maxNodes start st ->
  graphTrack m filter maxDepth start st ->
  graphCond st = true ->
  graphTrack m filter maxDepth start (graphBody m filter maxDepth maxNodes st).
Proof.
  intros [Hentries _ _ _ Hqueue _ _ _ _] [Hnode Hmax Hbound Hreached Htrigger] Hcond.
  unfold graphCond in Hcond. apply andb_true_iff in Hcond as [_ Htr].
  apply negb_true_iff in Htr. unfold graphBody.
  destruct (gs_queue st) as [|item queue] eqn:Hq; [done|].
  assert (Hskip : graphTrack m filter maxDepth start
    {| gs_queue := queue; gs_visited := gs_visited st; gs_nodes := gs_nodes st;
       gs_actualMaxDepth := gs_actualMaxDepth st;
       gs_truncated := gs_truncated st; gs_shifted := gs_shifted st ++ [item] |}).
  { constructor; simpl; try done. intros Ht. congruence. }
  cbv zeta.
  destruct (maxDepth <? Z.of_nat (qi_depth item))%Z eqn:Hdeep; [done|].
  apply Z.ltb_ge in Hdeep.
  case_bool_decide as Hseen; [done|].
  destruct (maxNodes <=? _)%Z.
  { constructor; simpl; try done. intros _. exists item.
    rewrite last_snoc. repeat split; [done|]. apply Hqueue. by apply elem_of_cons; left. }
  destruct (findElement m (qi_elementId item)) as [element|] eqn:Hel; [|done].
  assert (Hentry : forall x node,
    objectSet (qi_elementId item)
      (graphNode element (map incomerData (el_incoming element filter)) (qi_depth item))
      (gs_nodes st) !! x = Some node ->
    gs_nodes st !! x = Some node \/
    (x = qi_elementId item /\
     node = graphNode element (map incomerData (el_incoming element filter))
              (qi_depth item))).
  { intros x node. destruct (decide (qi_elementId item = x)) as [<-|Hne].
    - destruct (decide (qi_elementId item = "__proto__")) as [Hp|Hp].
      + rewrite Hp, objectSet_proto. by left.
      + rewrite objectSet_insert, lookup_insert_eq by done. intros [= <-]. by right.
    - rewrite objectSet_lookup_ne by done. by left. }
  constructor; simpl.
  - intros x node [Hx|[-> ->]]%Hentry; [by apply Hnode|]. by exists element.
  - intros x node [Hx|[-> ->]]%Hentry; [|simpl; lia].
    specialize (Hmax _ _ Hx). lia.
  - lia.
  - intros Hnoproto.
    assert (Hp : qi_elementId item <> "__proto__") by congruence.
    destruct (decide (gs_actualMaxDepth st <= qi_depth item)) as [Hle|Hgt].
    + right. eexists. eexists.
      rewrite objectSet_insert, lookup_insert_eq by done. split; [done|]. simpl. lia.
    + destruct (Hreached Hnoproto) as [Hzero|(x & node & Hx & Hd)]; [lia|].
      right. exists x, node. split; [|lia].
      destruct (decide (qi_elementId item = x)) as [<-|Hne].
      * exfalso. by destruct (Hentries _ _ Hx) as [Hin _].
      * by rewrite objectSet_lookup_ne.
  - intros Ht. congruence.
Qed.

Lemma graphInit_track m filter maxDepth start :
  (0 <= maxDepth)%Z ->
  graphTrack m filter maxDepth start (graphInit start).
Proof. intros Hdepth. constructor; simpl; try done. by left. Qed.

Lemma graphSearch_track m filter maxDepth maxNodes start :
  (0 <= maxDepth)%Z -> (1 <= maxNodes)%Z -> is_Some (findElement m start) ->
  graphTrack m filter maxDepth start (graphSearch m filter maxDepth maxNodes start).
Proof.
  intros Hdepth Hnodes Hstart. unfold graphSearch.
  apply (while_loop_invariant _ _
    (fun st => graphInv m filter maxDepth maxNodes start st /\
               graphTrack m filter maxDepth start st)).
  - intros st [Hinv Htrack] Hcond. split.
    + by apply graphBody_inv.
    + by apply (graphBody_track m filter maxDepth maxNodes).
  - split; [by apply graphInit_inv|by apply graphInit_track].
Qed.

(** The start is visited by the time the loop ends. *)
Lemma graphSearch_start m filter maxDepth maxNodes start :
  (0 <= maxDepth)%Z -> (1 <= maxNodes)%Z -> is_Some (findElement m start) ->
  start ∈ gs_visited (graphSearch m filter maxDepth maxNodes start).
Proof.
  intros Hdepth Hnodes Hstart.
  destruct (graphSearch_final m filter maxDepth maxNodes start)
    as [[_ _ _ _ _ _ _ Hstarted Htrunc] Hexit]; [done..|].
  set (st := graphSearch _ _ _ _ _) in *.
  destruct Hstarted as [?|[Hempty Hq]]; [done|exfalso].
  unfold graphCond in Hexit. rewrite Hq in Hexit. simpl in Hexit.
  apply negb_false_iff in Hexit. destruct (Htrunc Hexit) as [Hfull _].
  rewrite Hempty, size_empty in Hfull. lia.
Qed.

Lemma queryIncomersGraph_run m args g :
  queryIncomersGraph m args = Ok g ->
  let filter := filterOf (default true (ia_includeIndirect args)) in
  let maxDepth := default 50%Z (ia_maxDepth args) in
  let maxNodes := default 1000%Z (ia_maxNodes args) in
  let st := graphSearch m filter maxDepth maxNodes (ia_elementId args) in
  (1 <= maxDepth <= 100)%Z /\ (1 <= maxNodes <= 5000)%Z /\
  is_Some (findElement m (ia_elementId args)) /\
  g = {| ig_target := ia_elementId args;
         ig_totalNodes := size (gs_visited st);
         ig_maxDepth := gs_actualMaxDepth st;
         ig_truncated := gs_truncated st;
         ig_nodes := gs_nodes st |}.
Proof.
  unfold queryIncomersGraph. intros Hcall.
  destruct (queryIncomersGraph_traced m args) as [log r] eqn:Htraced.
  simpl in Hcall. subst r. apply queryIncomersGraph_Ok in Htraced.
  cbv zeta in *. tauto.
Qed.

(** X18: A call succeeds exactly when [maxDepth] is omitted or lies in [1, 100],
    [maxNodes] is omitted or lies in [1, 5000], and the identifier resolves;
    with valid options an identifier that does not resolve gives the
    not-found failure that names it. *)
Theorem queryIncomersGraph_succeeds_iff (m : LikeC4Model) (args : IncomersArgs) :
  ((exists g, queryIncomersGraph m args = Ok g) <->
   (forall v, ia_maxDepth args = Some v -> (1 <= v <= 100)%Z) /\
   (forall v, ia_maxNodes args = Some v -> (1 <= v <= 5000)%Z) /\
   is_Some (findElement m (ia_elementId args))) /\
  ((forall v, ia_maxDepth args = Some v -> (1 <= v <= 100)%Z) ->
   (forall v, ia_maxNodes args = Some v -> (1 <= v <= 5000)%Z) ->
   findElement m (ia_elementId args) = None ->
   queryIncomersGraph m args = Err (ElementNotFound (ia_elementId args))).
Proof.
  assert (Hrange : forall field lo hi d v,
    (exists n, zIntRange field lo hi d v = Ok n) <->
    (forall k, v = Some k -> (lo <= k <= hi)%Z)).
  { intros field lo hi d v. split.
    - intros [n Hn] k ->. apply zIntRange_Ok in Hn as [[[=] _]|[[= <-] ?]]. done.
    - intros Hk. destruct v as [k|]; [|by eexists].
      exists k. by apply zIntRange_inside, Hk. }
  unfold queryIncomersGraph. rewrite queryIncomersGraph_traced_log.
  unfold queryIncomersGraph_inputSchema.
  split.
  - rewrite <- (Hrange "maxDepth" 1%Z 100%Z 50%Z),
      <- (Hrange "maxNodes" 1%Z 5000%Z 1000%Z).
    destruct (zIntRange "maxDepth" _ _ _ _) as [d|]; simpl.
    2: { split; [by intros [? ?]|]. by intros ([? ?] & _). }
    destruct (zIntRange "maxNodes" _ _ _ _) as [n|]; simpl.
    2: { split; [by intros [? ?]|]. by intros (_ & [? ?] & _). }
    rewrite queryIncomersGraph_handler_log. unfold queryIncomersGraph_search. simpl.
    destruct (findElement m (ia_elementId args)); simpl.
    + split; [intros _|by eexists]. repeat split; by eexists.
    + split; [by intros [? ?]|]. by intros (_ & _ & [? ?]).
  - intros Hd Hn Hnone.
    destruct (proj2 (Hrange "maxDepth" 1%Z 100%Z 50%Z _) Hd) as [d ->].
    destruct (proj2 (Hrange "maxNodes" 1%Z 5000%Z 1000%Z _) Hn) as [n ->]. simpl.
    rewrite queryIncomersGraph_handler_log. unfold queryIncomersGraph_search. simpl.
    by rewrite Hnone.
Qed.

Lemma queryIncomersGraph_succeeds_iff_witness :
  queryIncomersGraph chainABC
    {| ia_elementId := "Z"; ia_includeIndirect := None; ia_maxDepth := None;
       ia_maxNodes := Some 10%Z |}
  = Err (ElementNotFound "Z").
Proof.
  apply (proj2 (queryIncomersGraph_succeeds_iff chainABC
    {| ia_elementId := "Z"; ia_includeIndirect := None; ia_maxDepth := None;
       ia_maxNodes := Some 10%Z |})).
  - intros v [=].
  - intros v [= <-]. lia.
  - vm_compute. reflexivity.
Defined.

(** X19: A result that is not truncated holds a node for every entity that is
    reachable from the start within the effective [maxDepth] and is not
    named [__proto__]. *)
Theorem queryIncomersGraph_complete (m : LikeC4Model) (args : IncomersArgs)
    (g : IncomersGraph) (x : string) :
  queryIncomersGraph m args = Ok g ->
  ig_truncated g = false ->
  reachableWithin m (filterOf (default true (ia_includeIndirect args)))
    (ia_elementId args) (default 50%Z (ia_maxDepth args)) x ->
  x <> "__proto__" ->
  is_Some (ig_nodes g !! x).
Proof.
  intros Hcall%queryIncomersGraph_run Htr (n & Hn & Hhops & Hex) Hproto.
  cbv zeta in Hcall. destruct Hcall as (Hdepth & Hnodes & Hstart & ->). simpl in *.
  set (filter := filterOf _) in *. set (maxDepth := default 50%Z _) in *.
  set (maxNodes := default 1000%Z _) in *.
  destruct (graphSearch_final m filter maxDepth maxNodes (ia_elementId args))
    as [Hinv Hexit]; [lia..|done|].
  set (st := graphSearch _ _ _ _ _) in *.
  apply (inv_dom _ _ _ _ _ _ Hinv); [|done].
  destruct (decide (x ∈ gs_visited st)) as [|Hnot]; [done|exfalso].
  destruct (graph_frontier m filter maxDepth maxNodes (ia_elementId args) st n x
              Hinv Htr Hhops Hn Hex Hnot) as (item & Hin & _).
  unfold graphCond in Hexit. rewrite Htr, andb_true_r in Hexit.
  destruct (gs_queue st); [by apply elem_of_nil in Hin|done].
Qed.

Lemma hops_chainABC_A : hops chainABC FilterAll "C" 2 "A".
Proof.
  eapply hops_step; [eapply hops_step; [constructor|]|].
  - eexists. exists (rel "B" "C"). split; [vm_compute; reflexivity|].
    split; [|reflexivity]. apply elem_of_cons. by left.
  - eexists. exists (rel "A" "B"). split; [vm_compute; reflexivity|].
    split; [|reflexivity]. apply elem_of_cons. by left.
Defined.

Lemma queryIncomersGraph_complete_witness :
  exists g,
    queryIncomersGraph chainABC
      {| ia_elementId := "C"; ia_includeIndirect := None; ia_maxDepth := Some 2%Z;
         ia_maxNodes := None |} = Ok g /\
    is_Some (ig_nodes g !! "A").
Proof.
  eexists. split; [vm_compute; reflexivity|].
  eapply (queryIncomersGraph_complete chainABC
    {| ia_elementId := "C"; ia_includeIndirect := None; ia_maxDepth := Some 2%Z;
       ia_maxNodes := None |}).
  - vm_compute. reflexivity.
  - vm_compute. reflexivity.
  - exists 2. split; [simpl; lia|]. split; [exact hops_chainABC_A|].
    eexists. vm_compute. reflexivity.
  - discriminate.
Defined.

(** X20: Every node of the result is the projection of the element that its key
    resolves to: it carries that element's identifier and attributes, and its
    [incomers] list is, in order, the list of the relationships that
    [incoming(filter)] yields for the element. *)
Theorem queryIncomersGraph_nodes (m : LikeC4Model) (args : IncomersArgs)
    (g : IncomersGraph) (id : string) (node : GraphNode) :
  queryIncomersGraph m args = Ok g ->
  ig_nodes g !! id = Some node ->
  exists e,
    findElement m id = Some e /\
    gn_id node = id /\
    node = graphNode e
             (map incomerData
                (el_incoming e (filterOf (default true (ia_includeIndirect args)))))
             (gn_depth node).
Proof.
  intros Hcall%queryIncomersGraph_run Hnode. cbv zeta in Hcall.
  destruct Hcall as (Hdepth & Hnodes & Hstart & ->). simpl in Hnode.
  destruct (graphSearch_track m (filterOf (default true (ia_includeIndirect args)))
              (default 50%Z (ia_maxDepth args)) (default 1000%Z (ia_maxNodes args))
              (ia_elementId args)) as [Hproj _ _ _ _]; [lia..|done|].
  destruct (Hproj _ _ Hnode) as (e & He & Heq & _).
  exists e. repeat split; [done| |done].
  rewrite Heq. simpl. by apply findElement_id in He.
Qed.

Lemma queryIncomersGraph_nodes_witness :
  exists g node,
    queryIncomersGraph chainABC
      {| ia_elementId := "C"; ia_includeIndirect := None; ia_maxDepth := None;
         ia_maxNodes := None |} = Ok g /\
    ig_nodes g !! "B" = Some node /\
    exists e,
      findElement chainABC "B" = Some e /\ gn_id node = "B" /\
      node = graphNode e (map incomerData (el_incoming e FilterAll)) (gn_depth node).
Proof.
  eexists. eexists. split; [vm_compute; reflexivity|].
  split; [vm_compute; reflexivity|].
  eapply (queryIncomersGraph_nodes chainABC
    {| ia_elementId := "C"; ia_includeIndirect := None; ia_maxDepth := None;
       ia_maxNodes := None |}).
  - vm_compute. reflexivity.
  - vm_compute. reflexivity.
Defined.

(** X21: [totalNodes] counts the visited entities: it is the number of entries
    of [nodes], or one more when an element named [__proto__] was visited
    (it is counted but has no entry); in a model without such an element the
    two numbers agree. *)
Theorem queryIncomersGraph_totalNodes (m : LikeC4Model) (args : IncomersArgs)
    (g : IncomersGraph) :
  queryIncomersGraph m args = Ok g ->
  ig_nodes g !! "__proto__" = None /\
  size (ig_nodes g) <= ig_totalNodes g <= S (size (ig_nodes g)) /\
  (findElement m "__proto__" = None -> ig_totalNodes g = size (ig_nodes g)).
Proof.
  intros Hcall%queryIncomersGraph_run. cbv zeta in Hcall.
  destruct Hcall as (Hdepth & Hnodes & Hstart & ->). simpl.
  destruct (graphSearch_final m (filterOf (default true (ia_includeIndirect args)))
              (default 50%Z (ia_maxDepth args)) (default 1000%Z (ia_maxNodes args))
              (ia_elementId args)) as [[Hentries Hdom Hvisited _ _ _ _ _ _] _];
    [lia..|done|].
  set (st := graphSearch _ _ _ _ _) in *.
  assert (Hkeys : dom (gs_nodes st) = gs_visited st ∖ {["__proto__"]}).
  { apply set_eq. intros x.
    rewrite elem_of_dom, elem_of_difference, not_elem_of_singleton. split.
    - intros [node Hnode]. destruct (Hentries _ _ Hnode) as (? & ? & _). by split.
    - intros [? ?]. by apply Hdom. }
  assert (Hnone : gs_nodes st !! "__proto__" = None).
  { apply eq_None_not_Some. intros [node Hnode].
    by destruct (Hentries _ _ Hnode) as (_ & ? & _). }
  split; [done|]. rewrite <- size_dom, Hkeys.
  destruct (decide ("__proto__" ∈ gs_visited st)) as [Hin|Hout].
  - assert (Hsub : ({["__proto__"]} : gset string) ⊆ gs_visited st).
    { by apply singleton_subseteq_l. }
    pose proof (subseteq_size _ _ Hsub) as Hone. rewrite size_singleton in Hone.
    rewrite (size_difference _ _ Hsub), size_singleton. split; [lia|].
    intros Hnoproto. destruct (Hvisited _ Hin) as [[e He] _]. congruence.
  - assert (Heq : gs_visited st ∖ {["__proto__"]} = gs_visited st).
    { apply set_eq. intros x. rewrite elem_of_difference, not_elem_of_singleton.
      split; [by intros [? _]|]. intros Hx. split; [done|]. by intros ->. }
    rewrite Heq. split; [lia|done].
Qed.

Lemma queryIncomersGraph_totalNodes_witness :
  exists g,
    queryIncomersGraph chainABC
      {| ia_elementId := "C"; ia_includeIndirect := None; ia_maxDepth := None;
         ia_maxNodes := Some 2%Z |} = Ok g /\
    ig_totalNodes g = size (ig_nodes g).
Proof.
  eexists. split; [vm_compute; reflexivity|].
  apply (queryIncomersGraph_totalNodes chainABC
    {| ia_elementId := "C"; ia_includeIndirect := None; ia_maxDepth := None;
       ia_maxNodes := Some 2%Z |}).
  - vm_compute. reflexivity.
  - vm_compute. reflexivity.
Defined.

(** X22: The reported [maxDepth] bounds the depth of every node and does not
    exceed the effective [maxDepth] of the call; in a model without an
    element named [__proto__] it is the largest depth recorded in [nodes]:
    some node has that depth. *)
Theorem queryIncomersGraph_maxDepth (m : LikeC4Model) (args : IncomersArgs)
    (g : IncomersGraph) :
  queryIncomersGraph m args = Ok g ->
  (forall id node, ig_nodes g !! id = Some node -> gn_depth node <= ig_maxDepth g) /\
  (Z.of_nat (ig_maxDepth g) <= default 50%Z (ia_maxDepth args))%Z /\
  (findElement m "__proto__" = None ->
   exists id node, ig_nodes g !! id = Some node /\ gn_depth node = ig_maxDepth g).
Proof.
  intros Hcall%queryIncomersGraph_run. cbv zeta in Hcall.
  destruct Hcall as (Hdepth & Hnodes & Hstart & ->). simpl.
  set (filter := filterOf _) in *. set (maxDepth := default 50%Z _) in *.
  set (maxNodes := default 1000%Z _) in *.
  destruct (graphSearch_track m filter maxDepth maxNodes (ia_elementId args))
    as [Hproj Hmax Hbound Hreached _]; [lia..|done|].
  pose proof (graphSearch_start m filter maxDepth maxNodes (ia_elementId args))
    as Hvisited.
  destruct (graphSearch_final m filter maxDepth maxNodes (ia_elementId args))
    as [[Hentries Hdom _ _ _ _ _ _ _] _]; [lia..|done|].
  set (st := graphSearch _ _ _ _ _) in *.
  split; [done|]. split; [done|]. intros Hnoproto.
  destruct (Hreached Hnoproto) as [Hzero|?]; [|done].
  assert (Hne : ia_elementId args <> "__proto__").
  { intros Heq. rewrite Heq, Hnoproto in Hstart. by destruct Hstart. }
  destruct (Hdom (ia_elementId args)) as [node Hnode];
    [apply Hvisited; [lia|lia|done]|done|].
  exists (ia_elementId args), node. split; [done|].
  destruct (Hentries _ _ Hnode) as (_ & _ & _ & Hmin).
  specialize (Hmin 0 (hops_start _ _ _)). lia.
Qed.

Lemma queryIncomersGraph_maxDepth_witness :
  exists g,
    queryIncomersGraph chainABC
      {| ia_elementId := "C"; ia_includeIndirect := None; ia_maxDepth := Some 1%Z;
         ia_maxNodes := None |} = Ok g /\
    exists id node, ig_nodes g !! id = Some node /\ gn_depth node = ig_maxDepth g.
Proof.
  eexists. split; [vm_compute; reflexivity|].
  apply (queryIncomersGraph_maxDepth chainABC
    {| ia_elementId := "C"; ia_includeIndirect := None; ia_maxDepth := Some 1%Z;
       ia_maxNodes := None |}).
  - vm_compute. reflexivity.
  - vm_compute. reflexivity.
Defined.

(** X23: A result is truncated only when the traversal met an identifier that is
    reached from the start within the effective [maxDepth] and has no node
    in the result. *)
Theorem queryIncomersGraph_truncated_omits (m : LikeC4Model) (args : IncomersArgs)
    (g : IncomersGraph) :
  queryIncomersGraph m args = Ok g ->
  ig_truncated g = true ->
  exists x n,
    (Z.of_nat n <= default 50%Z (ia_maxDepth args))%Z /\
    hops m (filterOf (default true (ia_includeIndirect args))) (ia_elementId args) n x /\
    ig_nodes g !! x = None.
Proof.
  intros Hcall%queryIncomersGraph_run Htr. cbv zeta in Hcall.
  destruct Hcall as (Hdepth & Hnodes & Hstart & ->). simpl in *.
  set (filter := filterOf _) in *. set (maxDepth := default 50%Z _) in *.
  set (maxNodes := default 1000%Z _) in *.
  destruct (graphSearch_track m filter maxDepth maxNodes (ia_elementId args))
    as [_ _ _ _ Htrigger]; [lia..|done|].
  destruct (graphSearch_final m filter maxDepth maxNodes (ia_elementId args))
    as [[Hentries _ _ _ _ _ _ _ Htrunc] _]; [lia..|done|].
  set (st := graphSearch _ _ _ _ _) in *.
  destruct (Htrigger Htr) as (item & Hlast & Hle & Hhops).
  destruct (Htrunc Htr) as (_ & item' & Hlast' & Hnot).
  rewrite Hlast in Hlast'. injection Hlast' as <-.
  exists (qi_elementId item), (qi_depth item). repeat split; [done..|].
  apply eq_None_not_Some. intros [node Hnode].
  by destruct (Hentries _ _ Hnode) as [? _].
Qed.

Lemma queryIncomersGraph_truncated_omits_witness :
  exists g x n,
    queryIncomersGraph chainABC
      {| ia_elementId := "C"; ia_includeIndirect := None; ia_maxDepth := None;
         ia_maxNodes := Some 2%Z |} = Ok g /\
    hops chainABC FilterAll "C" n x /\ ig_nodes g !! x = None.
Proof.
  eexists.
  assert (Hcall : queryIncomersGraph chainABC
      {| ia_elementId := "C"; ia_includeIndirect := None; ia_maxDepth := None;
         ia_maxNodes := Some 2%Z |} = Ok _) by (vm_compute; reflexivity).
  destruct (queryIncomersGraph_truncated_omits _ _ _ Hcall)
    as (x & n & _ & Hhops & Hnone); [vm_compute; reflexivity|].
  exists x, n. by repeat split.
Defined.

(** X24: In a result that is not truncated, every existing incomer, other than
    an element named [__proto__], of a node that lies strictly within the
    effective [maxDepth] has a node of its own, at most one level deeper. *)
Theorem queryIncomersGraph_closed (m : LikeC4Model) (args : IncomersArgs)
    (g : IncomersGraph) (x y : string) (node : GraphNode) :
  queryIncomersGraph m args = Ok g ->
  ig_truncated g = false ->
  ig_nodes g !! x = Some node ->
  (Z.of_nat (gn_depth node) < default 50%Z (ia_maxDepth args))%Z ->
  incomerOf m (filterOf (default true (ia_includeIndirect args))) x y ->
  is_Some (findElement m y) ->
  y <> "__proto__" ->
  exists node', ig_nodes g !! y = Some node' /\ gn_depth node' <= S (gn_depth node).
Proof.
  intros Hcall%queryIncomersGraph_run Htr Hnode Hdeep Hinc Hex Hproto.
  cbv zeta in Hcall.
  destruct Hcall as (Hdepth & Hnodes & Hstart & ->). simpl in *.
  set (filter := filterOf _) in *. set (maxDepth := default 50%Z _) in *.
  set (maxNodes := default 1000%Z _) in *.
  destruct (graphSearch_final m filter maxDepth maxNodes (ia_elementId args))
    as [Hinv Hexit]; [lia..|done|].
  set (st := graphSearch _ _ _ _ _) in *.
  pose proof Hinv as [Hentries Hdom _ _ _ _ _ _ _].
  destruct (Hentries _ _ Hnode) as (_ & _ & Hhops & _).
  assert (Hy : hops m filter (ia_elementId args) (S (gn_depth node)) y).
  { by eapply hops_step. }
  assert (Hvisited : y ∈ gs_visited st).
  { destruct (decide (y ∈ gs_visited st)) as [|Hnot]; [done|exfalso].
    destruct (graph_frontier m filter maxDepth maxNodes (ia_elementId args) st _ y
                Hinv Htr Hy ltac:(lia) Hex Hnot) as (item & Hin & _).
    unfold graphCond in Hexit. rewrite Htr, andb_true_r in Hexit.
    destruct (gs_queue st); [by apply elem_of_nil in Hin|done]. }
  destruct (Hdom _ Hvisited Hproto) as [node' Hnode']. exists node'. split; [done|].
  destruct (Hentries _ _ Hnode') as (_ & _ & _ & Hmin). by apply Hmin.
Qed.

Lemma queryIncomersGraph_closed_witness :
  exists g node,
    queryIncomersGraph chainABC
      {| ia_elementId := "C"; ia_includeIndirect := None; ia_maxDepth := None;
         ia_maxNodes := None |} = Ok g /\
    ig_nodes g !! "C" = Some node /\
    exists node', ig_nodes g !! "B" = Some node' /\ gn_depth node' <= S (gn_depth node).
Proof.
  eexists. eexists. split; [vm_compute; reflexivity|].
  split; [vm_compute; reflexivity|].
  eapply (queryIncomersGraph_closed chainABC
    {| ia_elementId := "C"; ia_includeIndirect := None; ia_maxDepth := None;
       ia_maxNodes := None |} _ "C" "B").
  - vm_compute. reflexivity.
  - vm_compute. reflexivity.
  - vm_compute. reflexivity.
  - vm_compute. reflexivity.
  - eexists. exists (rel "B" "C"). split; [vm_compute; reflexivity|].
    split; [|reflexivity]. apply elem_of_cons. by left.
  - eexists. vm_compute. reflexivity.
  - discriminate.
Defined.

(** X27: A start element not named [__proto__] has a node at depth 0, and the
    depth recorded for any node is the length of a walk from the start to it
    and no walk to it is shorter. *)
Theorem queryIncomersGraph_depths (m : LikeC4Model) (args : IncomersArgs)
    (g : IncomersGraph) :
  queryIncomersGraph m args = Ok g ->
  let filter := filterOf (default true (ia_includeIndirect args)) in
  (ia_elementId args <> "__proto__" ->
   exists node, ig_nodes g !! ia_elementId args = Some node /\ gn_depth node = 0) /\
  (forall id node, ig_nodes g !! id = Some node ->
     hops m filter (ia_elementId args) (gn_depth node) id /\
     forall n, hops m filter (ia_elementId args) n id -> gn_depth node <= n).
Proof.
  intros Hcall%queryIncomersGraph_run. cbv zeta in Hcall.
  destruct Hcall as (Hdepth & Hnodes & Hstart & ->). cbv zeta. simpl.
  set (filter := filterOf _) in *. set (maxDepth := default 50%Z _) in *.
  set (maxNodes := default 1000%Z _) in *.
  pose proof (graphSearch_start m filter maxDepth maxNodes (ia_elementId args))
    as Hvisited.
  destruct (graphSearch_final m filter maxDepth maxNodes (ia_elementId args))
    as [[Hentries Hdom _ _ _ _ _ _ _] _]; [lia..|done|].
  set (st := graphSearch _ _ _ _ _) in *.
  split.
  - intros Hne.
    destruct (Hdom (ia_elementId args)) as [node Hnode];
      [apply Hvisited; [lia|lia|done]|done|].
    exists node. split; [done|].
    destruct (Hentries _ _ Hnode) as (_ & _ & _ & Hmin).
    specialize (Hmin 0 (hops_start _ _ _)). lia.
  - intros id node Hnode. by destruct (Hentries _ _ Hnode) as (_ & _ & ?).
Qed.

Lemma queryIncomersGraph_depths_witness :
  exists g,
    queryIncomersGraph chainABC
      {| ia_elementId := "C"; ia_includeIndirect := None; ia_maxDepth := None;
         ia_maxNodes := None |} = Ok g /\
    exists node, ig_nodes g !! "C" = Some node /\ gn_depth node = 0.
Proof.
  eexists. split; [vm_compute; reflexivity|].
  refine (proj1 (queryIncomersGraph_depths chainABC
    {| ia_elementId := "C"; ia_includeIndirect := None; ia_maxDepth := None;
       ia_maxNodes := None |} _ _) _).
  - vm_compute. reflexivity.
  - discriminate.
Defined.

(** ** query-graph *)

(** A query on an identifier that does not resolve fails with the not-found
    failure, whatever the query type; on one that resolves it succeeds. *)
Theorem queryGraph_succeeds_iff (nav : Navigation) (m : LikeC4Model) (args : GraphArgs) :
  ((exists results, queryGraph nav m args = Ok results) <->
   is_Some (findElement m (ga_elementId args))) /\
  (findElement m (ga_elementId args) = None ->
   queryGraph nav m args = Err (ElementNotFound (ga_elementId args))).
Proof.
  unfold queryGraph. destruct (findElement m (ga_elementId args)); simpl.
  - split; [|done]. split; [by eexists|by eexists].
  - split; [|done]. split; [by intros [? ?]|by intros [? ?]].
Qed.

(** X25: A [parent] query returns at most one record, and returns the empty list,
    not a failure, exactly when the element has no parent. *)
Theorem queryGraph_parent (nav : Navigation) (m : LikeC4Model) (args : GraphArgs)
    (element : Element) :
  findElement m (ga_elementId args) = Some element ->
  ga_queryType args = Parent ->
  exists results,
    queryGraph nav m args = Ok results /\
    length results <= 1 /\
    (results = [] <-> parent nav element = None) /\
    (forall p, parent nav element = Some p -> results = [relativeInfo p]).
Proof.
  intros Hel Hq. unfold queryGraph. rewrite Hel, Hq. simpl.
  destruct (parent nav element) as [p|]; eexists; (split; [done|]); simpl.
  - split; [lia|]. split; [done|]. by intros ? [= <-].
  - split; [lia|]. done.
Qed.

Lemma queryGraph_parent_witness :
  exists results,
    queryGraph flatNavigation chainABC
      {| ga_elementId := "A"; ga_queryType := Parent; ga_includeIndirect := None |}
    = Ok results /\ results = [].
Proof.
  destruct (queryGraph_parent flatNavigation chainABC
    {| ga_elementId := "A"; ga_queryType := Parent; ga_includeIndirect := None |}
    (plainElement [rel "A" "B"; rel "B" "C"] "A"))
    as (results & Hcall & _ & Hroot & _); [vm_compute; reflexivity|reflexivity|].
  exists results. split; [exact Hcall|]. by apply Hroot.
Defined.

(** X26: For the hierarchy queries the [includeIndirect] option plays no part in
    the result. *)
Theorem queryGraph_hierarchy_ignores_filter (nav : Navigation) (m : LikeC4Model)
    (elementId : string) (queryType : QueryType) (b b' : option bool) :
  queryType <> Incomers -> queryType <> Outgoers ->
  queryGraph nav m {| ga_elementId := elementId; ga_queryType := queryType;
                      ga_includeIndirect := b |}
  = queryGraph nav m {| ga_elementId := elementId; ga_queryType := queryType;
                        ga_includeIndirect := b' |}.
Proof. intros Hi Ho. unfold queryGraph. simpl. by destruct queryType. Qed.

Lemma queryGraph_hierarchy_ignores_filter_witness :
  queryGraph flatNavigation chainABC
    {| ga_elementId := "A"; ga_queryType := Children; ga_includeIndirect := Some false |}
  = queryGraph flatNavigation chainABC
    {| ga_elementId := "A"; ga_queryType := Children; ga_includeIndirect := None |}.
Proof. apply queryGraph_hierarchy_ignores_filter; discriminate. Defined.

(** ** query-by-metadata: the reported value *)

Lemma toLowerCaseAscii_empty s : toLowerCaseAscii s = "" <-> s = "".
Proof. by destruct s. Qed.

Lemma includes_nonempty s sub : sub <> "" -> includes s sub = true -> s <> "".
Proof. intros Hsub Hinc ->. by destruct sub. Qed.

Lemma existsb_find {A} (P : A -> bool) l :
  existsb P l = true -> exists v, find P l = Some v /\ P v = true.
Proof.
  induction l as [|x l IH]; simpl; [done|].
  destruct (P x) eqn:Hx; [by exists x|]. simpl. apply IH.
Qed.

(** X6: With a non-empty search value in [exact] or [contains] mode, and a case
    mapping that yields the empty string for the empty string only, every
    record of a query that returns describes an entity that has the key as
    an own entry, and its [matchedValue] is the first element of the
    entity's value list that passes the test of the mode. *)
Theorem queryByMetadata_matchedValue (toLowerCase : string -> string)
    (m : LikeC4Model) (key sv : string)
    (mode : MatchMode) (results : list MetadataMatch) (r : MetadataMatch) :
  (forall s, toLowerCase s = "" <-> s = "") ->
  mode <> Exists ->
  sv <> "" ->
  queryByMetadata toLowerCase m
    {| ma_key := key; ma_value := Some sv; ma_matchMode := Some mode |}
  = Ok results ->
  r ∈ results ->
  exists e metadataValue v,
    e ∈ universe m /\ mm_id r = el_id e /\
    el_metadata e !! key = Some metadataValue /\
    find (valueTest toLowerCase mode sv) (valuesOf metadataValue) = Some v /\
    mm_matchedValue r = MatchedString v.
Proof.
  intros Hlower Hmode Hsv ->%queryByMetadata_Ok Hr. simpl in Hr.
  apply elem_of_take in Hr as (i & Hr & _). apply list_elem_of_lookup_2 in Hr.
  apply list_elem_of_omap in Hr as (e & He & Hhit).
  apply metadataHit_Some in Hhit as [(mv & Hkey & Hmatch & ->)|(_ & _ & ? & _)];
    [|done].
  assert (Hfound : exists v,
    find (valueTest toLowerCase mode sv) (valuesOf mv) = Some v /\
    valueTest toLowerCase mode sv v = true).
  { apply existsb_find. by destruct mode. }
  destruct Hfound as (v & Hfind & Hv).
  exists e, mv, v. repeat split; [done..|]. simpl. f_equal.
  assert (Hne : v <> "").
  { destruct mode; simpl in Hv; [| |done].
    - apply String.eqb_eq in Hv. congruence.
    - intros ->.
      assert (Hsearch : toLowerCase sv <> "") by (by rewrite Hlower).
      apply (includes_nonempty _ _ Hsearch) in Hv. by rewrite Hlower in Hv. }
  assert (Hvalue : getMatchedValue toLowerCase mv (Some sv) mode
                   = orElse (find (valueTest toLowerCase mode sv) (valuesOf mv))
                            (firstOrEmpty (valuesOf mv)))
    by (by destruct mode).
  rewrite Hvalue, Hfind. by apply orElse_truthy.
Qed.

Lemma queryByMetadata_matchedValue_witness :
  exists results r,
    queryByMetadata toLowerCaseAscii
      (ownedModel (MetaArray ["platform-team"; "web-team"]))
      {| ma_key := "owner"; ma_value := Some "WEB"; ma_matchMode := Some Contains |}
    = Ok results /\ r ∈ results /\
    exists e metadataValue v,
      e ∈ universe (ownedModel (MetaArray ["platform-team"; "web-team"])) /\
      mm_id r = el_id e /\
      el_metadata e !! "owner" = Some metadataValue /\
      find (valueTest toLowerCaseAscii Contains "WEB") (valuesOf metadataValue)
      = Some v /\
      mm_matchedValue r = MatchedString v.
Proof.
  eexists. eexists. split; [vm_compute; reflexivity|].
  split; [apply elem_of_cons; left; reflexivity|].
  eapply (queryByMetadata_matchedValue toLowerCaseAscii
            (ownedModel (MetaArray ["platform-team"; "web-team"])) "owner" "WEB"
            Contains).
  - apply toLowerCaseAscii_empty.
  - discriminate.
  - discriminate.
  - vm_compute. reflexivity.
  - apply elem_of_cons. left. reflexivity.
Defined.
